(** * sync_prices: a shallow embedding of [scripts/sync_prices.py]

    The pipeline of the script is
      filter -> merge -> aliases -> cache-1hr auto-fill -> custom models -> write.
    Catalogs are Python dicts from model name to pricing record.  A Python
    dict keeps its keys unique and in insertion order, so it is embedded as
    an association list whose keys are pairwise distinct ([dict_wf]).

    - [filter_upstream] and [merge_models] never look inside a catalog
      value, except that the merge compares two of them: they are pure
      functions over any type of values.
    - [apply_aliases], [fill_cache_1hr_pricing], [apply_custom_models] and
      [write_output] work on a store: the records are objects in a heap, a
      catalog maps keys to their locations, and the log and the files are
      part of the state.
    - The configuration is typed as the script expects it (lists of
      strings, an optional rule); catalog values are arbitrary JSON.
    - Python's own [float], [str], [decimal.Decimal], [json.dumps] and
      [hashlib.sha256] are modelled executably.
    - Strings are sequences of code points below 256 (one [ascii] each).
    - [load_config] takes [json.load] as a parameter; the steps of [main]
      that follow the loads are [build_catalog] and [main_steps].
    - The informational log lines of [filter_upstream] and [main], and the
      reads of [load_existing] and [fetch_upstream], are not part of the
      embedding. *)

From Stdlib Require Import ZArith NArith List String Ascii Bool Lia.
From Stdlib Require Import Floats.SpecFloat DecimalString Sorting.Sorted.
From stdpp Require Import base tactics option list strings.
Import ListNotations.
Set Warnings "-register-all".
Local Open Scope string_scope.
Local Open Scope list_scope.

(** ** Python strings *)

(** [s.startswith(p)] *)
Fixpoint startswith (s p : string) {struct p} : bool :=
  match p with
  | EmptyString => true
  | String c p' =>
      match s with
      | EmptyString => false
      | String d s' => if Ascii.eqb c d then startswith s' p' else false
      end
  end.

(** [pat in s] for two strings: [pat] occurs in [s] as a contiguous run. *)
Fixpoint contains (s pat : string) : bool :=
  startswith s pat
  || match s with
     | EmptyString => false
     | String _ s' => contains s' pat
     end.

(** [key.startswith(prefixes)] for a tuple of prefixes. *)
Definition startswith_any (key : string) (prefixes : list string) : bool :=
  existsb (startswith key) prefixes.

(** ** Python dicts with string keys *)

Module PyDict.

Definition dict (V : Type) : Type := list (string * V).

Definition keys {V} (d : dict V) : list string := map fst d.

Definition dict_wf {V} (d : dict V) : Prop := NoDup (keys d).

(** [d.get(k)] / [d[k]] *)
Fixpoint get {V} (k : string) (d : dict V) : option V :=
  match d with
  | [] => None
  | (k', v) :: d' => if String.eqb k k' then Some v else get k d'
  end.

(** [k in d] *)
Definition mem {V} (k : string) (d : dict V) : bool :=
  match get k d with Some _ => true | None => false end.

(** [d[k] = v]: an existing key keeps its position, a new key goes last. *)
Fixpoint set {V} (k : string) (v : V) (d : dict V) : dict V :=
  match d with
  | [] => [(k, v)]
  | (k', v') :: d' =>
      if String.eqb k k' then (k', v) :: d' else (k', v') :: set k v d'
  end.

(** [len(d)] *)
Definition len {V} (d : dict V) : nat := length d.

End PyDict.
Import PyDict.

(** ** Filtering ([filter_upstream]) *)

Record filter_config := {
  prefix_filters : list string;            (* config.get("prefix_filters", []) *)
  exclude_patterns : option (list string)  (* config.get("exclude_patterns", []) *)
}.

(** The policy of one loop iteration as a single test: no exclude pattern
    occurs in the key, and the prefix tuple is empty or one prefix matches. *)
Definition filter_keeps (prefixes excludes : list string) (key : string) : bool :=
  negb (existsb (contains key) excludes)
  && (Nat.eqb (length prefixes) 0 || startswith_any key prefixes).

Section Filter.
Context {V : Type}.

Definition filter_step (prefixes excludes : list string)
    (filtered : dict V) (kv : string * V) : dict V :=
  let '(key, value) := kv in
  (* Exclude first *)
  if existsb (contains key) excludes then filtered
  (* Then check prefix match *)
  else if negb (Nat.eqb (length prefixes) 0) && negb (startswith_any key prefixes)
  then filtered
  else set key value filtered.

Definition filter_upstream (data : dict V) (config : filter_config) : dict V :=
  let prefixes := prefix_filters config in
  let excludes := default [] (exclude_patterns config) in
  fold_left (filter_step prefixes excludes) data [].

End Filter.

(** ** Merging ([merge_models]) *)

Record stats := {
  added : nat;
  updated : nat;
  unchanged : nat;
  total_upstream : nat
}.

Definition incr_added (s : stats) : stats :=
  {| added := S (added s); updated := updated s;
     unchanged := unchanged s; total_upstream := total_upstream s |}.
Definition incr_updated (s : stats) : stats :=
  {| added := added s; updated := S (updated s);
     unchanged := unchanged s; total_upstream := total_upstream s |}.
Definition incr_unchanged (s : stats) : stats :=
  {| added := added s; updated := updated s;
     unchanged := S (unchanged s); total_upstream := total_upstream s |}.
Definition set_added (n : nat) (s : stats) : stats :=
  {| added := n; updated := updated s;
     unchanged := unchanged s; total_upstream := total_upstream s |}.

(** Number of upstream entries the counters account for. *)
Definition counted (st : stats) : nat := added st + updated st + unchanged st.

Section Merge.
Context {V : Type}.
(** [a != b] on catalog values (deep structural comparison in Python). *)
Variable py_ne : V -> V -> bool.

Definition merge_step (update_existing : bool)
    (acc : dict V * stats) (kv : string * V) : dict V * stats :=
  let '(merged, st) := acc in
  let '(key, value) := kv in
  match get key merged with
  | None => (set key value merged, incr_added st)
  | Some old =>
      if update_existing then
        if py_ne old value then (set key value merged, incr_updated st)
        else (merged, incr_unchanged st)
      else (merged, incr_unchanged st)
  end.

Definition merge_models (existing filtered : dict V) (sync_mode : string)
    (update_existing : bool) : dict V * stats :=
  let st := {| added := 0; updated := 0; unchanged := 0;
               total_upstream := len filtered |} in
  if String.eqb sync_mode "full" then
    (* Full mode: replace entirely with filtered upstream *)
    (filtered, set_added (len filtered) st)
  else
    (* Additive mode *)
    fold_left (merge_step update_existing) filtered (existing, st).

End Merge.

(** ** JSON values as Python holds them after [json.load] *)

(** A Python [float] is an IEEE 754 binary64 number. *)
Definition float : Type := spec_float.
Definition prec64 : Z := 53.
Definition emax64 : Z := 1024.

Inductive json : Type :=
| JNull                                   (* None *)
| JBool (b : bool)
| JInt (z : Z)                            (* int, unbounded *)
| JFloat (f : float)
| JStr (s : string)
| JList (items : list json)
| JObj (fields : list (string * json)).   (* dict, keys in insertion order *)

(** [int == float]: Python compares the exact mathematical values. *)
Definition int_eq_float (z : Z) (f : float) : bool :=
  match f with
  | S754_zero _ => Z.eqb z 0
  | S754_finite s m e =>
      let sm := if s then Z.neg m else Z.pos m in
      if Z.leb 0 e then Z.eqb z (sm * 2 ^ e) else Z.eqb (z * 2 ^ (- e)) sm
  | S754_infinity _ | S754_nan => false
  end.

Definition Z_of_bool (b : bool) : Z := if b then 1 else 0.

(** [a == b] on JSON values: numbers (and booleans, a subclass of int) by
    value, lists pointwise, dicts as unordered key/value sets. No identity
    shortcut is taken, as for two trees loaded separately. The one object
    such trees can share is the NaN that [json.loads] returns for every
    [NaN]: Python finds a list or dict that holds it equal to another that
    holds it, the model does not. *)
Fixpoint py_eq (a b : json) {struct a} : bool :=
  match a, b with
  | JNull, JNull => true
  | JBool x, JBool y => Bool.eqb x y
  | JBool x, JInt z | JInt z, JBool x => Z.eqb (Z_of_bool x) z
  | JBool x, JFloat f | JFloat f, JBool x => int_eq_float (Z_of_bool x) f
  | JInt x, JInt y => Z.eqb x y
  | JInt z, JFloat f | JFloat f, JInt z => int_eq_float z f
  | JFloat x, JFloat y => SFeqb x y
  | JStr x, JStr y => String.eqb x y
  | JList la, JList lb =>
      (fix go (la lb : list json) : bool :=
         match la, lb with
         | [], [] => true
         | x :: la', y :: lb' => py_eq x y && go la' lb'
         | _, _ => false
         end) la lb
  | JObj fa, JObj fb =>
      Nat.eqb (length fa) (length fb)
      && (fix go (fa : list (string * json)) : bool :=
            match fa with
            | [] => true
            | (k, v) :: fa' =>
                match get k fb with
                | Some v' => py_eq v v'
                | None => false
                end && go fa'
            end) fa
  | _, _ => false
  end.

Definition py_ne (a b : json) : bool := negb (py_eq a b).

(** ** Binary64 floats and decimal strings *)

Local Open Scope Z_scope.

(** The binary64 number nearest to [p/q], ties to even; overflow gives an
    infinity. The quotient is taken with at least 64 significant bits (and
    down to the smallest subnormal exponent), its remainder gives the
    position relative to the half-way point, and [binary_round_aux] rounds. *)
Definition float_of_ratio (neg : bool) (p q : positive) : float :=
  let l := Z.pos (digits2_pos p) - Z.pos (digits2_pos q) in
  let sh := Z.max (64 - l) 1074 in
  let num := Z.pos p * 2 ^ sh in
  let mx := num / Z.pos q in
  let r := num mod Z.pos q in
  let lx := if r =? 0 then loc_Exact else loc_Inexact (2 * r ?= Z.pos q) in
  binary_round_aux prec64 emax64 neg mx (- sh) lx.

(** The float written [c * 10^e] in a numeric string, correctly rounded
    (what [float(s)] and [json.loads] return). *)
Definition float_of_digits (neg : bool) (c : N) (e : Z) : float :=
  match c with
  | N0 => S754_zero neg
  | Npos p =>
      if 0 <=? e then float_of_ratio neg (p * Z.to_pos (10 ^ e)) 1
      else float_of_ratio neg p (Z.to_pos (10 ^ (- e)))
  end.

Definition float_same (x y : float) : bool :=
  match x, y with
  | S754_zero a, S754_zero b | S754_infinity a, S754_infinity b => Bool.eqb a b
  | S754_nan, S754_nan => true
  | S754_finite a m e, S754_finite b m' e' =>
      Bool.eqb a b && Pos.eqb m m' && Z.eqb e e'
  | _, _ => false
  end.

(** Number of decimal digits of [n] ([len(str(n))]). *)
Definition ndigits (n : N) : Z := Z.of_nat (Decimal.nb_digits (N.to_uint n)).

(** [floor(log10(p/q))]. *)
Definition floor_log10 (p q : positive) : Z :=
  if (q <=? p)%positive then ndigits (Z.to_N (Z.pos p / Z.pos q)) - 1
  else
    let j := ndigits (Npos q) - ndigits (Npos p) in
    if Z.pos q <=? Z.pos p * 10 ^ j then - j else - (j + 1).

(** The [n]-digit decimals just below and above the positive float [x = p/q]
    that read back as [x]; of two, the nearer one, the even one on a tie. *)
Definition try_digits (x : float) (p q : positive) (e10 n : Z) : option (N * Z) :=
  let j := e10 - n + 1 in
  let num := if 0 <=? j then Z.pos p else Z.pos p * 10 ^ (- j) in
  let den := if 0 <=? j then Z.pos q * 10 ^ j else Z.pos q in
  let lo := num / den in
  let r := num mod den in
  if r =? 0 then Some (Z.to_N lo, j)
  else
    let hi := lo + 1 in
    let ok c := float_same (float_of_digits false (Z.to_N c) j) x in
    match ok lo, ok hi with
    | true, true =>
        match 2 * r ?= den with
        | Lt => Some (Z.to_N lo, j)
        | Gt => Some (Z.to_N hi, j)
        | Eq => Some (Z.to_N (if Z.even lo then lo else hi), j)
        end
    | true, false => Some (Z.to_N lo, j)
    | false, true => Some (Z.to_N hi, j)
    | false, false => None
    end.

Fixpoint first_digits (x : float) (p q : positive) (e10 : Z) (n : Z)
    (fuel : nat) : N * Z :=
  match try_digits x p q e10 n, fuel with
  | Some d, _ => d
  | None, S fuel' => first_digits x p q e10 (n + 1) fuel'
  | None, O => (0%N, 0)
  end.

Fixpoint strip_zeros (fuel : nat) (c : N) (j : Z) : N * Z :=
  match fuel with
  | O => (c, j)
  | S fuel' =>
      if (negb (c =? 0)%N && (c mod 10 =? 0)%N)%bool
      then strip_zeros fuel' (c / 10)%N (j + 1) else (c, j)
  end.

(** Shortest digits that read back as the positive float [m * 2^e]
    (the digit string of [repr], without trailing zeros) and their exponent. *)
Definition shortest_digits (m : positive) (e : Z) : N * Z :=
  let p := if 0 <=? e then (m * Z.to_pos (2 ^ e))%positive else m in
  let q := if 0 <=? e then 1%positive else Z.to_pos (2 ^ (- e)) in
  let '(c, j) := first_digits (S754_finite false m e) p q (floor_log10 p q) 1 16 in
  strip_zeros 20 c j.

Definition str_N (n : N) : string := NilZero.string_of_uint (N.to_uint n).

Fixpoint zeros (n : nat) : string :=
  match n with O => "" | S n' => String "0" (zeros n') end.

(** [float_repr] formatting of the digits [ds] with decimal point position
    [decpt] (value [0.ds * 10^decpt]): exponent notation when
    [decpt <= -4] or [decpt > 16], in the style of C's %r. *)
Definition format_short (ds : string) (decpt : Z) : string :=
  let nd := Z.of_nat (String.length ds) in
  if ((decpt <=? -4) || (16 <? decpt))%bool then
    let x := decpt - 1 in
    String.substring 0 1 ds
    +:+ (if 1 <? nd then "." +:+ String.substring 1 (String.length ds - 1) ds else "")
    +:+ "e" +:+ (if x <? 0 then "-" else "+")
    +:+ (if Z.abs x <? 10 then "0" else "") +:+ str_N (Z.to_N (Z.abs x))
  else if decpt <=? 0 then "0." +:+ zeros (Z.to_nat (- decpt)) +:+ ds
  else if nd <=? decpt then ds +:+ zeros (Z.to_nat (decpt - nd)) +:+ ".0"
  else String.substring 0 (Z.to_nat decpt) ds +:+ "."
       +:+ String.substring (Z.to_nat decpt) (String.length ds - Z.to_nat decpt) ds.

(** [repr(x)] / [str(x)] for a float. *)
Definition float_repr (x : float) : string :=
  match x with
  | S754_nan => "nan"
  | S754_infinity s => if s then "-inf" else "inf"
  | S754_zero s => if s then "-0.0" else "0.0"
  | S754_finite s m e =>
      let '(c, j) := shortest_digits m e in
      let ds := str_N c in
      (if s then "-" else "") +:+ format_short ds (j + Z.of_nat (String.length ds))
  end.

(** ** Exceptions *)

Inductive exn : Type :=
| InvalidOperation    (* decimal.InvalidOperation *)
| Overflow            (* decimal.Overflow *)
| ValueError
| TypeError.

Inductive result (A : Type) : Type :=
| Ok (a : A)
| Raise (e : exn).
Arguments Ok {A} a.
Arguments Raise {A} e.

(** ** [decimal.Decimal] under the default context *)

(** A Decimal: sign, coefficient and exponent, or a special value. The sign
    and the payload of a NaN are dropped: nothing after [float()] sees them. *)
Inductive dec : Type :=
| DFin (neg : bool) (coeff : N) (exp : Z)
| DInf (neg : bool)
| DNaN (signaling : bool).

(** Default context: [prec=28], [rounding=ROUND_HALF_EVEN], [Emin=-999999],
    [Emax=999999], [clamp=0], traps on InvalidOperation, DivisionByZero and
    Overflow. *)
Definition ctx_prec : Z := 28.
Definition ctx_Emax : Z := 999999.
Definition ctx_Emin : Z := -999999.
Definition ctx_Etiny : Z := ctx_Emin - ctx_prec + 1.
Definition ctx_Etop : Z := ctx_Emax - ctx_prec + 1.

(** *** [Decimal(s)] for a string *)

Definition is_space (c : ascii) : bool :=
  let n := nat_of_ascii c in
  ((9 <=? n) && (n <=? 13) || (28 <=? n) && (n <=? 32)
   || (n =? 133) || (n =? 160))%nat.

Definition is_digit (c : ascii) : bool :=
  let n := nat_of_ascii c in ((48 <=? n) && (n <=? 57))%nat.

Definition lower (c : ascii) : ascii :=
  let n := nat_of_ascii c in
  if ((65 <=? n) && (n <=? 90))%nat then ascii_of_nat (n + 32) else c.

Fixpoint lstrip (s : string) : string :=
  match s with
  | String c s' => if is_space c then lstrip s' else s
  | EmptyString => s
  end.

Fixpoint rstrip (s : string) : string :=
  match s with
  | EmptyString => EmptyString
  | String c s' =>
      match rstrip s' with
      | EmptyString => if is_space c then EmptyString else String c EmptyString
      | r => String c r
      end
  end.

(** [s.strip()] *)
Definition strip (s : string) : string := rstrip (lstrip s).

(** [s.replace("_", "")] *)
Fixpoint drop_underscores (s : string) : string :=
  match s with
  | EmptyString => EmptyString
  | String c s' =>
      if Ascii.eqb c "_" then drop_underscores s' else String c (drop_underscores s')
  end.

Fixpoint map_string (f : ascii -> ascii) (s : string) : string :=
  match s with
  | EmptyString => EmptyString
  | String c s' => String (f c) (map_string f s')
  end.

(** Longest run of digits at the front of [s], and what follows it. *)
Fixpoint span_digits (s : string) : string * string :=
  match s with
  | String c s' =>
      if is_digit c then let '(ds, rest) := span_digits s' in (String c ds, rest)
      else (EmptyString, s)
  | EmptyString => (EmptyString, EmptyString)
  end.

Fixpoint N_of_digits (acc : N) (ds : string) : N :=
  match ds with
  | EmptyString => acc
  | String c ds' => N_of_digits (acc * 10 + N.of_nat (nat_of_ascii c - 48))%N ds'
  end.

(** An optional sign at the front. *)
Definition take_sign (s : string) : bool * string :=
  match s with
  | String "-" s' => (true, s')
  | String "+" s' => (false, s')
  | _ => (false, s)
  end.

(** The exponent part [E[+-]digits] up to the end of the string, or nothing. *)
Definition parse_exponent (s : string) : option Z :=
  match s with
  | EmptyString => Some 0
  | String c s' =>
      if Ascii.eqb (lower c) "e" then
        let '(neg, s'') := take_sign s' in
        match span_digits s'' with
        | (String d ds, EmptyString) =>
            let x := Z.of_N (N_of_digits 0 (String d ds)) in
            Some (if neg then - x else x)
        | _ => None
        end
      else None
  end.

(** The body of a numeric string after the sign: a number with at least one
    digit, [Inf], [Infinity], [NaN] or [sNaN] with optional digits. *)
Definition parse_unsigned (neg : bool) (s : string) : option dec :=
  let low := map_string lower s in
  if String.eqb low "inf" || String.eqb low "infinity" then Some (DInf neg)
  else if startswith low "nan" then
    match span_digits (String.substring 3 (String.length low - 3) low) with
    | (_, EmptyString) => Some (DNaN false)
    | _ => None
    end
  else if startswith low "snan" then
    match span_digits (String.substring 4 (String.length low - 4) low) with
    | (_, EmptyString) => Some (DNaN true)
    | _ => None
    end
  else
    let '(ip, rest) := span_digits s in
    let '(fp, rest') :=
      match rest with
      | String "." r => span_digits r
      | _ => (EmptyString, rest)
      end in
    if (String.length ip + String.length fp =? 0)%nat then None
    else
      match parse_exponent rest' with
      | Some x =>
          Some (DFin neg (N_of_digits 0 (ip +:+ fp)) (x - Z.of_nat (String.length fp)))
      | None => None
      end.

(** [Decimal(s)]: exact, no rounding; a malformed string raises. An
    exponent is read whatever its size: the C implementation of [decimal]
    raises as well for a value outside its largest context (an exponent
    beyond about 10^18), which [str] of an int or a float never gives. *)
Definition Decimal_of_str (s : string) : result dec :=
  let '(neg, body) := take_sign (drop_underscores (strip s)) in
  match parse_unsigned neg body with
  | Some d => Ok d
  | None => Raise InvalidOperation
  end.

(** *** [a * b] on Decimals *)

(** The context's rounding of a finite non-special result ([_fix]). *)
Definition dec_fix (neg : bool) (c : N) (e : Z) : result dec :=
  if (c =? 0)%N then Ok (DFin neg 0 (Z.min (Z.max e ctx_Etiny) ctx_Emax))
  else
    let exp_min := ndigits c + e - ctx_prec in
    if ctx_Etop <? exp_min then Raise Overflow
    else
      let exp_min := if exp_min <? ctx_Etiny then ctx_Etiny else exp_min in
      if e <? exp_min then
        (* too many digits: round half even to the digits above [exp_min] *)
        let unit := (10 ^ Z.to_N (exp_min - e))%N in
        let q := (c / unit)%N in
        let r := (c mod unit)%N in
        let up :=
          match (2 * r ?= unit)%N with
          | Gt => true
          | Eq => N.odd q
          | Lt => false
          end in
        let coeff := if up then (q + 1)%N else q in
        let '(coeff, exp_min) :=
          if ctx_prec <? ndigits coeff then ((coeff / 10)%N, exp_min + 1)
          else (coeff, exp_min) in
        if ctx_Etop <? exp_min then Raise Overflow
        else Ok (DFin neg coeff exp_min)
      else Ok (DFin neg c e).

Definition dec_mul (a b : dec) : result dec :=
  match a, b with
  | DNaN true, _ | _, DNaN true => Raise InvalidOperation
  | DNaN false, _ | _, DNaN false => Ok (DNaN false)
  | DInf s, DInf t => Ok (DInf (xorb s t))
  | DInf s, DFin t c _ | DFin t c _, DInf s =>
      if (c =? 0)%N then Raise InvalidOperation else Ok (DInf (xorb s t))
  | DFin s c e, DFin t c' e' => dec_fix (xorb s t) (c * c') (e + e')
  end.

(** *** [float(d)] for a Decimal: [float(str(d))], correctly rounded *)
Definition float_of_Decimal (d : dec) : result float :=
  match d with
  | DNaN true => Raise ValueError
  | DNaN false => Ok S754_nan
  | DInf s => Ok (S754_infinity s)
  | DFin s c e => Ok (float_of_digits s c e)
  end.

Local Close Scope Z_scope.

(** ** [str(v)] and [Decimal(str(v))] on JSON values *)

(** [str(z)] for an int. *)
Definition str_int (z : Z) : string := NilZero.string_of_int (Z.to_int z).

(** [str(v)] for a scalar. The [str] of a list or dict is not spelled out:
    it starts with a bracket, which is all [Decimal] needs to reject it. *)
Definition py_str (v : json) : option string :=
  match v with
  | JNull => Some "None"
  | JBool true => Some "True"
  | JBool false => Some "False"
  | JInt z => Some (str_int z)
  | JFloat f => Some (float_repr f)
  | JStr s => Some s
  | JList _ | JObj _ => None
  end.

(** [Decimal(str(v))] *)
Definition Decimal_of_value (v : json) : result dec :=
  match py_str v with
  | Some s => Decimal_of_str s
  | None => Raise InvalidOperation
  end.

Definition bind {A B} (r : result A) (k : A -> result B) : result B :=
  match r with
  | Ok a => k a
  | Raise e => Raise e
  end.

Notation "x <- r ;; k" := (bind r (fun x => k))
  (at level 100, r at next level, right associativity).

(** [float(Decimal(str(cost_5m)) * Decimal(str(ratio)))] *)
Definition scale_cost (cost_5m ratio : json) : result float :=
  a <- Decimal_of_value cost_5m ;;
  b <- Decimal_of_value ratio ;;
  d <- dec_mul a b ;;
  float_of_Decimal d.

(** ** The store: records as objects, catalogs as dicts of references

    [fill_cache_1hr_pricing] and [apply_custom_models] mutate the record
    dicts of a catalog in place, and [apply_aliases] copies records so that
    no two keys share one. A catalog therefore maps each key to the
    location of its value in a heap. Only the value of a catalog entry is
    an object with identity: nothing in the script mutates what is nested
    inside a record. *)

Abbreviation loc := nat (only parsing).

Inductive event : Type :=
| AliasSkipped (alias_key source : string)     (* log.warning *)
| AliasApplied (alias_key source : string)     (* log.info *)
| AutoFilled (key : string) (cost_5m ratio : json) (value : float)  (* log.info *)
| NoChanges                                    (* log.info *)
| OutputWritten (json_path : string) (models : nat)
| HashWritten (hash_path : string).

Definition is_warning (e : event) : bool :=
  match e with AliasSkipped _ _ => true | _ => false end.

Record world := {
  heap : list json;               (* the objects allocated so far *)
  files : dict string;            (* file contents by path *)
  log : list event                (* what the logger has emitted, oldest first *)
}.

Definition set_heap (h : list json) (w : world) : world :=
  {| heap := h; files := files w; log := log w |}.
Definition emit (e : event) (w : world) : world :=
  {| heap := heap w; files := files w; log := log w ++ [e] |}.
Definition write_file (path content : string) (w : world) : world :=
  {| heap := heap w; files := set path content (files w); log := log w |}.

(** The object at a location; a dangling reference reads as [None]. *)
Definition deref (h : list json) (l : loc) : json := default JNull (h !! l).

(** The catalog as a tree of values. *)
Definition denote (h : list json) (data : dict loc) : dict json :=
  map (fun kl => (fst kl, deref h (snd kl))) data.

(** Every reference of the catalog points into the heap. *)
Definition store_wf (h : list json) (data : dict loc) : Prop :=
  Forall (fun kl => snd kl < length h) data.

(** [a != b] on two values of a catalog in the store. *)
Definition py_ne_at (h : list json) (l l' : loc) : bool :=
  py_ne (deref h l) (deref h l').

(** [copy.deepcopy(data[source])]: a fresh object with the same content. *)
Definition deepcopy (l : loc) (w : world) : loc * world :=
  (length (heap w), set_heap (heap w ++ [deref (heap w) l]) w).

(** ** Aliases ([apply_aliases]) *)

Record alias_cfg := {
  source : option string     (* alias_cfg.get("source", "") *)
}.

Definition apply_aliases_step (acc : dict loc * world)
    (a : string * alias_cfg) : dict loc * world :=
  let '(data, w) := acc in
  let '(alias_key, cfg) := a in
  let src := default "" (source cfg) in
  match get src data with
  | None => (data, emit (AliasSkipped alias_key src) w)
  | Some l =>
      let '(l', w') := deepcopy l w in
      (set alias_key l' data, emit (AliasApplied alias_key src) w')
  end.

Definition apply_aliases (data : dict loc) (aliases : dict alias_cfg)
    (w : world) : dict loc * world :=
  fold_left apply_aliases_step aliases (data, w).

(** ** Cache 1-hour auto-fill ([fill_cache_1hr_pricing]) *)

Definition source_field : string := "cache_creation_input_token_cost".
Definition target_field : string := "cache_creation_input_token_cost_above_1hr".

Record auto_fill_cfg := {
  model_prefix : option string;    (* auto_fill_cfg.get("model_prefix", "claude-") *)
  ratio : option json              (* auto_fill_cfg.get("ratio", 1.6) *)
}.

(** The float written [1.6]. *)
Definition float_1_6 : float := Eval vm_compute in float_of_digits false 16 (-1).

(** [d.get(k) is None]: the key is missing or holds [None]. *)
Definition get_is_None (k : string) (d : dict json) : bool :=
  match get k d with
  | None | Some JNull => true
  | Some _ => false
  end.

(** The loop over [data.items()]; an exception leaves the loop with the
    records filled so far. *)
Fixpoint fill_loop (prefix : string) (ratio : json) (items : dict loc)
    (count : nat) (w : world) : result nat * world :=
  match items with
  | [] => (Ok count, w)
  | (key, l) :: rest =>
      if negb (startswith key prefix) then fill_loop prefix ratio rest count w
      else
        match deref (heap w) l with
        | JObj value =>
            match get source_field value with
            | None | Some JNull => fill_loop prefix ratio rest count w
            | Some cost_5m =>
                if negb (get_is_None target_field value)
                then fill_loop prefix ratio rest count w
                else
                  match scale_cost cost_5m ratio with
                  | Raise e => (Raise e, w)
                  | Ok f =>
                      let value' := set target_field (JFloat f) value in
                      let w' := emit (AutoFilled key cost_5m ratio f)
                                  (set_heap (<[l := JObj value']> (heap w)) w) in
                      fill_loop prefix ratio rest (S count) w'
                  end
            end
        | _ => fill_loop prefix ratio rest count w
        end
  end.

Definition fill_cache_1hr_pricing (data : dict loc)
    (config : option auto_fill_cfg) (w : world) : result nat * world :=
  match config with
  | None => (Ok 0, w)
  | Some {| model_prefix := None; ratio := None |} => (Ok 0, w)  (* empty dict *)
  | Some cfg =>
      let prefix := default "claude-" (model_prefix cfg) in
      let ratio := default (JFloat float_1_6) (ratio cfg) in
      fill_loop prefix ratio data 0 w
  end.

(** What the loop body does with an object: [Some (value, cost_5m)] when it
    is a dict whose source field is set and whose target field is missing
    or [None] (the body reaches the assignment), [None] when it moves on. *)
Definition fillable (v : json) : option (dict json * json) :=
  match v with
  | JObj value =>
      match get source_field value with
      | None | Some JNull => None
      | Some cost_5m =>
          if get_is_None target_field value then Some (value, cost_5m) else None
      end
  | _ => None
  end.

(** The prefix the rule matches keys against. *)
Definition rule_prefix (config : option auto_fill_cfg) : string :=
  match config with
  | Some cfg => default "claude-" (model_prefix cfg)
  | None => "claude-"
  end.

(** The ratio the rule multiplies by. *)
Definition rule_ratio (config : option auto_fill_cfg) : json :=
  match config with
  | Some cfg => default (JFloat float_1_6) (ratio cfg)
  | None => JFloat float_1_6
  end.

(** ** The worked examples of the specification *)

(** The floats written [0.5], [0.30] and [0.48]. *)
Definition float_0_5 : float := Eval vm_compute in float_of_digits false 5 (-1).
Definition float_0_30 : float := Eval vm_compute in float_of_digits false 30 (-2).
Definition float_0_48 : float := Eval vm_compute in float_of_digits false 48 (-2).

(** End-to-end example: [prefix_filters = ["gpt-"]], no exclude patterns. *)
Definition example_config : filter_config :=
  {| prefix_filters := ["gpt-"]; exclude_patterns := None |}.
Definition example_existing : dict json :=
  [("gpt-4", JObj [("cost", JInt 1)])].
Definition example_upstream : dict json :=
  [("gpt-4", JObj [("cost", JInt 2)]);
   ("gpt-3", JObj [("cost", JFloat float_0_5)]);
   ("claude-x", JObj [("cost", JInt 9)])].

(** Derived-field example: one record with a 5-minute cost of [0.30]. *)
Definition example_rule : option auto_fill_cfg :=
  Some {| model_prefix := Some "claude-"; ratio := Some (JFloat float_1_6) |}.
Definition example_catalog : dict loc := [("claude-x", 0)].
Definition example_world : world :=
  {| heap := [JObj [(source_field, JFloat float_0_30)]]; files := []; log := [] |}.

(** A 30-digit integer cost whose product with 1.6 has 31 digits. *)
Definition long_cost : Z := 792281625142655074739159040005.
Definition long_cost_world : world :=
  {| heap := [JObj [(source_field, JInt long_cost)]]; files := []; log := [] |}.

(** ** SHA-256 ([hashlib.sha256], FIPS 180-4) *)

Local Open Scope Z_scope.

Definition w32 (x : Z) : Z := x mod 2 ^ 32.
Definition add32 (x y : Z) : Z := w32 (x + y).
Definition rotr (n x : Z) : Z := Z.lor (Z.shiftr x n) (w32 (Z.shiftl x (32 - n))).
Definition not32 (x : Z) : Z := 2 ^ 32 - 1 - x.

Definition Ch (x y z : Z) : Z := Z.lxor (Z.land x y) (Z.land (not32 x) z).
Definition Maj (x y z : Z) : Z :=
  Z.lxor (Z.lxor (Z.land x y) (Z.land x z)) (Z.land y z).
Definition Sigma0 (x : Z) : Z := Z.lxor (Z.lxor (rotr 2 x) (rotr 13 x)) (rotr 22 x).
Definition Sigma1 (x : Z) : Z := Z.lxor (Z.lxor (rotr 6 x) (rotr 11 x)) (rotr 25 x).
Definition sigma0 (x : Z) : Z := Z.lxor (Z.lxor (rotr 7 x) (rotr 18 x)) (Z.shiftr x 3).
Definition sigma1 (x : Z) : Z := Z.lxor (Z.lxor (rotr 17 x) (rotr 19 x)) (Z.shiftr x 10).

(** The round constants are the first 32 bits of the fractional parts of
    the cube roots of the first 64 primes, the initial hash value those of
    the square roots of the first 8 primes. *)
Definition is_prime (n : nat) : bool :=
  forallb (fun d => negb (n mod d =? 0)%nat) (seq 2 (n - 2)).

Definition first_primes (k : nat) : list Z :=
  map Z.of_nat (firstn k (List.filter is_prime (seq 2 400))).

(** The integer cube root of [n], one bit at a time from bit [bits - 1]. *)
Fixpoint cube_root (bits : nat) (n r : Z) : Z :=
  match bits with
  | O => r
  | S b =>
      let r' := r + 2 ^ Z.of_nat b in
      if r' * r' * r' <=? n then cube_root b n r' else cube_root b n r
  end.

Definition frac_cube_root (p : Z) : Z := w32 (cube_root 40 (p * 2 ^ 96) 0).
Definition frac_square_root (p : Z) : Z := w32 (Z.sqrt (p * 2 ^ 64)).

Definition sha_K : list Z := Eval vm_compute in map frac_cube_root (first_primes 64).
Definition sha_H0 : list Z := Eval vm_compute in map frac_square_root (first_primes 8).

(** Padding: a 1 bit, zeros, and the bit length on 64 bits, up to a
    multiple of 64 bytes. *)
Definition sha_pad (msg : list Z) : list Z :=
  let n := Z.of_nat (length msg) in
  let k := (55 - n) mod 64 in
  msg ++ [0x80] ++ repeat 0 (Z.to_nat k)
      ++ map (fun i => Z.shiftr (8 * n) (8 * (7 - Z.of_nat i)) mod 256) (seq 0 8).

Fixpoint be_words (bytes : list Z) : list Z :=
  match bytes with
  | a :: b :: c :: d :: rest =>
      (((a * 256 + b) * 256 + c) * 256 + d) :: be_words rest
  | _ => []
  end.

Fixpoint chunks (n : nat) (fuel : nat) (l : list Z) : list (list Z) :=
  match fuel, l with
  | _, [] => []
  | O, _ => []
  | S fuel', _ => firstn n l :: chunks n fuel' (skipn n l)
  end.

(** The message schedule: [ws] holds the words so far, newest first. *)
Fixpoint schedule (n : nat) (ws : list Z) : list Z :=
  match n with
  | O => ws
  | S n' =>
      let at_ i := nth i ws 0 in
      schedule n'
        (add32 (add32 (sigma1 (at_ 1%nat)) (at_ 6%nat))
               (add32 (sigma0 (at_ 14%nat)) (at_ 15%nat)) :: ws)
  end.

Definition sha_round (st : list Z) (kw : Z * Z) : list Z :=
  match st with
  | [a; b; c; d; e; f; g; h] =>
      let t1 := add32 (add32 (add32 h (Sigma1 e)) (add32 (Ch e f g) (fst kw))) (snd kw) in
      let t2 := add32 (Sigma0 a) (Maj a b c) in
      [add32 t1 t2; a; b; c; add32 d t1; e; f; g]
  | _ => st
  end.

Definition sha_block (st : list Z) (block : list Z) : list Z :=
  let ws := rev (schedule 48 (rev (be_words block))) in
  let st' := fold_left sha_round (combine sha_K ws) st in
  map (fun p => add32 (fst p) (snd p)) (combine st st').

Definition sha256_words (msg : list Z) : list Z :=
  let padded := sha_pad msg in
  fold_left sha_block (chunks 64 (length padded) padded) sha_H0.

Definition hex_digit (n : Z) : ascii :=
  ascii_of_nat (Z.to_nat (if n <? 10 then 48 + n else 87 + n)).

Definition hex_word (x : Z) : string :=
  fold_right (fun i s => String (hex_digit (Z.shiftr x (4 * (7 - Z.of_nat i)) mod 16)) s)
    EmptyString (seq 0 8).

(** [hashlib.sha256(bytes).hexdigest()] *)
Definition sha256_hexdigest (msg : list Z) : string :=
  fold_right (fun x s => hex_word x +:+ s) EmptyString (sha256_words msg).

Local Close Scope Z_scope.

(** ** [json.dumps(data, sort_keys=True, indent=2)] *)

Definition dquote : ascii := ascii_of_nat 34.
Definition backslash : ascii := ascii_of_nat 92.
Definition newline : ascii := ascii_of_nat 10.

(** [py_encode_basestring_ascii]: printable ASCII stays, the rest is
    escaped; every code point of the model is below 256. *)
Definition escape_char (c : ascii) : string :=
  let n := nat_of_ascii c in
  if (n =? 34)%nat then String backslash (String dquote "")
  else if (n =? 92)%nat then String backslash (String backslash "")
  else if (n =? 8)%nat then String backslash "b"
  else if (n =? 12)%nat then String backslash "f"
  else if (n =? 10)%nat then String backslash "n"
  else if (n =? 13)%nat then String backslash "r"
  else if (n =? 9)%nat then String backslash "t"
  else if ((n <? 32) || (126 <? n))%nat then
    String backslash
      (String "u" (String "0" (String "0"
         (String (hex_digit (Z.of_nat (n / 16)))
            (String (hex_digit (Z.of_nat (n mod 16))) "")))))
  else String c "".

Fixpoint escape (s : string) : string :=
  match s with
  | EmptyString => EmptyString
  | String c s' => escape_char c +:+ escape s'
  end.

Definition encode_basestring_ascii (s : string) : string :=
  String dquote (escape s +:+ String dquote "").

(** [floatstr]: [float.__repr__], with JavaScript names for the specials. *)
Definition floatstr (f : float) : string :=
  match f with
  | S754_nan => "NaN"
  | S754_infinity false => "Infinity"
  | S754_infinity true => "-Infinity"
  | _ => float_repr f
  end.

(** [sorted(dct.items())]: by key, as the keys are pairwise distinct. *)
Fixpoint insert_item {V} (kv : string * V) (l : dict V) : dict V :=
  match l with
  | [] => [kv]
  | x :: l' =>
      if String.leb (fst kv) (fst x) then kv :: l else x :: insert_item kv l'
  end.

Definition sorted_items {V} (d : dict V) : dict V := fold_right insert_item [] d.

(** The order [sorted] puts the items in. *)
Definition key_le {V} (kv kv' : string * V) : Prop :=
  String.leb (fst kv) (fst kv') = true.

(** A newline and the indentation of a nesting level. *)
Fixpoint spaces (n : nat) : string :=
  match n with O => "" | S n' => String " " (spaces n') end.

Definition newline_indent (level : nat) : string :=
  String newline (spaces (2 * level)).

Fixpoint join (sep : string) (parts : list string) : string :=
  match parts with
  | [] => ""
  | [p] => p
  | p :: rest => p +:+ sep +:+ join sep rest
  end.

(** The text of a value at a nesting level. The members of a dict are
    encoded first and then put in key order, which gives the same text as
    sorting the items and encoding them in that order. *)
Fixpoint dumps_at (level : nat) (v : json) {struct v} : string :=
  match v with
  | JNull => "null"
  | JBool true => "true"
  | JBool false => "false"
  | JInt z => str_int z
  | JFloat f => floatstr f
  | JStr s => encode_basestring_ascii s
  | JList [] => "[]"
  | JList items =>
      "[" +:+ newline_indent (S level)
      +:+ join ("," +:+ newline_indent (S level)) (map (dumps_at (S level)) items)
      +:+ newline_indent level +:+ "]"
  | JObj [] => "{}"
  | JObj fields =>
      let members :=
        map (fun kv => let '(k, x) := kv in (k, dumps_at (S level) x)) fields in
      "{" +:+ newline_indent (S level)
      +:+ join ("," +:+ newline_indent (S level))
            (map (fun kv => encode_basestring_ascii (fst kv) +:+ ": " +:+ snd kv)
               (sorted_items members))
      +:+ newline_indent level +:+ "}"
  end.

Definition dumps (v : json) : string := dumps_at 0 v.

(** ** Output ([compute_hash], [write_output]) *)

(** [s.encode("utf-8")], one [ascii] per byte of the result. *)
Fixpoint encode_utf8 (s : string) : string :=
  match s with
  | EmptyString => EmptyString
  | String c s' =>
      let n := nat_of_ascii c in
      if (n <? 128)%nat then String c (encode_utf8 s')
      else String (ascii_of_nat (192 + n / 64))
             (String (ascii_of_nat (128 + n mod 64)) (encode_utf8 s'))
  end.

Definition bytes_of (s : string) : list Z :=
  map (fun c => Z.of_nat (nat_of_ascii c)) (list_ascii_of_string s).

(** [hashlib.sha256(json_bytes).hexdigest()] *)
Definition compute_hash (json_bytes : string) : string :=
  sha256_hexdigest (bytes_of json_bytes).

(** The bytes [write_output] hashes and writes for a catalog. *)
Definition serialize (h : list json) (data : dict loc) : string :=
  encode_utf8 (dumps (JObj (denote h data)) +:+ String newline "").

(** Opening and writing the two files is taken to succeed. *)
Definition write_output (data : dict loc) (json_path hash_path old_hash : string)
    (w : world) : (bool * string) * world :=
  let json_bytes := serialize (heap w) data in
  let new_hash := compute_hash json_bytes in
  if String.eqb new_hash old_hash then
    ((false, new_hash), emit NoChanges w)
  else
    let w1 := write_file json_path json_bytes w in
    let w2 := write_file hash_path (encode_utf8 (new_hash +:+ String newline "")) w1 in
    ((true, new_hash),
     emit (HashWritten hash_path) (emit (OutputWritten json_path (len data)) w2)).

(** [bytes.decode("utf-8")] back to code points below 256; [None] for
    bytes that are not UTF-8 or that encode a code point outside the model. *)
Fixpoint decode_utf8 (b : string) : option string :=
  match b with
  | EmptyString => Some EmptyString
  | String c rest =>
      let n := nat_of_ascii c in
      if (n <? 128)%nat then option_map (String c) (decode_utf8 rest)
      else
        match rest with
        | String d rest' =>
            let m := nat_of_ascii d in
            if (((n =? 194) || (n =? 195)) && (128 <=? m) && (m <? 192))%nat
            then option_map (String (ascii_of_nat ((n - 192) * 64 + (m - 128))))
                   (decode_utf8 rest')
            else None
        | EmptyString => None
        end
  end.

(** [load_existing_hash]: the stored digest, stripped, or the empty string
    when there is no file; [None] when the file does not decode. Reading
    in text mode turns CR and CR LF into LF; the model leaves them, which
    differs only for a CR inside the stored text. *)
Definition load_existing_hash (path : string) (w : world) : option string :=
  match get path (files w) with
  | None => Some ""
  | Some content => option_map strip (decode_utf8 content)
  end.

(** ** Identical logical content *)

(** Two values have the same content when they agree leaf by leaf, lists
    element by element and dicts key by key, whatever the order in which
    the keys were inserted. *)
Fixpoint same_content (a b : json) {struct a} : bool :=
  match a, b with
  | JNull, JNull => true
  | JBool x, JBool y => Bool.eqb x y
  | JInt x, JInt y => Z.eqb x y
  | JFloat x, JFloat y => float_same x y
  | JStr x, JStr y => String.eqb x y
  | JList la, JList lb =>
      (fix go (la lb : list json) : bool :=
         match la, lb with
         | [], [] => true
         | x :: la', y :: lb' => same_content x y && go la' lb'
         | _, _ => false
         end) la lb
  | JObj fa, JObj fb =>
      Nat.eqb (length fa) (length fb)
      && (fix go (fa : list (string * json)) : bool :=
            match fa with
            | [] => true
            | (k, v) :: fa' =>
                match get k fb with
                | Some v' => same_content v v'
                | None => false
                end && go fa'
            end) fa
  | _, _ => false
  end.

(** The keys of every dict in the value are pairwise distinct. *)
Fixpoint json_wf (v : json) : Prop :=
  match v with
  | JList items =>
      (fix go (l : list json) : Prop :=
         match l with
         | [] => True
         | x :: l' => json_wf x /\ go l'
         end) items
  | JObj fields =>
      dict_wf fields
      /\ (fix go (l : list (string * json)) : Prop :=
            match l with
            | [] => True
            | (_, x) :: l' => json_wf x /\ go l'
            end) fields
  | _ => True
  end.

(** No character of the string is whitespace. *)
Fixpoint no_space (s : string) : bool :=
  match s with
  | EmptyString => true
  | String c s' => negb (is_space c) && no_space s'
  end.

(** A catalog and an alias mapping: one alias of a model that exists, one
    of a model that does not. *)
Definition alias_catalog : dict loc := [("gpt-4", 0)].
Definition alias_world : world :=
  {| heap := [JObj [("cost", JInt 2)]]; files := []; log := [] |}.
Definition alias_mapping : dict alias_cfg :=
  [("gpt-4-latest", {| source := Some "gpt-4" |});
   ("ghost", {| source := Some "gone" |})].

(** Two catalogs with the same content, built in a different order. *)
Definition writer_world : world :=
  {| heap := [JObj [("cost", JInt 2); ("mode", JStr "chat")];
              JObj [("mode", JStr "chat"); ("cost", JInt 2)];
              JObj [("cost", JInt 9)]];
     files := []; log := [] |}.
Definition writer_catalog : dict loc := [("gpt-4", 0); ("claude-x", 2)].
Definition writer_catalog' : dict loc := [("claude-x", 2); ("gpt-4", 1)].
Definition writer_digest : string :=
  "95029723cd76b819453c8f15325dab1563d9dd42e1e4b6c9e2772c48ff9298f3".

(** ** How the merge classifies an upstream entry *)

(** The key is not in the catalog yet. *)
Definition is_new {V} (existing : dict V) (kv : string * V) : bool :=
  negb (mem (fst kv) existing).

(** The key is there with a value that differs from the upstream one. *)
Definition is_changed {V} (ne : V -> V -> bool) (existing : dict V)
    (kv : string * V) : bool :=
  match get (fst kv) existing with
  | Some old => ne old (snd kv)
  | None => false
  end.

(** The key is there with a value that does not differ. *)
Definition is_same {V} (ne : V -> V -> bool) (existing : dict V)
    (kv : string * V) : bool :=
  match get (fst kv) existing with
  | Some old => negb (ne old (snd kv))
  | None => false
  end.

(** ** The shape of a digest *)

(** One of [0123456789abcdef]. *)
Definition is_lower_hex (c : ascii) : bool :=
  let n := nat_of_ascii c in
  ((48 <=? n) && (n <=? 57) || (97 <=? n) && (n <=? 102))%nat.

Fixpoint all_chars (p : ascii -> bool) (s : string) : bool :=
  match s with
  | EmptyString => true
  | String c s' => p c && all_chars p s'
  end.

(** ** Custom models ([apply_custom_models]) *)

(** [d.update(other)]: the items of [other] are set in [d] one by one. *)
Definition dict_update {V} (d other : dict V) : dict V :=
  fold_left (fun acc kv => set (fst kv) (snd kv) acc) other d.

(** [isinstance(v, dict)] *)
Definition is_dict (v : json) : bool :=
  match v with JObj _ => true | _ => false end.

(** The two [log.info] lines of the loop. *)
Inductive custom_event : Type :=
| CustomMerged (key : string)
| CustomInjected (key : string).

(** One custom model. The values of [custom] are objects of the loaded
    configuration: an injected entry refers to that very object, a merge
    updates the record of the catalog in place. *)
Definition apply_custom_models_step
    (acc : dict loc * world * list custom_event) (c : string * loc)
    : dict loc * world * list custom_event :=
  let '(data, w, evs) := acc in
  let '(key, value) := c in
  match get key data with
  | Some l =>
      match deref (heap w) l, deref (heap w) value with
      | JObj record, JObj fields =>
          (data,
           set_heap (<[l := JObj (dict_update record fields)]> (heap w)) w,
           evs ++ [CustomMerged key])
      | _, _ => (set key value data, w, evs ++ [CustomInjected key])
      end
  | None => (set key value data, w, evs ++ [CustomInjected key])
  end.

Definition apply_custom_models (data custom : dict loc) (w : world)
    : dict loc * world * list custom_event :=
  fold_left apply_custom_models_step custom (data, w, []).

(** The value [apply_custom_models] leaves at a key of [custom], as a
    function of the value the catalog had there and the custom value. *)
Definition custom_value (old : option json) (value : json) : json :=
  match old, value with
  | Some (JObj record), JObj fields => JObj (dict_update record fields)
  | _, _ => value
  end.

(** ** Loading the configuration ([load_config]) *)

Definition REQUIRED_CONFIG_KEYS : list string :=
  ["upstream_url"; "output_file"; "hash_file"; "sync_mode"; "prefix_filters"].

(** How a call ends: with a value, by [sys.exit(code)], or by an exception. *)
Inductive outcome (A : Type) : Type :=
| Returns (a : A)
| Exits (code : Z)
| Raises (e : exn)
| RaisesKeyError (key : string).
Arguments Returns {A} a.
Arguments Exits {A} code.
Arguments Raises {A} e.
Arguments RaisesKeyError {A} key.

(** The [log.error] lines of [load_config]. *)
Inductive config_error : Type :=
| ConfigNotFound (path : string)
| ConfigMissingKeys (missing : list string)
| InvalidSyncMode (mode : json).

(** [k in cfg] for a string [k]: key membership for a dict, element
    membership for a list, substring test for a string, and a [TypeError]
    for the values that are not containers. *)
Definition py_in (k : string) (cfg : json) : result bool :=
  match cfg with
  | JObj fields => Ok (mem k fields)
  | JList items => Ok (existsb (fun x => py_eq x (JStr k)) items)
  | JStr s => Ok (contains s k)
  | _ => Raise TypeError
  end.

(** [[k for k in keys if k not in cfg]] *)
Fixpoint missing_keys (required : list string) (cfg : json) : result (list string) :=
  match required with
  | [] => Ok []
  | k :: rest =>
      present <- py_in k cfg ;;
      missing <- missing_keys rest cfg ;;
      Ok (if present then missing else k :: missing)
  end.

(** [v in ("additive", "full")] *)
Definition is_sync_mode (v : json) : bool :=
  py_eq v (JStr "additive") || py_eq v (JStr "full").

Section Loading.

(** [json.load] on the bytes of a file: the value, or the exception of a
    text that does not decode or parse. *)
Variable json_load : string -> result json.

Definition load_config (path : string) (fs : dict string)
    : outcome json * list config_error :=
  match get path fs with
  | None => (Exits 1, [ConfigNotFound path])
  | Some content =>
      match json_load content with
      | Raise e => (Raises e, [])
      | Ok cfg =>
          match missing_keys REQUIRED_CONFIG_KEYS cfg with
          | Raise e => (Raises e, [])
          | Ok (k :: missing) => (Exits 1, [ConfigMissingKeys (k :: missing)])
          | Ok [] =>
              match cfg with
              | JObj fields =>
                  match get "sync_mode" fields with
                  | Some mode =>
                      if is_sync_mode mode then (Returns cfg, [])
                      else (Exits 1, [InvalidSyncMode mode])
                  | None => (RaisesKeyError "sync_mode", [])
                  end
              | _ => (Raises TypeError, [])   (* cfg["sync_mode"] on a list or str *)
              end
          end
      end
  end.

End Loading.

(** A configuration that passes the checks, said directly. *)
Definition valid_config (cfg : json) : bool :=
  match cfg with
  | JObj fields =>
      forallb (fun k => mem k fields) REQUIRED_CONFIG_KEYS
      && match get "sync_mode" fields with
         | Some (JStr mode) => String.eqb mode "additive" || String.eqb mode "full"
         | _ => false
         end
  | _ => false
  end.

(** ** The bytes of the data file *)

(** A line feed or a printable ASCII character (space to tilde). *)
Definition is_json_text (c : ascii) : bool :=
  let n := nat_of_ascii c in
  ((n =? 10) || (32 <=? n) && (n <=? 126))%nat.

(** ** The run ([main], from the filter to the report)

    [main] loads the configuration, the existing catalog and the stored
    hash, fetches the upstream catalog, and then runs the steps below on
    them. The fields are the entries of [config] those steps read. *)

Record sync_config := {
  cfg_filter : filter_config;                     (* prefix_filters, exclude_patterns *)
  cfg_sync_mode : string;                         (* config["sync_mode"] *)
  cfg_update_existing : option bool;              (* config.get("update_existing", False) *)
  cfg_aliases : dict alias_cfg;                   (* config.get("aliases", {}) *)
  cfg_cache_1hr_auto_fill : option auto_fill_cfg; (* config.get("cache_1hr_auto_fill") *)
  cfg_custom_models : dict loc                    (* config.get("custom_models", {}) *)
}.

(** What the steps 4 to 8 hand to the writer. *)
Record built := {
  built_catalog : dict loc;                (* merged *)
  built_stats : stats;                     (* stats *)
  built_filled : nat;                      (* cache_1hr_count *)
  built_custom_log : list custom_event
}.

(** Steps 4 to 8: filter, merge, aliases, auto-fill, custom models. An
    exception of the filler ends the run there. *)
Definition build_catalog (config : sync_config) (existing upstream : dict loc)
    (w : world) : result built * world :=
  (* 4. Filter *)
  let filtered := filter_upstream upstream (cfg_filter config) in
  (* 5. Merge *)
  let '(merged, stats) :=
    merge_models (py_ne_at (heap w)) existing filtered (cfg_sync_mode config)
      (default false (cfg_update_existing config)) in
  (* 6. Aliases *)
  let '(merged, w) :=
    match cfg_aliases config with
    | [] => (merged, w)
    | aliases => apply_aliases merged aliases w
    end in
  (* 7. Auto-fill cache 1hr pricing *)
  match fill_cache_1hr_pricing merged (cfg_cache_1hr_auto_fill config) w with
  | (Raise e, w) => (Raise e, w)
  | (Ok cache_1hr_count, w) =>
      (* 8. Custom models *)
      let '(merged, w, custom_log) :=
        match cfg_custom_models config with
        | [] => (merged, w, [])
        | custom => apply_custom_models merged custom w
        end in
      (Ok {| built_catalog := merged; built_stats := stats;
             built_filled := cache_1hr_count; built_custom_log := custom_log |}, w)
  end.

(** What the sync report and the two printed lines say. *)
Record report := {
  rep_total : nat;          (* Total models in output *)
  rep_stats : stats;        (* Added, Updated, Unchanged *)
  rep_aliases : nat;        (* Aliases *)
  rep_filled : nat;         (* Cache 1hr auto-filled *)
  rep_custom : nat;         (* Custom *)
  rep_changed : bool;       (* CHANGED= *)
  rep_hash : string         (* HASH= *)
}.

(** Steps 4 to 10. *)
Definition main_steps (config : sync_config) (existing upstream : dict loc)
    (output_path hash_path old_hash : string) (w : world) : result report * world :=
  match build_catalog config existing upstream w with
  | (Raise e, w) => (Raise e, w)
  | (Ok b, w) =>
      (* 9. Write output *)
      let '((changed, new_hash), w) :=
        write_output (built_catalog b) output_path hash_path old_hash w in
      (* 10. Report *)
      (Ok {| rep_total := len (built_catalog b);
             rep_stats := built_stats b;
             rep_aliases := len (cfg_aliases config);
             rep_filled := built_filled b;
             rep_custom := len (cfg_custom_models config);
             rep_changed := changed;
             rep_hash := new_hash |}, w)
  end.

(** ** Examples for the further properties *)

(** A record whose source field holds [true]. *)
Definition bad_cost_world : world :=
  {| heap := [JObj [(source_field, JBool true)]]; files := []; log := [] |}.

(** A catalog with one model, and two custom models: one for that model,
    one new. *)
Definition custom_world : world :=
  {| heap := [JObj [("cost", JInt 2); ("mode", JStr "chat")];
              JObj [("cost", JInt 3)];
              JObj [("cost", JInt 7)]];
     files := []; log := [] |}.
Definition custom_catalog : dict loc := [("gpt-4", 0)].
Definition custom_models : dict loc := [("gpt-4", 1); ("my-model", 2)].

(** A configuration file that passes the checks. *)
Definition config_json : json :=
  JObj [("upstream_url", JStr "https://example.org/prices.json");
        ("output_file", JStr "prices.json");
        ("hash_file", JStr "prices.sha256");
        ("sync_mode", JStr "additive");
        ("prefix_filters", JList [JStr "gpt-"])].

(** An additive run: one existing model, one upstream model, one alias,
    one custom model. *)
Definition run_world : world :=
  {| heap := [JObj [("cost", JInt 1)];
              JObj [("cost", JInt 2)];
              JObj [("cost", JInt 7)]];
     files := []; log := [] |}.
Definition run_existing : dict loc := [("old-model", 0)].
Definition run_upstream : dict loc := [("gpt-4", 1)].
Definition run_config : sync_config :=
  {| cfg_filter := example_config;
     cfg_sync_mode := "additive";
     cfg_update_existing := None;
     cfg_aliases := [("gpt-4-latest", {| source := Some "gpt-4" |})];
     cfg_cache_1hr_auto_fill := example_rule;
     cfg_custom_models := [("my-model", 2)] |}.

(** A hash file saved with a leading space and a CR LF line end. *)
Definition carriage_return : ascii := ascii_of_nat 13.
Definition padded_hash_world : world :=
  {| heap := [];
     files := [("prices.sha256",
                encode_utf8 (" " +:+ writer_digest
                             +:+ String carriage_return (String newline "")))];
     log := [] |}.

(** ** Values without NaN *)

(** No float inside the value is a NaN. *)
Fixpoint nan_free (v : json) : bool :=
  match v with
  | JFloat S754_nan => false
  | JList items => forallb nan_free items
  | JObj fields => forallb (fun kv => nan_free (snd kv)) fields
  | _ => true
  end.

(** The same record with its fields in another order. *)
Definition reorder_existing : dict json :=
  [("gpt-4", JObj [("cost", JInt 2); ("mode", JStr "chat")])].
Definition reorder_upstream : dict json :=
  [("gpt-4", JObj [("mode", JStr "chat"); ("cost", JInt 2)])].
(** * Properties *)

(** ** Strings *)

(** Specification-level reading of the two string tests. *)
Definition is_prefix (p s : string) : Prop := exists t, s = p +:+ t.
Definition is_substring (pat s : string) : Prop :=
  exists a b, s = a +:+ pat +:+ b.

Lemma startswith_spec s p : startswith s p = true <-> is_prefix p s.
Proof.
  unfold is_prefix. revert s. induction p as [|c p IH]; intros s; simpl.
  - split; [intros _; exists s; reflexivity | reflexivity].
  - destruct s as [|d s]; simpl.
    + split; [discriminate | intros [t Ht]; discriminate].
    + destruct (Ascii.eqb_spec c d) as [->|Hne].
      * rewrite IH. split; intros [t Ht]; exists t.
        -- simpl. by rewrite Ht.
        -- simpl in Ht. by injection Ht.
      * split; [discriminate | intros [t Ht]; simpl in Ht; injection Ht; congruence].
Qed.

Lemma contains_spec s pat : contains s pat = true <-> is_substring pat s.
Proof.
  unfold is_substring. induction s as [|d s IH]; simpl.
  - rewrite orb_false_r, startswith_spec. split.
    + intros [t Ht]. by exists "", t.
    + intros (a & b & Hab). destruct a; simpl in Hab; [by exists b | discriminate].
  - rewrite orb_true_iff, IH, startswith_spec. split.
    + intros [[t Ht]|(a & b & Hab)].
      * by exists "", t.
      * exists (String d a), b. simpl. by rewrite Hab.
    + intros (a & b & Hab). destruct a as [|c a]; simpl in Hab.
      * left. by exists b.
      * right. exists a, b. by injection Hab.
Qed.

(** ** Dicts *)

Section DictFacts.
Context {V : Type}.
Implicit Types (d : dict V) (k : string) (v : V).

Lemma get_None_keys k d : get k d = None <-> ~ In k (keys d).
Proof.
  induction d as [|[k' v'] d IH]; simpl; [tauto|].
  destruct (String.eqb_spec k k') as [->|Hne].
  - split; [discriminate | intros H; exfalso; apply H; by left].
  - rewrite IH. split; [intros H [?|?]; [congruence | tauto] | tauto].
Qed.

Lemma get_Some_In k v d : get k d = Some v -> In (k, v) d.
Proof.
  induction d as [|[k' v'] d IH]; simpl; [discriminate|].
  destruct (String.eqb_spec k k') as [->|Hne]; [intros [= ->]; by left | auto].
Qed.

Lemma In_get_Some k v d : dict_wf d -> In (k, v) d -> get k d = Some v.
Proof.
  unfold dict_wf. induction d as [|[k' v'] d IH]; simpl; [tauto|].
  intros Hnd [Heq|Hin]; inversion Hnd as [|? ? Hnotin Hnd']; subst.
  - injection Heq as -> ->. by rewrite String.eqb_refl.
  - destruct (String.eqb_spec k k') as [->|Hne]; [|auto].
    exfalso. apply Hnotin. apply list_elem_of_In.
    change (In k' (keys d)). unfold keys. apply in_map_iff. by exists (k', v).
Qed.

Lemma mem_true_iff k d : mem k d = true <-> In k (keys d).
Proof.
  unfold mem. destruct (get k d) eqn:E.
  - split; [intros _|done]. apply get_Some_In in E.
    unfold keys. apply in_map_iff. by exists (k, v).
  - apply get_None_keys in E. split; [discriminate | tauto].
Qed.

Lemma set_absent k v d : get k d = None -> set k v d = d ++ [(k, v)].
Proof.
  induction d as [|[k' v'] d IH]; simpl; [done|].
  destruct (String.eqb_spec k k'); [discriminate|]. intros H. by rewrite IH.
Qed.

Lemma get_set_eq k v d : get k (set k v d) = Some v.
Proof.
  induction d as [|[k' v'] d IH]; simpl.
  - by rewrite String.eqb_refl.
  - destruct (String.eqb_spec k k') as [->|Hne]; simpl.
    + by rewrite String.eqb_refl.
    + destruct (String.eqb_spec k k'); [done | apply IH].
Qed.

Lemma get_set_ne k k' v d : k <> k' -> get k (set k' v d) = get k d.
Proof.
  intros Hne. induction d as [|[k0 v0] d IH]; simpl.
  - destruct (String.eqb_spec k k'); [done | done].
  - destruct (String.eqb_spec k' k0) as [->|Hne']; simpl.
    + destruct (String.eqb_spec k k0); [done | done].
    + destruct (String.eqb_spec k k0); [done | apply IH].
Qed.

Lemma keys_set_present k v d : mem k d = true -> keys (set k v d) = keys d.
Proof.
  unfold mem. induction d as [|[k' v'] d IH]; simpl; [discriminate|].
  destruct (String.eqb_spec k k') as [->|Hne]; simpl; [done|].
  intros H. by rewrite IH.
Qed.

Lemma get_app k d1 d2 :
  get k (d1 ++ d2) = match get k d1 with Some v => Some v | None => get k d2 end.
Proof.
  induction d1 as [|[k' v'] d1 IH]; simpl; [done|].
  by destruct (String.eqb k k').
Qed.

Lemma get_filter (keep : string -> bool) k d :
  dict_wf d ->
  get k (List.filter (fun kv => keep (fst kv)) d)
  = if keep k then get k d else None.
Proof.
  unfold dict_wf. induction d as [|[k' v'] d IH]; simpl; intros Hnd.
  - by destruct (keep k).
  - inversion Hnd as [|? ? Hnotin Hnd']; subst. specialize (IH Hnd').
    destruct (String.eqb_spec k k') as [->|Hne].
    + destruct (keep k') eqn:Ek; simpl.
      * by rewrite String.eqb_refl.
      * exact IH.
    + destruct (keep k') eqn:Ek; simpl; [|done].
      destruct (String.eqb_spec k k'); [done|done].
Qed.

Lemma length_filter_split (p : string * V -> bool) (d : dict V) :
  length (List.filter p d) + length (List.filter (fun kv => negb (p kv)) d)
  = length d.
Proof.
  induction d as [|kv d IH]; simpl; [done|].
  destruct (p kv); simpl; lia.
Qed.

End DictFacts.

(** ** Filter *)

Section FilterFacts.
Context {V : Type}.
Implicit Types (data filtered : dict V).

Lemma filter_step_keeps prefixes excludes filtered key (value : V) :
  filter_step prefixes excludes filtered (key, value)
  = if filter_keeps prefixes excludes key then set key value filtered else filtered.
Proof.
  unfold filter_step, filter_keeps.
  destruct (existsb (contains key) excludes); simpl; [done|].
  destruct (Nat.eqb (length prefixes) 0); simpl; [done|].
  by destruct (startswith_any key prefixes).
Qed.

(** The loop appends the kept entries, in order, to what it started from. *)
Lemma filter_fold prefixes excludes data filtered :
  dict_wf data ->
  (forall k, In k (keys data) -> get k filtered = None) ->
  fold_left (filter_step prefixes excludes) data filtered
  = filtered ++ List.filter (fun kv => filter_keeps prefixes excludes (fst kv)) data.
Proof.
  unfold dict_wf. revert filtered.
  induction data as [|[k v] data IH]; intros filtered Hnd Hfresh;
    cbn [fold_left List.filter fst].
  - by rewrite app_nil_r.
  - inversion Hnd as [|? ? Hnotin Hnd']; subst.
    rewrite filter_step_keeps.
    destruct (filter_keeps prefixes excludes k) eqn:Ek.
    + rewrite set_absent by (apply Hfresh; by left).
      rewrite IH; [by rewrite <- app_assoc | done |].
      intros k' Hk'. rewrite get_app, Hfresh by (by right). simpl.
      destruct (String.eqb_spec k' k) as [->|]; [|done].
      exfalso. apply Hnotin. by apply list_elem_of_In.
    + apply IH; [done|]. intros k' Hk'. apply Hfresh. by right.
Qed.

Lemma filter_upstream_filter data config :
  dict_wf data ->
  filter_upstream data config
  = List.filter (fun kv => filter_keeps (prefix_filters config)
                             (default [] (exclude_patterns config)) (fst kv)) data.
Proof.
  intros Hwf. unfold filter_upstream. by rewrite filter_fold.
Qed.

End FilterFacts.

Lemma filter_keeps_spec prefixes excludes key :
  filter_keeps prefixes excludes key = true <->
  (~ exists pat, In pat excludes /\ is_substring pat key)
  /\ (prefixes = [] \/ exists p, In p prefixes /\ is_prefix p key).
Proof.
  unfold filter_keeps, startswith_any.
  rewrite andb_true_iff, negb_true_iff, orb_true_iff, <- not_true_iff_false.
  rewrite !existsb_exists, Nat.eqb_eq.
  split; intros [Hex Hpre]; split.
  - intros (pat & Hin & Hsub). apply Hex. exists pat. by rewrite contains_spec.
  - destruct Hpre as [Hlen|(p & Hin & Hp)].
    + left. by destruct prefixes.
    + right. exists p. by rewrite <- startswith_spec.
  - intros (pat & Hin & Hsub). apply Hex. exists pat. by rewrite <- contains_spec.
  - destruct Hpre as [->|(p & Hin & Hp)]; [by left|].
    right. exists p. by rewrite startswith_spec.
Qed.

(** C5: a key is in the result of [filter_upstream] exactly when no exclude
    pattern is a substring of it and the prefix list is empty or one of the
    prefixes starts it; a retained key carries its upstream value. The
    exclusion test does not depend on the prefix list. *)
Theorem filter_upstream_policy {V} (data : dict V) (config : filter_config)
    (key : string) (value : V) :
  dict_wf data ->
  get key (filter_upstream data config) = Some value <->
  get key data = Some value
  /\ (~ exists pat, In pat (default [] (exclude_patterns config))
                    /\ is_substring pat key)
  /\ (prefix_filters config = []
      \/ exists p, In p (prefix_filters config) /\ is_prefix p key).
Proof.
  intros Hwf. rewrite filter_upstream_filter, get_filter by done.
  rewrite <- filter_keeps_spec.
  destruct (filter_keeps _ _ key); split; try tauto; try (intros []; done); done.
Qed.

(** ** Merge *)

Section MergeFacts.
Context {V : Type}.
Variable ne : V -> V -> bool.
Implicit Types (existing filtered merged : dict V) (st : stats).

Lemma merge_step_counted upd merged st kv :
  counted (snd (merge_step ne upd (merged, st) kv)) = S (counted st)
  /\ total_upstream (snd (merge_step ne upd (merged, st) kv)) = total_upstream st.
Proof.
  destruct kv as [key value]. unfold merge_step, counted.
  destruct (get key merged); [destruct upd; [destruct (ne _ _)|]|]; simpl; lia.
Qed.

Lemma merge_fold_counted upd filtered merged st :
  let r := fold_left (merge_step ne upd) filtered (merged, st) in
  counted (snd r) = counted st + length filtered
  /\ total_upstream (snd r) = total_upstream st.
Proof.
  revert merged st. induction filtered as [|kv filtered IH]; intros merged st;
    cbn [fold_left length].
  - cbn. split; [lia | done].
  - destruct (merge_step ne upd (merged, st) kv) as [merged' st'] eqn:E.
    pose proof (merge_step_counted upd merged st kv) as [Hc Ht].
    rewrite E in Hc, Ht. simpl in Hc, Ht.
    destruct (IH merged' st') as [IHc IHt]. cbn zeta in *. split; [lia | congruence].
Qed.

(** Without [update_existing] the loop only appends the keys not yet there. *)
Lemma merge_fold_keep filtered merged st :
  dict_wf filtered ->
  let fresh := List.filter (fun kv => negb (mem (fst kv) merged)) filtered in
  let r := fold_left (merge_step ne false) filtered (merged, st) in
  fst r = merged ++ fresh
  /\ added (snd r) = added st + length fresh
  /\ updated (snd r) = updated st
  /\ unchanged (snd r) = unchanged st + (length filtered - length fresh).
Proof.
  unfold dict_wf. revert merged st.
  induction filtered as [|[k v] filtered IH]; intros merged st Hnd;
    cbn [fold_left List.filter fst length].
  - cbn zeta. simpl. rewrite app_nil_r. repeat split; lia.
  - inversion Hnd as [|? ? Hnotin Hnd']; subst.
    assert (Hsame : forall (new : dict V), keys new = keys merged ++ [k] \/ new = merged ->
      List.filter (fun kv => negb (mem (fst kv) new)) filtered
      = List.filter (fun kv => negb (mem (fst kv) merged)) filtered).
    { intros new Hnew. apply filter_ext_in. intros [k' v'] Hin. simpl. f_equal.
      destruct Hnew as [Hkeys| ->]; [|done].
      apply eq_true_iff_eq. rewrite !mem_true_iff, Hkeys, in_app_iff. simpl.
      split; [|tauto]. intros [?|[<-|[]]]; [done|].
      exfalso. apply Hnotin. apply list_elem_of_In. unfold keys.
      apply in_map_iff. by exists (k, v'). }
    assert (Hstep : merge_step ne false (merged, st) (k, v)
      = match get k merged with
        | Some _ => (merged, incr_unchanged st)
        | None => (set k v merged, incr_added st)
        end) by reflexivity.
    rewrite Hstep. clear Hstep.
    assert (Hmem : mem k merged = match get k merged with Some _ => true | None => false end)
      by reflexivity.
    rewrite Hmem. clear Hmem.
    destruct (get k merged) as [old|] eqn:Eg; cbn [negb].
    + specialize (IH merged (incr_unchanged st) Hnd'). cbn zeta in IH.
      destruct IH as (H1 & H2 & H3 & H4). rewrite H1, H2, H3, H4. simpl.
      pose proof (filter_length_le (fun kv => negb (mem (fst kv) merged)) filtered).
      repeat split; lia.
    + rewrite set_absent by done.
      specialize (IH (merged ++ [(k, v)]) (incr_added st) Hnd'). cbn zeta in IH.
      rewrite Hsame in IH by (left; unfold keys; by rewrite map_app).
      destruct IH as (H1 & H2 & H3 & H4). rewrite H1, H2, H3, H4. simpl.
      rewrite <- app_assoc. simpl. repeat split; lia.
Qed.

End MergeFacts.

(** C3: additive merge without [update_existing] returns the existing
    catalog followed by the filtered entries whose key it lacks: existing
    keys keep their value, new keys get the filtered value and are counted
    as added, and filtered keys already present are counted as unchanged. *)
Theorem merge_additive_keeps_existing {V} (ne : V -> V -> bool)
    (existing filtered : dict V) :
  dict_wf filtered ->
  let r := merge_models ne existing filtered "additive" false in
  let fresh := List.filter (fun kv => negb (mem (fst kv) existing)) filtered in
  let shared := List.filter (fun kv => mem (fst kv) existing) filtered in
  fst r = existing ++ fresh
  /\ (forall k v, get k existing = Some v -> get k (fst r) = Some v)
  /\ (forall k, get k existing = None -> get k (fst r) = get k filtered)
  /\ added (snd r) = length fresh
  /\ updated (snd r) = 0
  /\ unchanged (snd r) = length shared
  /\ total_upstream (snd r) = len filtered.
Proof.
  intros Hwf r fresh shared. subst r. unfold merge_models.
  change (String.eqb "additive" "full") with false. cbn iota.
  pose proof (merge_fold_keep ne filtered existing
    {| added := 0; updated := 0; unchanged := 0; total_upstream := len filtered |}
    Hwf) as H.
  pose proof (merge_fold_counted ne false filtered existing
    {| added := 0; updated := 0; unchanged := 0; total_upstream := len filtered |})
    as Hc.
  cbn zeta in H, Hc. destruct H as (H1 & H2 & H3 & H4). destruct Hc as [_ Ht].
  fold fresh in H1, H2, H4. rewrite H1.
  split; [done|]. split; [|split; [|split; [|split; [|split]]]].
  - intros k v Hk. by rewrite get_app, Hk.
  - intros k Hk. rewrite get_app, Hk. subst fresh.
    rewrite (get_filter (fun k => negb (mem k existing))) by done.
    unfold mem. by rewrite Hk.
  - by rewrite H2.
  - by rewrite H3.
  - rewrite H4. simpl.
    pose proof (length_filter_split (fun kv => mem (fst kv) existing) filtered) as Hs.
    cbv beta in Hs. subst shared fresh. lia.
  - by rewrite Ht.
Qed.

(** C4: in full mode the merged catalog is the filtered catalog itself,
    whatever the existing catalog holds; every filtered entry is counted as
    added and nothing as updated or unchanged. *)
Theorem merge_full_replaces {V} (ne : V -> V -> bool)
    (existing filtered : dict V) (update_existing : bool) :
  merge_models ne existing filtered "full" update_existing
  = (filtered, {| added := len filtered; updated := 0; unchanged := 0;
                  total_upstream := len filtered |})
  /\ forall existing' update_existing',
       merge_models ne existing' filtered "full" update_existing'
       = merge_models ne existing filtered "full" update_existing.
Proof. split; reflexivity. Qed.

(** C9: in additive mode the three counters add up to [total_upstream],
    which is the number of filtered entries; each loop iteration raises
    exactly one of the counters by one. *)
Theorem merge_additive_stats_total {V} (ne : V -> V -> bool)
    (existing filtered : dict V) (update_existing : bool) :
  let st := snd (merge_models ne existing filtered "additive" update_existing) in
  (added st + updated st + unchanged st = total_upstream st
   /\ total_upstream st = len filtered)
  /\ forall merged st0 kv,
       let st1 := snd (merge_step ne update_existing (merged, st0) kv) in
       (added st1, updated st1, unchanged st1)
         = (S (added st0), updated st0, unchanged st0)
       \/ (added st1, updated st1, unchanged st1)
         = (added st0, S (updated st0), unchanged st0)
       \/ (added st1, updated st1, unchanged st1)
         = (added st0, updated st0, S (unchanged st0)).
Proof.
  cbn zeta. split.
  - unfold merge_models. change (String.eqb "additive" "full") with false. cbn iota.
    pose proof (merge_fold_counted ne update_existing filtered existing
      {| added := 0; updated := 0; unchanged := 0; total_upstream := len filtered |})
      as [Hc Ht].
    unfold counted, len in *. cbn [added updated unchanged total_upstream] in Hc, Ht.
    split; lia.
  - intros merged st0 [key value]. unfold merge_step.
    destruct (get key merged); [destruct update_existing; [destruct (ne _ _)|]|];
      simpl; auto.
Qed.

(** ** Catalogs in the store and catalogs of values

    Filtering and merging catalogs of references, read through the heap,
    is filtering and merging the catalogs of values. *)

Lemma get_denote h k (data : dict loc) :
  get k (denote h data) = option_map (deref h) (get k data).
Proof.
  induction data as [|[k' l] data IH]; simpl; [done|].
  by destruct (String.eqb k k').
Qed.

Lemma denote_set h k l (data : dict loc) :
  denote h (set k l data) = set k (deref h l) (denote h data).
Proof.
  induction data as [|[k' l'] data IH]; simpl; [done|].
  destruct (String.eqb k k'); simpl; [done | by rewrite IH].
Qed.

Lemma filter_fold_denote h prefixes excludes (data filtered : dict loc) :
  denote h (fold_left (filter_step prefixes excludes) data filtered)
  = fold_left (filter_step prefixes excludes) (denote h data) (denote h filtered).
Proof.
  revert filtered. induction data as [|[k l] data IH]; intros filtered; [done|].
  change (denote h ((k, l) :: data)) with ((k, deref h l) :: denote h data).
  cbn [fold_left]. rewrite IH. f_equal.
  rewrite !filter_step_keeps.
  destruct (filter_keeps _ _ k); [by rewrite denote_set | done].
Qed.

Lemma filter_upstream_denote h (data : dict loc) config :
  denote h (filter_upstream data config) = filter_upstream (denote h data) config.
Proof. unfold filter_upstream. by rewrite filter_fold_denote. Qed.

Lemma merge_step_denote h upd (merged : dict loc) st k l :
  let r := merge_step (py_ne_at h) upd (merged, st) (k, l) in
  merge_step py_ne upd (denote h merged, st) (k, deref h l)
  = (denote h (fst r), snd r).
Proof.
  cbn zeta. unfold merge_step. rewrite get_denote.
  destruct (get k merged) as [old|]; simpl.
  - destruct upd; [|done]. unfold py_ne_at.
    destruct (py_ne (deref h old) (deref h l)); simpl; [by rewrite denote_set | done].
  - by rewrite denote_set.
Qed.

Lemma merge_fold_denote h upd (filtered merged : dict loc) st :
  let r := fold_left (merge_step (py_ne_at h) upd) filtered (merged, st) in
  fold_left (merge_step py_ne upd) (denote h filtered) (denote h merged, st)
  = (denote h (fst r), snd r).
Proof.
  cbn zeta. revert merged st.
  induction filtered as [|[k l] filtered IH]; intros merged st; [done|].
  change (denote h ((k, l) :: filtered)) with ((k, deref h l) :: denote h filtered).
  cbn [fold_left].
  pose proof (merge_step_denote h upd merged st k l) as Hstep. cbn zeta in Hstep.
  rewrite Hstep.
  destruct (merge_step (py_ne_at h) upd (merged, st) (k, l)) as [merged' st'].
  apply IH.
Qed.

Lemma merge_models_denote h (existing filtered : dict loc) sync_mode upd :
  let r := merge_models (py_ne_at h) existing filtered sync_mode upd in
  merge_models py_ne (denote h existing) (denote h filtered) sync_mode upd
  = (denote h (fst r), snd r).
Proof.
  cbn zeta. unfold merge_models.
  assert (Hlen : len (denote h filtered) = len filtered)
    by (unfold len, denote; apply length_map).
  rewrite Hlen. destruct (String.eqb sync_mode "full"); [done|].
  apply merge_fold_denote.
Qed.

(** ** Decimal arithmetic *)

Local Open Scope Z_scope.

(** Within 28 digits and the exponent range the context leaves a product
    as it is. *)
Lemma dec_fix_exact neg c e :
  ndigits c <= ctx_prec -> ctx_Etiny <= e <= ctx_Etop ->
  dec_fix neg c e = Ok (DFin neg c e).
Proof.
  unfold dec_fix, ctx_Etiny, ctx_Etop, ctx_Emax, ctx_Emin, ctx_prec.
  intros Hd He. destruct (N.eqb_spec c 0) as [->|Hc].
  - f_equal. f_equal. lia.
  - destruct (Z.ltb_spec (999999 - 28 + 1) (ndigits c + e - 28)); [lia|].
    destruct (Z.ltb_spec (ndigits c + e - 28) (-999999 - 28 + 1)).
    + destruct (Z.ltb_spec e (-999999 - 28 + 1)); [lia | done].
    + destruct (Z.ltb_spec e (ndigits c + e - 28)); [lia | done].
Qed.

Lemma dec_mul_exact s c e s' c' e' :
  ndigits (c * c') <= ctx_prec -> ctx_Etiny <= e + e' <= ctx_Etop ->
  dec_mul (DFin s c e) (DFin s' c' e') = Ok (DFin (xorb s s') (c * c') (e + e')).
Proof. intros. simpl. by apply dec_fix_exact. Qed.

Lemma scale_cost_exact cost_5m ratio s c e s' c' e' :
  Decimal_of_value cost_5m = Ok (DFin s c e) ->
  Decimal_of_value ratio = Ok (DFin s' c' e') ->
  ndigits (c * c') <= ctx_prec -> ctx_Etiny <= e + e' <= ctx_Etop ->
  scale_cost cost_5m ratio = Ok (float_of_digits (xorb s s') (c * c') (e + e')).
Proof.
  intros Ha Hb Hd He. unfold scale_cost. rewrite Ha, Hb. cbn [bind].
  rewrite dec_mul_exact by done. reflexivity.
Qed.

Local Close Scope Z_scope.

(** ** Auto-fill *)

Lemma fill_loop_cons prefix ratio key l rest count w :
  fill_loop prefix ratio ((key, l) :: rest) count w
  = if startswith key prefix then
      match fillable (deref (heap w) l) with
      | Some (value, cost_5m) =>
          match scale_cost cost_5m ratio with
          | Raise e => (Raise e, w)
          | Ok f =>
              fill_loop prefix ratio rest (S count)
                (emit (AutoFilled key cost_5m ratio f)
                   (set_heap
                      (<[l := JObj (set target_field (JFloat f) value)]> (heap w)) w))
          end
      | None => fill_loop prefix ratio rest count w
      end
    else fill_loop prefix ratio rest count w.
Proof.
  cbn [fill_loop]. destruct (startswith key prefix); cbn [negb]; [|done].
  unfold fillable. destruct (deref (heap w) l); try done.
  destruct (get source_field fields) as [[]|]; try done;
    by destruct (get_is_None target_field fields).
Qed.

Lemma fillable_Some v value cost_5m :
  fillable v = Some (value, cost_5m) ->
  v = JObj value /\ get source_field value = Some cost_5m /\ cost_5m <> JNull
  /\ get_is_None target_field value = true.
Proof.
  unfold fillable. destruct v; try done.
  destruct (get source_field fields) as [c|] eqn:Ec; [|done].
  destruct (get_is_None target_field fields) eqn:Et; destruct c; try done;
    intros [= <- <-]; done.
Qed.

Lemma get_is_None_filled f value :
  get_is_None target_field (set target_field (JFloat f) value) = false.
Proof. unfold get_is_None. by rewrite get_set_eq. Qed.

Lemma fillable_filled f value :
  fillable (JObj (set target_field (JFloat f) value)) = None.
Proof.
  unfold fillable. rewrite get_is_None_filled.
  by destruct (get source_field _) as [[]|].
Qed.

Lemma deref_Some h l v : h !! l = Some v -> deref h l = v.
Proof. unfold deref. by intros ->. Qed.

Lemma deref_obj_lookup h l value : deref h l = JObj value -> h !! l = Some (JObj value).
Proof. unfold deref. destruct (h !! l); simpl; [by intros -> | done]. Qed.

Lemma deref_eq h h' l : h' !! l = h !! l -> deref h' l = deref h l.
Proof. unfold deref. by intros ->. Qed.

(** What one run of the loop does to the store, whether it ends normally
    or by an exception. *)
Record fill_effect (prefix : string) (ratio : json) (items : dict loc)
    (w w' : world) (modified : list loc) : Prop := {
  fe_nodup : NoDup modified;
  fe_key : forall l, In l modified ->
    exists key, In (key, l) items /\ startswith key prefix = true;
  fe_filled : forall l, In l modified ->
    exists value cost_5m f,
      fillable (deref (heap w) l) = Some (value, cost_5m)
      /\ scale_cost cost_5m ratio = Ok f
      /\ heap w' !! l = Some (JObj (set target_field (JFloat f) value));
  fe_frame : forall l, ~ In l modified -> heap w' !! l = heap w !! l;
  fe_length : length (heap w') = length (heap w);
  fe_files : files w' = files w;
  fe_log : exists evs, log w' = log w ++ evs /\ length evs = length modified
}.

Lemma fill_effect_nil prefix ratio items w : fill_effect prefix ratio items w w [].
Proof.
  split; try done; [constructor | exists []; by rewrite app_nil_r].
Qed.

Lemma fill_loop_effect prefix ratio items count w r w' :
  fill_loop prefix ratio items count w = (r, w') ->
  exists modified,
    fill_effect prefix ratio items w w' modified
    /\ forall n, r = Ok n ->
         n = count + length modified
         /\ forall key l, In (key, l) items -> startswith key prefix = true ->
              fillable (deref (heap w') l) = None.
Proof.
  revert count w. induction items as [|[key l] rest IH]; intros count w.
  - cbn [fill_loop]. intros [= <- <-]. exists []. split; [apply fill_effect_nil|].
    intros n [= <-]. split; [simpl; lia | intros ? ? []].
  - rewrite fill_loop_cons.
    assert (Hskip : (startswith key prefix = true -> fillable (deref (heap w) l) = None) ->
      fill_loop prefix ratio rest count w = (r, w') ->
      exists modified,
        fill_effect prefix ratio ((key, l) :: rest) w w' modified
        /\ forall n, r = Ok n ->
             n = count + length modified
             /\ forall key0 l0, In (key0, l0) ((key, l) :: rest) ->
                  startswith key0 prefix = true ->
                  fillable (deref (heap w') l0) = None).
    { intros Hnot Hrun. destruct (IH _ _ Hrun) as (modified & He & Hn).
      exists modified. split.
      - destruct He. split; try done.
        intros l0 Hl0. destruct (fe_key0 l0 Hl0) as (key0 & ? & ?).
        exists key0. split; [by right | done].
      - intros n Hr. destruct (Hn n Hr) as [Hcount Hfinal]. split; [done|].
        intros key0 l0 [[= <- <-]|Hin] Hpre; [|eauto].
        destruct (in_dec Nat.eq_dec l modified) as [Hl|Hl].
        + destruct (fe_filled _ _ _ _ _ _ He l Hl) as (? & ? & ? & Hf & _).
          rewrite Hnot in Hf by done. done.
        + rewrite (deref_eq _ _ _ (fe_frame _ _ _ _ _ _ He l Hl)). auto. }
    destruct (startswith key prefix) eqn:Epre; [|apply Hskip; done].
    destruct (fillable (deref (heap w) l)) as [[value cost_5m]|] eqn:Ef;
      [|apply Hskip; done].
    clear Hskip. destruct (scale_cost cost_5m ratio) as [f|e] eqn:Es.
    + intros Hrun. destruct (IH _ _ Hrun) as (modified & He & Hn).
      destruct (fillable_Some _ _ _ Ef) as (Hobj & Hsrc & Hnn & Htgt).
      pose proof (deref_obj_lookup _ _ _ Hobj) as Hlook.
      pose proof (lookup_lt_Some _ _ _ Hlook) as Hlt.
      cbn [heap emit set_heap] in *.
      assert (Hl1 : <[l:=JObj (set target_field (JFloat f) value)]> (heap w) !! l
                    = Some (JObj (set target_field (JFloat f) value)))
        by (by apply list_lookup_insert_eq).
      assert (Hnotin : ~ In l modified).
      { intros Hl. destruct (fe_filled _ _ _ _ _ _ He l Hl) as (? & ? & ? & Hf & _).
        cbn [heap emit set_heap] in Hf.
        rewrite (deref_Some _ _ _ Hl1), fillable_filled in Hf. done. }
      exists (l :: modified). split.
      * destruct He. cbn [heap files log emit set_heap] in *. split.
        -- constructor; [by rewrite list_elem_of_In | done].
        -- intros l0 [<-|Hl0]; [exists key; split; [by left | done]|].
           destruct (fe_key0 l0 Hl0) as (key0 & ? & ?).
           exists key0. split; [by right | done].
        -- intros l0 [<-|Hl0].
           ++ exists value, cost_5m, f. repeat split; try done.
              by rewrite fe_frame0.
           ++ destruct (fe_filled0 l0 Hl0) as (v0 & c0 & f0 & Hf0 & Hs0 & Hh0).
              exists v0, c0, f0. repeat split; try done.
              rewrite <- Hf0. f_equal. symmetry. apply deref_eq.
              apply list_lookup_insert_ne. intros ->. done.
        -- intros l0 Hl0. rewrite fe_frame0 by (intros ?; apply Hl0; by right).
           apply list_lookup_insert_ne. intros ->. apply Hl0. by left.
        -- by rewrite fe_length0, length_insert.
        -- done.
        -- destruct fe_log0 as (evs & Hlog & Hlen).
           exists (AutoFilled key cost_5m ratio f :: evs). split.
           ++ rewrite Hlog, <- app_assoc. done.
           ++ simpl. by rewrite Hlen.
      * intros n Hr. destruct (Hn n Hr) as [Hcount Hfinal]. split; [simpl; lia|].
        intros key0 l0 [[= <- <-]|Hin] Hpre; [|eauto].
        rewrite (deref_Some _ _ (JObj (set target_field (JFloat f) value))).
        -- apply fillable_filled.
        -- rewrite (fe_frame _ _ _ _ _ _ He) by done. done.
    + intros [= <- <-]. exists []. split; [apply fill_effect_nil | done].
Qed.

Lemma fill_loop_nothing prefix ratio items count w :
  (forall key l, In (key, l) items -> startswith key prefix = true ->
     fillable (deref (heap w) l) = None) ->
  fill_loop prefix ratio items count w = (Ok count, w).
Proof.
  induction items as [|[key l] rest IH]; intros Hnone; [done|].
  rewrite fill_loop_cons.
  assert (Hrest : fill_loop prefix ratio rest count w = (Ok count, w)).
  { apply IH. intros key0 l0 Hin. apply Hnone. by right. }
  destruct (startswith key prefix) eqn:Epre; [|done].
  rewrite (Hnone key l) by (by left || done). done.
Qed.

(** A run leaves no record to fill that was not one before. *)
Lemma fill_effect_not_fillable prefix ratio items w w' modified l :
  fill_effect prefix ratio items w w' modified ->
  fillable (deref (heap w) l) = None -> fillable (deref (heap w') l) = None.
Proof.
  intros He Hnone. destruct (in_dec Nat.eq_dec l modified) as [Hl|Hl].
  - destruct (fe_filled _ _ _ _ _ _ He l Hl) as (? & ? & ? & Hf & _). congruence.
  - by rewrite (deref_eq _ _ _ (fe_frame _ _ _ _ _ _ He l Hl)).
Qed.

(** A loop that ended by an exception ends by the same exception when it
    is run again, at the same record and without a further change: the
    records it had filled are skipped, the one it failed on is as it was. *)
Lemma fill_loop_raises_again prefix ratio items count count' w e w' :
  fill_loop prefix ratio items count w = (Raise e, w') ->
  fill_loop prefix ratio items count' w' = (Raise e, w').
Proof.
  revert count count' w. induction items as [|[key l] rest IH]; intros count count' w;
    [discriminate|].
  rewrite !fill_loop_cons.
  assert (Hskip : forall c w0,
            fillable (deref (heap w0) l) = None ->
            fill_loop prefix ratio rest c w0 = (Raise e, w') ->
            match fillable (deref (heap w') l) with
            | Some (value, cost_5m) =>
                match scale_cost cost_5m ratio with
                | Raise e0 => (Raise e0, w')
                | Ok f =>
                    fill_loop prefix ratio rest (S count')
                      (emit (AutoFilled key cost_5m ratio f)
                         (set_heap
                            (<[l := JObj (set target_field (JFloat f) value)]> (heap w'))
                            w'))
                end
            | None => fill_loop prefix ratio rest count' w'
            end = (Raise e, w')).
  { intros c w0 Hnone Hrun. destruct (fill_loop_effect _ _ _ _ _ _ _ Hrun) as (modified & He & _).
    rewrite (fill_effect_not_fillable _ _ _ _ _ _ l He Hnone). by apply (IH c count' w0). }
  destruct (startswith key prefix); [|apply IH].
  destruct (fillable (deref (heap w) l)) as [[value cost_5m]|] eqn:Ef;
    [|by apply Hskip].
  destruct (scale_cost cost_5m ratio) as [f|e0] eqn:Es.
  - apply Hskip. cbn [heap emit set_heap].
    apply fillable_Some in Ef as (Hobj & _). apply deref_obj_lookup in Hobj.
    pose proof (lookup_lt_Some _ _ _ Hobj).
    rewrite (deref_Some _ _ (JObj (set target_field (JFloat f) value)))
      by (by apply list_lookup_insert_eq).
    apply fillable_filled.
  - intros [= <- <-]. by rewrite Ef, Es.
Qed.

(** The function is the loop under the rule's prefix, or does nothing. *)
Lemma fill_cache_1hr_pricing_cases data config w :
  fill_cache_1hr_pricing data config w = (Ok 0, w)
  \/ fill_cache_1hr_pricing data config w
     = fill_loop (rule_prefix config) (rule_ratio config) data 0 w.
Proof.
  destruct config as [[[p|] [r|]]|]; simpl; eauto.
Qed.

Lemma fill_cache_effect data config w r w' :
  fill_cache_1hr_pricing data config w = (r, w') ->
  exists modified,
    fill_effect (rule_prefix config) (rule_ratio config) data w w' modified
    /\ forall n, r = Ok n ->
         n = length modified
         /\ fill_cache_1hr_pricing data config w' = (Ok 0, w').
Proof.
  intros Hrun.
  destruct (fill_cache_1hr_pricing_cases data config w) as [H0|Hloop].
  - rewrite H0 in Hrun. injection Hrun as <- <-.
    exists []. split; [apply fill_effect_nil|]. intros n [= <-]. done.
  - rewrite Hloop in Hrun.
    destruct (fill_loop_effect _ _ _ _ _ _ _ Hrun) as (modified & He & Hn).
    exists modified. split; [done|]. intros n Hr.
    destruct (Hn n Hr) as [-> Hfinal]. split; [done|].
    destruct config as [[[p|] [rt|]]|]; simpl in *; try done;
      by apply fill_loop_nothing.
Qed.

(** C6, as the specification gives it, fails: the filler does not return
    a count on every catalog and rule. A record to fill whose source field
    holds [true] makes [Decimal(str(.))] raise: the first run raises
    [InvalidOperation] and leaves the store as it was, and so does the
    second run, which therefore does not return 0. *)
Lemma fill_second_run_can_raise :
  fill_cache_1hr_pricing example_catalog example_rule bad_cost_world
  = (Raise InvalidOperation, bad_cost_world)
  /\ ~ (forall (data : dict loc) (config : option auto_fill_cfg) (w w' : world)
          (r : result nat),
          fill_cache_1hr_pricing data config w = (r, w') ->
          fill_cache_1hr_pricing data config w' = (Ok 0, w')).
Proof.
  assert (Hrun : fill_cache_1hr_pricing example_catalog example_rule bad_cost_world
                 = (Raise InvalidOperation, bad_cost_world)) by (vm_compute; reflexivity).
  split; [exact Hrun|]. intros Hall.
  specialize (Hall example_catalog example_rule bad_cost_world bad_cost_world
                (Raise InvalidOperation) Hrun).
  rewrite Hrun in Hall. discriminate Hall.
Qed.

(** C6 (amended): the filler leaves every record alone whose target field
    is already set to a non-null value, whether the run returns or raises.
    A second run right after the first changes nothing and repeats its
    outcome: after a run that returned a count it returns 0, and after a
    run that raised it raises the same exception again. *)
Theorem fill_keeps_explicit_and_is_idempotent (data : dict loc)
    (config : option auto_fill_cfg) (w w' : world) (r : result nat) :
  fill_cache_1hr_pricing data config w = (r, w') ->
  (forall l value v,
     heap w !! l = Some (JObj value) ->
     get target_field value = Some v -> v <> JNull ->
     heap w' !! l = Some (JObj value))
  /\ (forall n, r = Ok n ->
        fill_cache_1hr_pricing data config w' = (Ok 0, w'))
  /\ (forall e, r = Raise e ->
        fill_cache_1hr_pricing data config w' = (Raise e, w')).
Proof.
  intros Hrun. destruct (fill_cache_effect _ _ _ _ _ Hrun) as (modified & He & Hn).
  split; [|split; [intros n Hr; by destruct (Hn n Hr)|]].
  2:{ intros e ->.
      destruct config as [[[p|] [q|]]|]; cbn [fill_cache_1hr_pricing] in *;
        try discriminate; by apply (fill_loop_raises_again _ _ _ 0 0 w). }
  intros l value v Hl Hv Hnn.
  destruct (in_dec Nat.eq_dec l modified) as [Hin|Hin].
  - destruct (fe_filled _ _ _ _ _ _ He l Hin) as (value0 & c & f & Hf & _).
    apply fillable_Some in Hf as (Hobj & _ & _ & Htgt).
    rewrite (deref_Some _ _ _ Hl) in Hobj. injection Hobj as <-.
    unfold get_is_None in Htgt. rewrite Hv in Htgt. by destruct v.
  - by rewrite (fe_frame _ _ _ _ _ _ He l Hin).
Qed.

(** C10: the objects the filler changes are records reached through a key
    that starts with the rule's prefix; such a record only gains the target
    field, all its other fields (the source field among them) stay as they
    were; every other object, the files and the catalog's keys are left
    alone, and the count returned is the number of records changed. When no
    two keys share a record, the record of a key without the prefix is
    unchanged. *)
Theorem fill_frame (data : dict loc) (config : option auto_fill_cfg)
    (w w' : world) (r : result nat) :
  fill_cache_1hr_pricing data config w = (r, w') ->
  exists modified : list loc,
    NoDup modified
    /\ (forall l, In l modified <-> heap w' !! l <> heap w !! l)
    /\ (forall l, In l modified ->
          exists key, In (key, l) data
                      /\ startswith key (rule_prefix config) = true)
    /\ (forall l, In l modified ->
          exists value value' f,
            heap w !! l = Some (JObj value)
            /\ heap w' !! l = Some (JObj value')
            /\ get_is_None target_field value = true
            /\ get target_field value' = Some (JFloat f)
            /\ get source_field value' = get source_field value
            /\ forall field, field <> target_field ->
                 get field value' = get field value)
    /\ (forall n, r = Ok n -> n = length modified)
    /\ length (heap w') = length (heap w)
    /\ files w' = files w
    /\ (NoDup (map snd data) ->
        forall key l, In (key, l) data ->
          startswith key (rule_prefix config) = false ->
          heap w' !! l = heap w !! l).
Proof.
  intros Hrun. destruct (fill_cache_effect _ _ _ _ _ Hrun) as (modified & He & Hn).
  assert (Hfilled : forall l, In l modified ->
    exists value f, heap w !! l = Some (JObj value)
      /\ heap w' !! l = Some (JObj (set target_field (JFloat f) value))
      /\ get_is_None target_field value = true).
  { intros l Hl. destruct (fe_filled _ _ _ _ _ _ He l Hl) as (value & c & f & Hf & _ & Hh).
    apply fillable_Some in Hf as (Hobj & _ & _ & Htgt).
    exists value, f. split; [by apply deref_obj_lookup | done]. }
  exists modified. split; [apply (fe_nodup _ _ _ _ _ _ He)|].
  split; [|split; [|split; [|split; [|split; [|split]]]]].
  - intros l. split.
    + intros Hl. destruct (Hfilled l Hl) as (value & f & Hw & Hw' & Htgt).
      rewrite Hw, Hw'. intros [= Heq].
      rewrite <- Heq, get_is_None_filled in Htgt. done.
    + intros Hne. destruct (in_dec Nat.eq_dec l modified) as [|Hnot]; [done|].
      exfalso. apply Hne. by apply (fe_frame _ _ _ _ _ _ He).
  - apply (fe_key _ _ _ _ _ _ He).
  - intros l Hl. destruct (Hfilled l Hl) as (value & f & Hw & Hw' & Htgt).
    exists value, (set target_field (JFloat f) value), f.
    repeat split; try done.
    + apply get_set_eq.
    + by apply get_set_ne.
    + intros field Hne. by apply get_set_ne.
  - intros n Hr. by destruct (Hn n Hr).
  - apply (fe_length _ _ _ _ _ _ He).
  - apply (fe_files _ _ _ _ _ _ He).
  - intros Hnd key l Hin Hpre.
    apply (fe_frame _ _ _ _ _ _ He). intros Hl.
    destruct (fe_key _ _ _ _ _ _ He l Hl) as (key' & Hin' & Hpre').
    assert (key' = key); [|congruence].
    clear -Hnd Hin Hin'. induction data as [|[k0 l0] data IH]; [done|].
    simpl in Hnd. inversion Hnd as [|? ? Hnot Hnd']; subst.
    destruct Hin as [Heq|Hin], Hin' as [Heq'|Hin'].
    + congruence.
    + injection Heq as -> ->. exfalso. apply Hnot. apply list_elem_of_In.
      apply in_map_iff. by exists (key', l).
    + injection Heq' as -> ->. exfalso. apply Hnot. apply list_elem_of_In.
      apply in_map_iff. by exists (key, l).
    + auto.
Qed.

(** ** The worked examples *)

(** C1, as the specification gives it, fails: the key gpt-3 starts with
    gpt-, so the filter keeps it and the merge adds it. *)
Lemma example_filter_merge_as_specified_fails :
  ~ (filter_upstream example_upstream example_config
     = [("gpt-4", JObj [("cost", JInt 2)])]
     /\ let r := merge_models py_ne example_existing
                   (filter_upstream example_upstream example_config)
                   "additive" true in
        fst r = [("gpt-4", JObj [("cost", JInt 2)])]
        /\ added (snd r) = 0 /\ updated (snd r) = 1 /\ unchanged (snd r) = 0).
Proof. intros [Hfilter _]. vm_compute in Hfilter. discriminate. Qed.

(** C1 (amended): with prefix gpt-, no exclude patterns and
    [update_existing], the filter drops only claude-x and returns gpt-4 and
    gpt-3 with their upstream records; the additive merge then replaces the
    record of gpt-4 and appends gpt-3: added=1, updated=1, unchanged=0. *)
Theorem example_filter_merge :
  filter_upstream example_upstream example_config
  = [("gpt-4", JObj [("cost", JInt 2)]);
     ("gpt-3", JObj [("cost", JFloat float_0_5)])]
  /\ merge_models py_ne example_existing
       (filter_upstream example_upstream example_config) "additive" true
     = ([("gpt-4", JObj [("cost", JInt 2)]);
         ("gpt-3", JObj [("cost", JFloat float_0_5)])],
        {| added := 1; updated := 1; unchanged := 0; total_upstream := 2 |}).
Proof. split; vm_compute; reflexivity. Qed.

(** C2, as the specification gives it, fails: the decimal product is
    rounded to the 28 significant digits of the default context before it
    is turned into a float. For the 30-digit cost [long_cost] and the ratio
    1.6 the exact product is [16 * long_cost / 10]; the filler stores
    1.267650600228248e+30, the float nearest to the exact product is
    1.2676506002282483e+30. *)
Lemma fill_is_not_exact_beyond_28_digits :
  Decimal_of_value (JInt long_cost) = Ok (DFin false (Z.to_N long_cost) 0)
  /\ Decimal_of_value (JFloat float_1_6) = Ok (DFin false 16 (-1))
  /\ exists stored,
       fill_cache_1hr_pricing example_catalog example_rule long_cost_world
       = (Ok 1,
          {| heap := [JObj [(source_field, JInt long_cost);
                            (target_field, JFloat stored)]];
             files := [];
             log := [AutoFilled "claude-x" (JInt long_cost) (JFloat float_1_6) stored] |})
       /\ stored <> float_of_digits false (Z.to_N long_cost * 16) (-1).
Proof.
  split; [vm_compute; reflexivity|]. split; [vm_compute; reflexivity|].
  eexists. split; [vm_compute; reflexivity|]. vm_compute. discriminate.
Qed.

(** C2 (amended): every value the filler stores is the float nearest to
    the Decimal product of the decimal renderings of source value and
    ratio; that product is exact whenever it has at most 28 significant
    digits (and its exponent lies in the context's range). For the rule
    with prefix claude- and ratio 1.6 and a record with cost 0.30 and no
    target field, the renderings are 0.3 and 1.6, their product is the
    decimal 0.48, the stored value is the float 0.48 and the count is 1. *)
Theorem fill_stores_decimal_product :
  (forall data config w w' r l value,
     fill_cache_1hr_pricing data config w = (r, w') ->
     heap w !! l = Some (JObj value) ->
     heap w' !! l <> heap w !! l ->
     exists cost_5m f,
       get source_field value = Some cost_5m
       /\ scale_cost cost_5m (rule_ratio config) = Ok f
       /\ heap w' !! l = Some (JObj (set target_field (JFloat f) value))
       /\ forall s c e s' c' e',
            Decimal_of_value cost_5m = Ok (DFin s c e) ->
            Decimal_of_value (rule_ratio config) = Ok (DFin s' c' e') ->
            (ndigits (c * c') <= ctx_prec)%Z ->
            (ctx_Etiny <= e + e' <= ctx_Etop)%Z ->
            f = float_of_digits (xorb s s') (c * c') (e + e'))
  /\ fill_cache_1hr_pricing example_catalog example_rule example_world
     = (Ok 1,
        {| heap := [JObj [(source_field, JFloat float_0_30);
                          (target_field, JFloat float_0_48)]];
           files := [];
           log := [AutoFilled "claude-x" (JFloat float_0_30) (JFloat float_1_6)
                     float_0_48] |})
  /\ Decimal_of_value (JFloat float_0_30) = Ok (DFin false 3 (-1))
  /\ Decimal_of_value (JFloat float_1_6) = Ok (DFin false 16 (-1))
  /\ dec_mul (DFin false 3 (-1)) (DFin false 16 (-1)) = Ok (DFin false 48 (-2))
  /\ float_0_48 = float_of_digits false 48 (-2)
  /\ float_repr float_0_48 = "0.48".
Proof.
  split; [|repeat split; vm_compute; reflexivity].
  intros data config w w' r l value Hrun Hl Hne.
  destruct (fill_cache_effect _ _ _ _ _ Hrun) as (modified & He & _).
  destruct (in_dec Nat.eq_dec l modified) as [Hin|Hnot];
    [|exfalso; apply Hne; by apply (fe_frame _ _ _ _ _ _ He)].
  destruct (fe_filled _ _ _ _ _ _ He l Hin) as (value0 & cost_5m & f & Hf & Hs & Hh).
  apply fillable_Some in Hf as (Hobj & Hsrc & _ & _).
  rewrite (deref_Some _ _ _ Hl) in Hobj. injection Hobj as <-.
  exists cost_5m, f. repeat split; try done.
  intros s c e s' c' e' Ha Hb Hd Hx.
  rewrite (scale_cost_exact _ _ _ _ _ _ _ _ Ha Hb Hd Hx) in Hs. by injection Hs.
Qed.

(** ** Aliases *)

Lemma In_set {V} (k k' : string) (v v' : V) (d : dict V) :
  In (k', v') (set k v d) -> (k', v') = (k, v) \/ In (k', v') d.
Proof.
  induction d as [|[k0 v0] d IH]; simpl.
  - intros [<-|[]]. by left.
  - destruct (String.eqb_spec k k0) as [->|Hne]; simpl.
    + intros [<-|Hin]; [by left | right; by right].
    + intros [<-|Hin]; [right; by left|]. destruct (IH Hin); [by left | right; by right].
Qed.

Lemma store_wf_get h (data : dict loc) k l :
  store_wf h data -> get k data = Some l -> l < length h.
Proof.
  unfold store_wf. rewrite Forall_forall. intros Hwf Hget.
  apply get_Some_In, list_elem_of_In in Hget. exact (Hwf _ Hget).
Qed.

Lemma store_wf_grow h extra (data : dict loc) :
  store_wf h data -> store_wf (h ++ extra) data.
Proof.
  unfold store_wf. intros H. eapply Forall_impl; [exact H|].
  intros [k l] Hl. simpl in *. rewrite length_app. lia.
Qed.

Lemma store_wf_set h (data : dict loc) k l :
  store_wf h data -> l < length h -> store_wf h (set k l data).
Proof.
  unfold store_wf. rewrite !Forall_forall. intros Hwf Hl [k' l'] Hin.
  apply list_elem_of_In, In_set in Hin as [[= -> ->]|Hin]; [done|].
  apply (Hwf (k', l')). by apply list_elem_of_In.
Qed.

(** One alias: the heap grows by at most the copy, nothing else moves. *)
Lemma apply_aliases_step_effect data w alias_key cfg :
  let src := default "" (source cfg) in
  let r := apply_aliases_step (data, w) (alias_key, cfg) in
  files (snd r) = files w
  /\ (forall k, k <> alias_key -> get k (fst r) = get k data)
  /\ match get src data with
     | None =>
         r = (data, emit (AliasSkipped alias_key src) w)
     | Some l =>
         fst r = set alias_key (length (heap w)) data
         /\ heap (snd r) = heap w ++ [deref (heap w) l]
         /\ log (snd r) = log w ++ [AliasApplied alias_key src]
     end.
Proof.
  cbn zeta. unfold apply_aliases_step, deepcopy.
  destruct (get (default "" (source cfg)) data) as [l|]; simpl.
  - split; [done|]. split; [|done]. intros k Hk. by apply get_set_ne.
  - done.
Qed.

(** What holds between the state before and after a run over any list of
    aliases. *)
Lemma apply_aliases_effect aliases data w :
  store_wf (heap w) data ->
  let r := apply_aliases data aliases w in
  store_wf (heap (snd r)) (fst r)
  /\ (exists copies, heap (snd r) = heap w ++ copies)
  /\ (exists evs, log (snd r) = log w ++ evs)
  /\ files (snd r) = files w
  /\ (forall k, ~ In k (keys aliases) -> get k (fst r) = get k data)
  /\ (forall l owner, l < length (heap w) ->
        (forall k, get k data = Some l -> k = owner) ->
        forall k, get k (fst r) = Some l -> k = owner).
Proof.
  unfold apply_aliases. revert data w.
  induction aliases as [|[alias_key cfg] aliases IH]; intros data w Hwf; cbn zeta.
  - simpl. split; [done|]. split; [exists []; by rewrite app_nil_r|].
    split; [exists []; by rewrite app_nil_r|]. done.
  - cbn [fold_left].
    pose proof (apply_aliases_step_effect data w alias_key cfg) as Hstep.
    cbn zeta in Hstep. destruct Hstep as (Hfiles & Hother & Hcase).
    destruct (apply_aliases_step (data, w) (alias_key, cfg)) as [d1 w1] eqn:E.
    cbn [fst snd] in *.
    assert (Hd1 : store_wf (heap w1) d1
                  /\ (exists c, heap w1 = heap w ++ c)
                  /\ (exists e, log w1 = log w ++ e)
                  /\ (forall l owner, l < length (heap w) ->
                        (forall k, get k data = Some l -> k = owner) ->
                        forall k, get k d1 = Some l -> k = owner)).
    { destruct (get (default "" (source cfg)) data) as [l|] eqn:Eg.
      - destruct Hcase as (-> & Hheap & Hlog). rewrite Hheap.
        split; [|split; [eauto|split; [eauto|]]].
        + apply store_wf_set; [by apply store_wf_grow|]. rewrite length_app. simpl. lia.
        + intros l0 owner Hl0 Hown k Hk.
          destruct (String.eqb_spec k alias_key) as [->|Hne].
          * rewrite get_set_eq in Hk. injection Hk as <-. lia.
          * rewrite get_set_ne in Hk by done. auto.
      - injection Hcase as -> ->. simpl.
        split; [done|]. split; [exists []; by rewrite app_nil_r|].
        split; [eauto|]. auto. }
    destruct Hd1 as (Hwf1 & [c Hc] & [e He] & Hown1).
    destruct (IH d1 w1 Hwf1) as (IHwf & [c' Hc'] & [e' He'] & IHfiles & IHother & IHown).
    split; [done|]. split; [exists (c ++ c'); by rewrite Hc', Hc, app_assoc|].
    split; [exists (e ++ e'); by rewrite He', He, app_assoc|].
    split; [congruence|]. split.
    + intros k Hk. rewrite IHother by (intros ?; apply Hk; by right).
      apply Hother. intros ->. apply Hk. by left.
    + intros l owner Hl Hown k Hk. apply (IHown l owner); [|by apply Hown1|done].
      rewrite Hc, length_app. lia.
Qed.

Lemma apply_aliases_app data pre post w :
  apply_aliases data (pre ++ post) w
  = apply_aliases (fst (apply_aliases data pre w)) post
      (snd (apply_aliases data pre w)).
Proof.
  unfold apply_aliases. rewrite fold_left_app.
  by destruct (fold_left apply_aliases_step pre (data, w)).
Qed.

(** C8: [apply_aliases] goes through the aliases in insertion order and
    always returns. When an alias is reached whose source key is not in the
    catalog at that moment, a warning is logged, the run goes on, and the
    entry at the alias key is the one the catalog had at the start. When
    the source key is present, the alias key ends up at a fresh object that
    no other key refers to and that holds the content the source record
    had at that moment, whatever the alias key held before. Objects that
    existed before the call are not touched, and keys that are not alias
    keys keep their entries. *)
Theorem apply_aliases_in_order (data : dict loc) (aliases : dict alias_cfg)
    (w : world) :
  dict_wf aliases ->
  store_wf (heap w) data ->
  let final := apply_aliases data aliases w in
  (exists copies, heap (snd final) = heap w ++ copies)
  /\ files (snd final) = files w
  /\ (forall k, ~ In k (keys aliases) -> get k (fst final) = get k data)
  /\ forall pre alias_key cfg post,
       aliases = pre ++ (alias_key, cfg) :: post ->
       let before := apply_aliases data pre w in
       let src := default "" (source cfg) in
       match get src (fst before) with
       | None =>
           get alias_key (fst final) = get alias_key data
           /\ In (AliasSkipped alias_key src) (log (snd final))
       | Some l =>
           exists l',
             get alias_key (fst final) = Some l'
             /\ l' = length (heap (snd before))
             /\ heap (snd final) !! l' = heap (snd before) !! l
             /\ (forall k, get k (fst final) = Some l' -> k = alias_key)
             /\ In (AliasApplied alias_key src) (log (snd final))
       end.
Proof.
  intros Hnd Hwf final.
  destruct (apply_aliases_effect aliases data w Hwf)
    as (_ & Hheap & _ & Hfiles & Hother & _).
  split; [done|]. split; [done|]. split; [done|].
  intros pre alias_key cfg post Hsplit before src.
  (* the alias key occurs neither before nor after its own entry *)
  assert (Hpre : ~ In alias_key (keys pre) /\ ~ In alias_key (keys post)).
  { unfold dict_wf, keys in Hnd. rewrite Hsplit, map_app in Hnd. simpl in Hnd.
    apply NoDup_app in Hnd as (_ & Hdisj & Hnd).
    inversion Hnd as [|? ? Hnot _]; subst. split.
    - intros Hin. apply (Hdisj alias_key); [by apply list_elem_of_In | left].
    - intros Hin. apply Hnot. by apply list_elem_of_In. }
  destruct Hpre as [Hnpre Hnpost].
  destruct (apply_aliases_effect pre data w Hwf)
    as (Hwf1 & _ & _ & _ & Hother1 & _).
  subst before. destruct (apply_aliases data pre w) as [d1 w1] eqn:Eb.
  cbn [fst snd] in *.
  pose proof (apply_aliases_step_effect d1 w1 alias_key cfg) as Hstep.
  cbn zeta in Hstep. destruct Hstep as (_ & _ & Hcase).
  destruct (apply_aliases_effect [(alias_key, cfg)] d1 w1 Hwf1)
    as (Hwf2 & _ & _ & _ & _ & _).
  unfold apply_aliases in Hwf2. cbn [fold_left] in Hwf2.
  assert (Hfinal : final
    = apply_aliases (fst (apply_aliases_step (d1, w1) (alias_key, cfg)))
        post (snd (apply_aliases_step (d1, w1) (alias_key, cfg)))).
  { subst final. rewrite Hsplit, apply_aliases_app, Eb. cbn [fst snd].
    unfold apply_aliases. cbn [fold_left].
    by destruct (apply_aliases_step (d1, w1) (alias_key, cfg)). }
  destruct (apply_aliases_step (d1, w1) (alias_key, cfg)) as [d2 w2] eqn:E2.
  cbn [fst snd] in *.
  destruct (apply_aliases_effect post d2 w2 Hwf2)
    as (_ & [c Hc] & [e He] & _ & Hother3 & Hown3).
  rewrite <- Hfinal in Hc, He, Hother3, Hown3. fold src in Hcase.
  destruct (get src d1) as [l|] eqn:Eg.
  - destruct Hcase as (-> & Hheap2 & Hlog2).
    exists (length (heap w1)).
    split; [by rewrite Hother3, get_set_eq|]. split; [done|].
    pose proof (store_wf_get _ _ _ _ Hwf1 Eg) as Hl.
    split; [|split].
    + rewrite Hc, Hheap2, <- app_assoc.
      rewrite lookup_app_r by done. rewrite Nat.sub_diag. simpl.
      unfold deref. destruct (heap w1 !! l) eqn:El; [done|].
      apply lookup_ge_None in El. lia.
    + apply Hown3.
      * rewrite Hheap2, length_app. simpl. lia.
      * intros k Hk. destruct (String.eqb_spec k alias_key) as [|Hne]; [done|].
        rewrite get_set_ne in Hk by done.
        pose proof (store_wf_get _ _ _ _ Hwf1 Hk). lia.
    + rewrite He, Hlog2. rewrite !in_app_iff. left. right. by left.
  - injection Hcase as -> ->. split.
    + by rewrite Hother3, Hother1.
    + rewrite He. simpl. rewrite !in_app_iff. left. right. by left.
Qed.

(** Aliases keep the catalog free of shared records: the hypothesis under
    which the auto-fill leaves the records of other keys alone. *)
Lemma no_sharing_set (data : dict loc) k l :
  NoDup (map snd data) -> ~ In l (map snd data) ->
  NoDup (map snd (set k l data)).
Proof.
  induction data as [|[k0 l0] data IH]; intros Hnd Hnot; simpl.
  - repeat constructor. by intros ?%elem_of_nil.
  - simpl in Hnd, Hnot. inversion Hnd as [|? ? Hl0 Hnd']; subst.
    destruct (String.eqb k k0); simpl.
    + constructor; [|done]. rewrite list_elem_of_In. tauto.
    + constructor; [|apply IH; tauto].
      rewrite list_elem_of_In, in_map_iff. intros ([k1 l1] & Heq & Hin).
      simpl in Heq. subst l1. apply In_set in Hin as [[= _ ->]|Hin]; [tauto|].
      apply Hl0. apply list_elem_of_In, in_map_iff. by exists (k1, l0).
Qed.

Lemma apply_aliases_no_sharing aliases (data : dict loc) w :
  store_wf (heap w) data -> NoDup (map snd data) ->
  NoDup (map snd (fst (apply_aliases data aliases w))).
Proof.
  unfold apply_aliases. revert data w.
  induction aliases as [|[alias_key cfg] aliases IH]; intros data w Hwf Hnd; [done|].
  cbn [fold_left].
  destruct (apply_aliases_effect [(alias_key, cfg)] data w Hwf) as (Hwf1 & _).
  unfold apply_aliases in Hwf1. cbn [fold_left] in Hwf1.
  pose proof (apply_aliases_step_effect data w alias_key cfg) as Hstep.
  cbn zeta in Hstep. destruct Hstep as (_ & _ & Hcase).
  destruct (apply_aliases_step (data, w) (alias_key, cfg)) as [d1 w1].
  cbn [fst snd] in *. apply IH; [done|].
  destruct (get (default "" (source cfg)) data) as [l|].
  - destruct Hcase as (-> & _). apply no_sharing_set; [done|].
    rewrite in_map_iff. intros ([k0 l0] & Heq & Hin). simpl in Heq. subst l0.
    unfold store_wf in Hwf. rewrite Forall_forall in Hwf.
    apply list_elem_of_In, Hwf in Hin. simpl in Hin. lia.
  - by injection Hcase as -> _.
Qed.

(** ** Sorting by key *)

Lemma ascii_compare_trans x y z o :
  Ascii.compare x y = o -> Ascii.compare y z = o -> o <> Gt ->
  Ascii.compare x z = o.
Proof.
  unfold Ascii.compare. destruct o; intros Hxy Hyz Ho; [| |done].
  - apply N.compare_eq_iff in Hxy, Hyz. apply N.compare_eq_iff. congruence.
  - rewrite N.compare_lt_iff in *. lia.
Qed.

Lemma string_leb_trans a b c :
  String.leb a b = true -> String.leb b c = true -> String.leb a c = true.
Proof.
  unfold String.leb. revert b c.
  induction a as [|x a IH]; intros [|y b] [|z c]; simpl; try done.
  destruct (Ascii.compare x y) eqn:Exy; destruct (Ascii.compare y z) eqn:Eyz;
    try done.
  - rewrite (ascii_compare_trans x y z Eq) by done. apply IH.
  - apply Ascii.compare_eq_iff in Exy as ->. by rewrite Eyz.
  - apply Ascii.compare_eq_iff in Eyz as <-. by rewrite Exy.
  - by rewrite (ascii_compare_trans x y z Lt).
Qed.

Section SortFacts.
Context {V : Type}.
Implicit Types (l : dict V) (kv : string * V).

Lemma insert_item_perm kv l : Permutation (insert_item kv l) (kv :: l).
Proof.
  induction l as [|x l IH]; simpl; [done|].
  destruct (String.leb (fst kv) (fst x)); [done|].
  rewrite IH. apply perm_swap.
Qed.

Lemma sorted_items_perm l : Permutation (sorted_items l) l.
Proof.
  induction l as [|kv l IH]; simpl; [done|].
  by rewrite insert_item_perm, IH.
Qed.

Lemma insert_item_sorted kv l :
  StronglySorted key_le l -> StronglySorted key_le (insert_item kv l).
Proof.
  induction 1 as [|x l Hs IH Hx]; simpl.
  - repeat constructor.
  - destruct (String.leb (fst kv) (fst x)) eqn:E.
    + constructor; [by constructor|]. constructor; [done|].
      eapply Forall_impl; [exact Hx|]. intros y Hy.
      unfold key_le in *. by apply (string_leb_trans _ (fst x)).
    + constructor; [done|].
      rewrite (insert_item_perm kv l). constructor; [|done].
      unfold key_le. destruct (String.leb_total (fst x) (fst kv)); [done|congruence].
Qed.

Lemma sorted_items_sorted l : StronglySorted key_le (sorted_items l).
Proof.
  induction l as [|kv l IH]; simpl; [constructor | by apply insert_item_sorted].
Qed.

(** Two sorted lists with the same entries and distinct keys are equal. *)
Lemma sorted_unique l l' :
  StronglySorted key_le l -> StronglySorted key_le l' ->
  Permutation l l' -> dict_wf l -> l = l'.
Proof.
  unfold dict_wf. revert l'. induction l as [|x l IH]; intros l' Hs Hs' Hp Hnd.
  - by apply Permutation_nil in Hp.
  - destruct l' as [|y l']; [by apply Permutation_sym, Permutation_nil in Hp|].
    inversion Hs as [|? ? Hsl Hx]; subst. inversion Hs' as [|? ? Hsl' Hy]; subst.
    assert (x = y) as <-.
    { assert (Hxin : x ∈ y :: l') by (rewrite <- Hp; left).
      assert (Hyin : y ∈ x :: l) by (rewrite Hp; left).
      apply elem_of_cons in Hxin as [|Hxin]; [done|].
      apply elem_of_cons in Hyin as [|Hyin]; [done|].
      rewrite Forall_forall in Hx, Hy.
      pose proof (String.leb_antisym _ _ (Hx _ Hyin) (Hy _ Hxin)) as Hk.
      simpl in Hnd. inversion Hnd as [|? ? Hnot _]; subst.
      exfalso. apply Hnot. rewrite Hk. unfold keys.
      apply list_elem_of_fmap. by exists y. }
    f_equal. apply IH; try done.
    + by apply Permutation_cons_inv in Hp.
    + simpl in Hnd. by inversion Hnd.
Qed.

Lemma sorted_items_invariant l l' :
  Permutation l l' -> dict_wf l -> sorted_items l = sorted_items l'.
Proof.
  intros Hp Hnd. apply sorted_unique.
  - apply sorted_items_sorted.
  - apply sorted_items_sorted.
  - by rewrite !sorted_items_perm.
  - unfold dict_wf, keys in *. by rewrite sorted_items_perm.
Qed.

End SortFacts.

(** ** Serialization *)

(** Induction on JSON values with the hypotheses for the nested values. *)
Lemma json_nested_ind (P : json -> Prop) :
  P JNull -> (forall b, P (JBool b)) -> (forall z, P (JInt z)) ->
  (forall f, P (JFloat f)) -> (forall s, P (JStr s)) ->
  (forall items, Forall P items -> P (JList items)) ->
  (forall fields, Forall (fun kv => P (snd kv)) fields -> P (JObj fields)) ->
  forall v, P v.
Proof.
  intros Hnull Hbool Hint Hfloat Hstr Hlist Hobj.
  fix IH 1. intros [|b|z|f|s|items|fields].
  - exact Hnull.
  - apply Hbool.
  - apply Hint.
  - apply Hfloat.
  - apply Hstr.
  - apply Hlist. induction items as [|x items IHl]; constructor; [apply IH | exact IHl].
  - apply Hobj. induction fields as [|[k x] fields IHl]; constructor;
      [apply IH | exact IHl].
Qed.

Lemma same_content_list la lb :
  same_content (JList la) (JList lb) = true
  <-> Forall2 (fun x y => same_content x y = true) la lb.
Proof.
  cbn [same_content]. revert lb. induction la as [|x la IH]; intros [|y lb].
  - split; [constructor | done].
  - split; [done | inversion 1].
  - split; [done | inversion 1].
  - rewrite andb_true_iff, IH. split.
    + intros []. by constructor.
    + inversion 1; subst. done.
Qed.

Lemma same_content_obj fa fb :
  same_content (JObj fa) (JObj fb) = true
  <-> length fa = length fb
      /\ Forall (fun kv => exists v', get (fst kv) fb = Some v'
                                      /\ same_content (snd kv) v' = true) fa.
Proof.
  cbn [same_content]. rewrite andb_true_iff, Nat.eqb_eq.
  apply and_iff_compat_l.
  induction fa as [|[k v] fa IH].
  - split; [constructor | done].
  - rewrite andb_true_iff, IH. split.
    + intros [Hv Hrest]. constructor; [|done]. simpl.
      destruct (get k fb) as [v'|]; [eauto | done].
    + inversion 1 as [|? ? (v' & Hget & Hv) Hrest]; subst. simpl in *.
      rewrite Hget. done.
Qed.

Lemma json_wf_list items : json_wf (JList items) <-> Forall json_wf items.
Proof.
  cbn [json_wf]. induction items as [|x items IH].
  - split; [constructor | done].
  - rewrite IH. split; [intros []; by constructor | inversion 1; done].
Qed.

Lemma json_wf_obj fields :
  json_wf (JObj fields)
  <-> dict_wf fields /\ Forall (fun kv => json_wf (snd kv)) fields.
Proof.
  cbn [json_wf]. apply and_iff_compat_l.
  induction fields as [|[k x] fields IH].
  - split; [constructor | done].
  - rewrite IH. split; [intros []; by constructor | inversion 1; done].
Qed.

Lemma float_same_eq x y : float_same x y = true -> x = y.
Proof.
  destruct x, y; simpl; try done.
  - by intros ->%Bool.eqb_prop.
  - by intros ->%Bool.eqb_prop.
  - rewrite !andb_true_iff. intros [[->%Bool.eqb_prop ->%Pos.eqb_eq] ->%Z.eqb_eq].
    done.
Qed.

Lemma dumps_at_list level items :
  dumps_at level (JList items)
  = match items with
    | [] => "[]"
    | _ =>
        "[" +:+ newline_indent (S level)
        +:+ join ("," +:+ newline_indent (S level)) (map (dumps_at (S level)) items)
        +:+ newline_indent level +:+ "]"
    end.
Proof. by destruct items. Qed.

Lemma dumps_at_obj level fields :
  dumps_at level (JObj fields)
  = match fields with
    | [] => "{}"
    | _ =>
        "{" +:+ newline_indent (S level)
        +:+ join ("," +:+ newline_indent (S level))
              (map (fun kv => encode_basestring_ascii (fst kv) +:+ ": " +:+ snd kv)
                 (sorted_items
                    (map (fun kv => (fst kv, dumps_at (S level) (snd kv))) fields)))
        +:+ newline_indent level +:+ "}"
    end.
Proof.
  destruct fields as [|[k x] fields]; [done|]. cbn [dumps_at].
  do 6 f_equal. apply map_ext. by intros [].
Qed.

(** Values with the same content have the same text. *)
Lemma dumps_at_same_content a :
  forall b level,
    json_wf a -> same_content a b = true -> dumps_at level a = dumps_at level b.
Proof.
  induction a as [|x|x|x|x|la IH|fa IH] using json_nested_ind;
    intros [|y|y|y|y|lb|fb] level Hwf Hsame; try done.
  - simpl in Hsame. by apply Bool.eqb_prop in Hsame as ->.
  - simpl in Hsame. by apply Z.eqb_eq in Hsame as ->.
  - simpl in Hsame. by apply float_same_eq in Hsame as ->.
  - simpl in Hsame. by apply String.eqb_eq in Hsame as ->.
  - apply same_content_list in Hsame. apply json_wf_list in Hwf.
    rewrite !dumps_at_list.
    assert (Hmap : map (dumps_at (S level)) la = map (dumps_at (S level)) lb).
    { clear -IH Hwf Hsame. induction Hsame as [|x y la lb Hxy Hrest IHrest]; [done|].
      inversion IH; subst. inversion Hwf; subst. simpl. f_equal; auto. }
    rewrite Hmap. destruct Hsame; done.
  - apply same_content_obj in Hsame as [Hlen Hall].
    apply json_wf_obj in Hwf as [Hnd Hwfs].
    rewrite !dumps_at_obj.
    set (enc := fun kv : string * json => (fst kv, dumps_at (S level) (snd kv))).
    (* the entries of [fb] in the order of [fa] *)
    set (fb' := map (fun kv : string * json =>
                       (fst kv, default JNull (get (fst kv) fb))) fa).
    assert (Hkeys : keys fb' = keys fa).
    { unfold keys, fb'. rewrite map_map. done. }
    assert (Hperm : Permutation fb' fb).
    { apply submseteq_length_Permutation;
        [|unfold fb'; rewrite length_map; lia].
      apply NoDup_submseteq.
      { apply (NoDup_fmap_1 fst). change (NoDup (keys fb')). by rewrite Hkeys. }
      intros [k v] Hin. unfold fb' in Hin. apply list_elem_of_fmap in Hin as ([k0 v0] & [= -> ->] & Hin0).
        rewrite Forall_forall in Hall. destruct (Hall _ Hin0) as (v' & Hget & _).
        simpl in *. rewrite Hget. simpl. apply list_elem_of_In. by apply get_Some_In. }
    assert (Henc : map enc fa = map enc fb').
    { unfold fb'. rewrite map_map. clear -IH Hall Hwfs.
      induction fa as [|[k v] fa IHfa]; [done|].
      inversion IH; subst. inversion Hall as [|? ? (v' & Hget & Hv) ?]; subst.
      inversion Hwfs; subst. simpl in *. rewrite Hget. simpl.
      f_equal; [|auto]. unfold enc. simpl. f_equal. auto. }
    assert (Hsort : sorted_items (map enc fa) = sorted_items (map enc fb)).
    { rewrite Henc. apply sorted_items_invariant.
      - by apply Permutation_map.
      - unfold dict_wf, keys. rewrite map_map. simpl.
        change (NoDup (keys fb')). by rewrite Hkeys. }
    fold enc. rewrite Hsort.
    destruct fa, fb; simpl in Hlen; done.
Qed.

(** ** Output *)

(** The digest of the three bytes abc, as in FIPS 180-4. *)
Example sha256_abc :
  compute_hash "abc"
  = "ba7816bf8f01cfea414140de5dae2223b00361a396177a9cb410ff61f20015ad".
Proof. vm_compute. reflexivity. Qed.

Lemma no_space_app s t : no_space (s +:+ t) = no_space s && no_space t.
Proof.
  induction s as [|c s IH]; simpl; [done|]. by rewrite IH, andb_assoc.
Qed.

Lemma hex_digit_no_space n : (0 <= n < 16)%Z -> is_space (hex_digit n) = false.
Proof.
  intros Hn. rewrite <- (Z2Nat.id n) by lia.
  assert (Hlt : Z.to_nat n < 16) by lia. revert Hlt.
  generalize (Z.to_nat n) as k. intros k Hk.
  do 16 (destruct k as [|k]; [reflexivity|]). lia.
Qed.

Lemma hex_word_no_space x : no_space (hex_word x) = true.
Proof.
  unfold hex_word. cbn [seq fold_right no_space].
  rewrite !hex_digit_no_space by (apply Z.mod_pos_bound; lia). done.
Qed.

Lemma sha256_hexdigest_no_space msg : no_space (sha256_hexdigest msg) = true.
Proof.
  unfold sha256_hexdigest. induction (sha256_words msg) as [|x ws IH]; [done|].
  cbn [fold_right]. by rewrite no_space_app, hex_word_no_space, IH.
Qed.

Lemma rstrip_no_space_newline s :
  no_space s = true -> rstrip (s +:+ String newline "") = s.
Proof.
  induction s as [|c s IH]; [done|].
  change (String c s +:+ String newline "")
    with (String c (s +:+ String newline "")).
  cbn [no_space rstrip].
  rewrite andb_true_iff, negb_true_iff. intros [Hc Hs]. rewrite (IH Hs), Hc.
  by destruct s.
Qed.

Lemma strip_no_space_newline s :
  no_space s = true -> strip (s +:+ String newline "") = s.
Proof.
  intros Hs. unfold strip. destruct s as [|c s]; [reflexivity|].
  assert (Hl : lstrip (String c s +:+ String newline "")
               = String c s +:+ String newline "").
  { change (String c s +:+ String newline "")
      with (String c (s +:+ String newline "")).
    cbn [no_space lstrip] in *.
    apply andb_true_iff in Hs as [Hc _]. apply negb_true_iff in Hc. by rewrite Hc. }
  rewrite Hl. by apply rstrip_no_space_newline.
Qed.

Lemma decode_encode_utf8 s : decode_utf8 (encode_utf8 s) = Some s.
Proof.
  induction s as [|c s IH]; [done|]. cbn [encode_utf8].
  pose proof (nat_ascii_bounded c) as Hb.
  destruct (Nat.ltb_spec (nat_of_ascii c) 128) as [Hlt|Hge].
  - cbn [decode_utf8]. destruct (Nat.ltb_spec (nat_of_ascii c) 128); [|lia].
    by rewrite IH.
  - assert (Hdiv : nat_of_ascii c / 64 = 2 \/ nat_of_ascii c / 64 = 3).
    { assert (2 <= nat_of_ascii c / 64) by (apply Nat.div_le_lower_bound; lia).
      assert (nat_of_ascii c / 64 < 4) by (apply Nat.Div0.div_lt_upper_bound; lia).
      lia. }
    pose proof (Nat.mod_upper_bound (nat_of_ascii c) 64 ltac:(lia)) as Hmod.
    pose proof (Nat.div_mod_eq (nat_of_ascii c) 64) as Hdm.
    cbn [decode_utf8].
    rewrite !nat_ascii_embedding by lia.
    destruct (Nat.ltb_spec (192 + nat_of_ascii c / 64) 128); [lia|].
    replace ((192 + nat_of_ascii c / 64 =? 194)%nat
             || (192 + nat_of_ascii c / 64 =? 195)%nat)
      with true.
    2:{ symmetry. apply orb_true_iff. rewrite !Nat.eqb_eq. lia. }
    destruct (Nat.leb_spec 128 (128 + nat_of_ascii c mod 64)); [|lia].
    destruct (Nat.ltb_spec (128 + nat_of_ascii c mod 64) 192); [|lia].
    cbn [andb]. rewrite IH. cbn [option_map]. do 2 f_equal.
    replace ((192 + nat_of_ascii c / 64 - 192) * 64 + (128 + nat_of_ascii c mod 64 - 128))
      with (nat_of_ascii c) by lia.
    apply ascii_nat_embedding.
Qed.

Lemma serialize_same_content h1 h2 (data1 data2 : dict loc) :
  json_wf (JObj (denote h1 data1)) ->
  same_content (JObj (denote h1 data1)) (JObj (denote h2 data2)) = true ->
  serialize h1 data1 = serialize h2 data2.
Proof.
  intros Hwf Hsame. unfold serialize, dumps.
  by rewrite (dumps_at_same_content _ _ 0 Hwf Hsame).
Qed.

Lemma write_output_cases data json_path hash_path old_hash w :
  let new_hash := compute_hash (serialize (heap w) data) in
  let r := write_output data json_path hash_path old_hash w in
  snd (fst r) = new_hash
  /\ heap (snd r) = heap w
  /\ (new_hash = old_hash -> r = ((false, new_hash), emit NoChanges w))
  /\ (new_hash <> old_hash ->
        fst (fst r) = true
        /\ files (snd r)
           = set hash_path (encode_utf8 (new_hash +:+ String newline ""))
               (set json_path (serialize (heap w) data) (files w))).
Proof.
  cbn zeta. unfold write_output.
  destruct (String.eqb_spec (compute_hash (serialize (heap w) data)) old_hash);
    simpl; repeat split; done.
Qed.

(** C7: when the digest of the catalog's serialization (keys sorted,
    two-space indent, trailing newline) equals [old_hash], [write_output]
    returns [(False, old_hash)] and writes no file; only a log line is
    added. Hence a second call on a catalog with the same logical content,
    given the digest the first call returned, reports no change and
    returns that digest again, whatever the order in which keys were
    inserted; and after a first call that wrote, that digest is what
    [load_existing_hash] reads back from the hash file. *)
Theorem write_output_skips_unchanged :
  (forall (data : dict loc) json_path hash_path old_hash w,
     compute_hash (serialize (heap w) data) = old_hash ->
     let r := write_output data json_path hash_path old_hash w in
     fst r = (false, old_hash)
     /\ files (snd r) = files w
     /\ heap (snd r) = heap w
     /\ log (snd r) = log w ++ [NoChanges])
  /\ (forall (data1 data2 : dict loc) json_path hash_path old_hash w w2,
        json_wf (JObj (denote (heap w) data1)) ->
        same_content (JObj (denote (heap w) data1))
                     (JObj (denote (heap w2) data2)) = true ->
        let r1 := write_output data1 json_path hash_path old_hash w in
        let r2 := write_output data2 json_path hash_path (snd (fst r1)) w2 in
        fst r2 = (false, snd (fst r1))
        /\ files (snd r2) = files w2
        /\ (fst (fst r1) = true ->
            load_existing_hash hash_path (snd r1) = Some (snd (fst r1)))).
Proof.
  split.
  - intros data json_path hash_path old_hash w Hh r.
    destruct (write_output_cases data json_path hash_path old_hash w)
      as (_ & _ & Hsame & _).
    subst r. rewrite (Hsame Hh), Hh. done.
  - intros data1 data2 json_path hash_path old_hash w w2 Hwf Hsame r1 r2.
    destruct (write_output_cases data1 json_path hash_path old_hash w)
      as (Hh1 & _ & Heq1 & Hne1).
    fold r1 in Hh1, Heq1, Hne1.
    destruct (write_output_cases data2 json_path hash_path (snd (fst r1)) w2)
      as (Hh2 & _ & Heq2 & _).
    fold r2 in Hh2, Heq2.
    rewrite <- (serialize_same_content _ _ _ _ Hwf Hsame), <- Hh1 in Heq2.
    rewrite (Heq2 eq_refl). repeat split.
    intros Hchanged.
    destruct (String.eqb_spec (compute_hash (serialize (heap w) data1)) old_hash)
      as [Heq|Hne].
    + rewrite (Heq1 Heq) in Hchanged. done.
    + destruct (Hne1 Hne) as [_ Hfiles].
      unfold load_existing_hash. rewrite Hfiles, get_set_eq, decode_encode_utf8.
      cbn [option_map]. rewrite Hh1. f_equal.
      apply strip_no_space_newline, sha256_hexdigest_no_space.
Qed.

(** ** Instances *)

Ltac solve_nodup :=
  apply (bool_decide_unpack _); vm_compute; exact I.

Lemma filter_upstream_policy_witness :
  dict_wf example_upstream
  /\ (get "gpt-3" (filter_upstream example_upstream example_config)
      = Some (JObj [("cost", JFloat float_0_5)])
      <-> get "gpt-3" example_upstream = Some (JObj [("cost", JFloat float_0_5)])
          /\ (~ exists pat, In pat (default [] (exclude_patterns example_config))
                            /\ is_substring pat "gpt-3")
          /\ (prefix_filters example_config = []
              \/ exists p, In p (prefix_filters example_config)
                           /\ is_prefix p "gpt-3")).
Proof.
  assert (Hwf : dict_wf example_upstream) by (unfold dict_wf; solve_nodup).
  split; [exact Hwf|].
  exact (filter_upstream_policy example_upstream example_config "gpt-3"
           (JObj [("cost", JFloat float_0_5)]) Hwf).
Defined.

Lemma merge_additive_keeps_existing_witness :
  dict_wf example_upstream
  /\ fst (merge_models py_ne example_existing example_upstream "additive" false)
     = example_existing
       ++ List.filter (fun kv => negb (mem (fst kv) example_existing)) example_upstream.
Proof.
  assert (Hwf : dict_wf example_upstream) by (unfold dict_wf; solve_nodup).
  split; [exact Hwf|].
  exact (proj1 (merge_additive_keeps_existing py_ne example_existing
                  example_upstream Hwf)).
Defined.

(** The derived-field example after the run. *)
Lemma example_fill_run :
  fill_cache_1hr_pricing example_catalog example_rule example_world
  = (Ok 1,
     {| heap := [JObj [(source_field, JFloat float_0_30);
                       (target_field, JFloat float_0_48)]];
        files := [];
        log := [AutoFilled "claude-x" (JFloat float_0_30) (JFloat float_1_6)
                  float_0_48] |}).
Proof. vm_compute. reflexivity. Qed.

Lemma fill_keeps_explicit_and_is_idempotent_witness :
  let w' := {| heap := [JObj [(source_field, JFloat float_0_30);
                              (target_field, JFloat float_0_48)]];
               files := [];
               log := [AutoFilled "claude-x" (JFloat float_0_30)
                         (JFloat float_1_6) float_0_48] |} in
  fill_cache_1hr_pricing example_catalog example_rule example_world = (Ok 1, w')
  /\ fill_cache_1hr_pricing example_catalog example_rule w' = (Ok 0, w').
Proof.
  cbn zeta. split; [exact example_fill_run|].
  exact (proj1 (proj2 (fill_keeps_explicit_and_is_idempotent example_catalog
                         example_rule example_world _ (Ok 1) example_fill_run))
           1 eq_refl).
Defined.

Lemma fill_frame_witness :
  let w' := {| heap := [JObj [(source_field, JFloat float_0_30);
                              (target_field, JFloat float_0_48)]];
               files := [];
               log := [AutoFilled "claude-x" (JFloat float_0_30)
                         (JFloat float_1_6) float_0_48] |} in
  fill_cache_1hr_pricing example_catalog example_rule example_world = (Ok 1, w')
  /\ exists modified : list loc,
       NoDup modified
       /\ (forall l, In l modified <-> heap w' !! l <> heap example_world !! l)
       /\ (forall n, Ok 1 = Ok n -> n = length modified).
Proof.
  cbn zeta. split; [exact example_fill_run|].
  destruct (fill_frame example_catalog example_rule example_world _ (Ok 1)
              example_fill_run) as (modified & Hnd & Hiff & _ & _ & Hn & _).
  exists modified. split; [exact Hnd|]. split; [exact Hiff | exact Hn].
Defined.

Lemma fill_stores_decimal_product_witness :
  exists f,
    scale_cost (JFloat float_0_30) (rule_ratio example_rule) = Ok f
    /\ f = float_of_digits (xorb false false) (3 * 16) (-1 + -1).
Proof.
  destruct fill_stores_decimal_product as [Hgen _].
  destruct (Hgen example_catalog example_rule example_world _ (Ok 1) 0
              [(source_field, JFloat float_0_30)] example_fill_run eq_refl)
    as (cost_5m & f & Hget & Hscale & _ & Hexact).
  { vm_compute. discriminate. }
  injection Hget as <-. exists f. split; [exact Hscale|].
  apply Hexact; [vm_compute; reflexivity | vm_compute; reflexivity | | ].
  - vm_compute. discriminate.
  - vm_compute. split; discriminate.
Defined.

Lemma apply_aliases_in_order_witness :
  dict_wf alias_mapping
  /\ store_wf (heap alias_world) alias_catalog
  /\ (exists l',
        get "gpt-4-latest" (fst (apply_aliases alias_catalog alias_mapping alias_world))
        = Some l'
        /\ l' = length (heap alias_world)
        /\ heap (snd (apply_aliases alias_catalog alias_mapping alias_world)) !! l'
           = heap alias_world !! 0
        /\ (forall k,
              get k (fst (apply_aliases alias_catalog alias_mapping alias_world))
              = Some l' -> k = "gpt-4-latest")
        /\ In (AliasApplied "gpt-4-latest" "gpt-4")
             (log (snd (apply_aliases alias_catalog alias_mapping alias_world))))
  /\ get "ghost" (fst (apply_aliases alias_catalog alias_mapping alias_world)) = None
  /\ In (AliasSkipped "ghost" "gone")
       (log (snd (apply_aliases alias_catalog alias_mapping alias_world))).
Proof.
  assert (Hwf : dict_wf alias_mapping) by (unfold dict_wf; solve_nodup).
  assert (Hst : store_wf (heap alias_world) alias_catalog).
  { repeat constructor. }
  pose proof (apply_aliases_in_order alias_catalog alias_mapping alias_world Hwf Hst)
    as (_ & _ & _ & Hall).
  split; [exact Hwf|]. split; [exact Hst|]. split.
  - exact (Hall [] "gpt-4-latest" {| source := Some "gpt-4" |}
             [("ghost", {| source := Some "gone" |})] eq_refl).
  - exact (Hall [("gpt-4-latest", {| source := Some "gpt-4" |})] "ghost"
             {| source := Some "gone" |} [] eq_refl).
Defined.

Lemma write_output_skips_unchanged_witness :
  compute_hash (serialize (heap writer_world) writer_catalog) = writer_digest
  /\ fst (write_output writer_catalog "prices.json" "prices.sha256" writer_digest
            writer_world) = (false, writer_digest)
  /\ json_wf (JObj (denote (heap writer_world) writer_catalog))
  /\ same_content (JObj (denote (heap writer_world) writer_catalog))
       (JObj (denote (heap writer_world) writer_catalog')) = true
  /\ (let r1 := write_output writer_catalog "prices.json" "prices.sha256" ""
                  writer_world in
      let r2 := write_output writer_catalog' "prices.json" "prices.sha256"
                  (snd (fst r1)) (snd r1) in
      fst r2 = (false, snd (fst r1))
      /\ files (snd r2) = files (snd r1)
      /\ (fst (fst r1) = true ->
          load_existing_hash "prices.sha256" (snd r1) = Some (snd (fst r1)))).
Proof.
  assert (Hh : compute_hash (serialize (heap writer_world) writer_catalog)
               = writer_digest) by (vm_compute; reflexivity).
  assert (Hwf : json_wf (JObj (denote (heap writer_world) writer_catalog))).
  { simpl. unfold dict_wf. repeat split; solve_nodup. }
  assert (Hsame : same_content (JObj (denote (heap writer_world) writer_catalog))
                    (JObj (denote (heap (snd (write_output writer_catalog
                       "prices.json" "prices.sha256" "" writer_world)))
                       writer_catalog')) = true)
    by (vm_compute; reflexivity).
  destruct write_output_skips_unchanged as [Hone Htwo].
  split; [exact Hh|]. split.
  - exact (proj1 (Hone writer_catalog "prices.json" "prices.sha256" writer_digest
                    writer_world Hh)).
  - split; [exact Hwf|]. split; [vm_compute; reflexivity|].
    exact (Htwo writer_catalog writer_catalog' "prices.json" "prices.sha256" ""
             writer_world _ Hwf Hsame).
Defined.

(** * Further properties of the code *)

(** ** Filter: order, size, idempotence, empty strings *)

Lemma dict_wf_filter {V} (p : string * V -> bool) (d : dict V) :
  dict_wf d -> dict_wf (List.filter p d).
Proof.
  unfold dict_wf, keys. induction d as [|kv d IH]; intros Hnd; [done|].
  simpl in *. inversion Hnd as [|? ? Hnot Hnd']; subst.
  destruct (p kv); simpl; [|auto]. constructor; [|auto].
  rewrite list_elem_of_In, in_map_iff in *. intros (x & Hx & Hin).
  apply Hnot. exists x. split; [done|]. by apply filter_In in Hin as [].
Qed.

Lemma filter_twice {A} (p : A -> bool) (l : list A) :
  List.filter p (List.filter p l) = List.filter p l.
Proof.
  induction l as [|x l IH]; [done|]. simpl.
  destruct (p x) eqn:E; simpl; [by rewrite E, IH | done].
Qed.

Lemma filter_all {A} (p : A -> bool) (l : list A) :
  (forall x, In x l -> p x = true) -> List.filter p l = l.
Proof.
  induction l as [|x l IH]; intros Hall; [done|]. simpl.
  rewrite (Hall x) by (by left). f_equal. apply IH. intros y Hy. apply Hall. by right.
Qed.

(** X1: the filter returns the upstream entries it keeps in upstream
    order; the result is a dict again (its keys are distinct) and has at
    most as many entries as the upstream catalog. *)
Theorem filter_upstream_keeps_order {V} (data : dict V) (config : filter_config) :
  dict_wf data ->
  filter_upstream data config
  = List.filter (fun kv => filter_keeps (prefix_filters config)
                             (default [] (exclude_patterns config)) (fst kv)) data
  /\ sublist (filter_upstream data config) data
  /\ dict_wf (filter_upstream data config)
  /\ len (filter_upstream data config) <= len data.
Proof.
  intros Hwf. rewrite filter_upstream_filter by done.
  split; [done|]. split; [|split].
  - induction data as [|kv data IH]; simpl; [constructor|].
    assert (Hwf' : dict_wf data) by (unfold dict_wf in *; simpl in Hwf; by inversion Hwf).
    destruct (filter_keeps _ _ (fst kv)); [apply sublist_skip | apply sublist_cons];
      by apply IH.
  - by apply dict_wf_filter.
  - apply filter_length_le.
Qed.

(** X2: filtering is idempotent: filtering the result again with the same
    configuration returns it unchanged. *)
Theorem filter_upstream_idempotent {V} (data : dict V) (config : filter_config) :
  dict_wf data ->
  filter_upstream (filter_upstream data config) config = filter_upstream data config.
Proof.
  intros Hwf.
  rewrite (filter_upstream_filter data) by done.
  rewrite filter_upstream_filter by (by apply dict_wf_filter).
  apply filter_twice.
Qed.

Lemma filter_fold_drop_all {V} prefixes excludes (data filtered : dict V) :
  (forall key, filter_keeps prefixes excludes key = false) ->
  fold_left (filter_step prefixes excludes) data filtered = filtered.
Proof.
  intros Hnone. revert filtered.
  induction data as [|[k v] data IH]; intros filtered; [done|].
  cbn [fold_left]. by rewrite filter_step_keeps, Hnone.
Qed.

(** X3: the empty string is a substring and a prefix of every key. An
    empty exclude pattern therefore drops every model, whatever the
    prefixes; and with no exclude patterns, an empty prefix list or an
    empty prefix keeps the whole upstream catalog. *)
Theorem filter_upstream_empty_strings {V} (data : dict V) (config : filter_config) :
  (In "" (default [] (exclude_patterns config)) ->
   filter_upstream data config = [])
  /\ (dict_wf data ->
      default [] (exclude_patterns config) = [] ->
      prefix_filters config = [] \/ In "" (prefix_filters config) ->
      filter_upstream data config = data).
Proof.
  split.
  - intros Hin. unfold filter_upstream. apply filter_fold_drop_all.
    intros key. apply not_true_is_false. rewrite filter_keeps_spec.
    intros [Hex _]. apply Hex. exists "". split; [done|]. by exists "", key.
  - intros Hwf Hex Hpre. rewrite filter_upstream_filter by done.
    apply filter_all. intros [k v] _. simpl. apply filter_keeps_spec. rewrite Hex.
    split; [by intros (? & [] & _)|].
    destruct Hpre as [?|Hin]; [by left|]. right. exists "". split; [done|]. by exists k.
Qed.

(** ** Merge: the update policy, key by key *)

Section MergeUpdate.
Context {V : Type}.
Variable ne : V -> V -> bool.
Implicit Types (existing filtered merged : dict V) (st : stats).

Lemma merge_step_eq upd merged st k v :
  merge_step ne upd (merged, st) (k, v)
  = match get k merged with
    | None => (set k v merged, incr_added st)
    | Some old =>
        if upd && ne old v then (set k v merged, incr_updated st)
        else (merged, incr_unchanged st)
    end.
Proof. unfold merge_step. destruct (get k merged); [by destruct upd | done]. Qed.

Lemma merge_step_get upd merged st k v k' :
  k' <> k -> get k' (fst (merge_step ne upd (merged, st) (k, v))) = get k' merged.
Proof.
  intros Hne. rewrite merge_step_eq.
  destruct (get k merged) as [old|]; [destruct (upd && ne old v)|]; simpl;
    by rewrite ?get_set_ne.
Qed.

Lemma key_not_in k (v : V) filtered :
  k ∉ keys filtered -> forall kv, In kv filtered -> fst kv <> k.
Proof.
  intros Hnot [k' v'] Hin Heq. simpl in Heq. subst k'.
  apply Hnot. apply list_elem_of_In. unfold keys.
  apply in_map_iff. by exists (k, v').
Qed.

Lemma merge_class_ext upd merged merged' filtered :
  (forall kv, In kv filtered -> get (fst kv) merged' = get (fst kv) merged) ->
  List.filter (is_new merged') filtered = List.filter (is_new merged) filtered
  /\ List.filter (fun kv => upd && is_changed ne merged' kv) filtered
     = List.filter (fun kv => upd && is_changed ne merged kv) filtered
  /\ List.filter (fun kv => negb (is_new merged' kv) && negb (upd && is_changed ne merged' kv))
       filtered
     = List.filter (fun kv => negb (is_new merged kv) && negb (upd && is_changed ne merged kv))
         filtered.
Proof.
  intros Hsame. repeat split; apply filter_ext_in; intros kv Hin;
    unfold is_new, is_changed, mem; by rewrite (Hsame kv Hin).
Qed.

(** The loop of the additive branch, from any accumulator. *)
Lemma merge_fold_update upd filtered merged st :
  dict_wf filtered ->
  let r := fold_left (merge_step ne upd) filtered (merged, st) in
  keys (fst r) = keys merged ++ keys (List.filter (is_new merged) filtered)
  /\ (forall k, get k (fst r)
        = match get k filtered, get k merged with
          | Some v, Some old => if upd && ne old v then Some v else Some old
          | Some v, None => Some v
          | None, o => o
          end)
  /\ added (snd r) = added st + length (List.filter (is_new merged) filtered)
  /\ updated (snd r)
     = updated st + length (List.filter (fun kv => upd && is_changed ne merged kv) filtered)
  /\ unchanged (snd r)
     = unchanged st
       + length (List.filter
                   (fun kv => negb (is_new merged kv) && negb (upd && is_changed ne merged kv))
                   filtered).
Proof.
  unfold dict_wf. revert merged st.
  induction filtered as [|[k v] filtered IH]; intros merged st Hnd.
  - cbn. rewrite app_nil_r. repeat split; lia.
  - inversion Hnd as [|? ? Hnotin Hnd']; subst.
    cbn [fold_left].
    destruct (merge_step ne upd (merged, st) (k, v)) as [merged' st'] eqn:Estep.
    assert (Hget : forall k', k' <> k -> get k' merged' = get k' merged).
    { intros k' Hk'. pose proof (merge_step_get upd merged st k v k' Hk') as H.
      by rewrite Estep in H. }
    destruct (merge_class_ext upd merged merged' filtered) as (En & Ec & Es).
    { intros kv Hin. apply Hget. by apply (key_not_in k v filtered). }
    specialize (IH merged' st' Hnd'). cbn zeta in IH.
    rewrite En, Ec, Es in IH. destruct IH as (IHk & IHg & IHa & IHu & IHs).
    assert (Hfilt : get k filtered = None).
    { apply get_None_keys. intros Hin. apply Hnotin. by apply list_elem_of_In. }
    cbn zeta. cbn [List.filter].
    rewrite merge_step_eq in Estep.
    assert (Hlook : get k merged' = match get k merged with
                                    | Some old => if upd && ne old v then Some v else Some old
                                    | None => Some v
                                    end
            -> forall k0, get k0 (fst (fold_left (merge_step ne upd) filtered (merged', st')))
                 = match get k0 ((k, v) :: filtered), get k0 merged with
                   | Some v0, Some old => if upd && ne old v0 then Some v0 else Some old
                   | Some v0, None => Some v0
                   | None, o => o
                   end).
    { intros Hk k0. rewrite IHg. cbn [get].
      destruct (String.eqb_spec k0 k) as [->|Hk0].
      - rewrite Hfilt, Hk. by destruct (get k merged).
      - by rewrite (Hget k0 Hk0). }
    assert (Hn : is_new merged (k, v)
                 = match get k merged with Some _ => false | None => true end).
    { unfold is_new, mem. cbn [fst]. by destruct (get k merged). }
    assert (Hc : is_changed ne merged (k, v)
                 = match get k merged with Some old => ne old v | None => false end)
      by reflexivity.
    rewrite Hn, Hc. clear Hn Hc.
    destruct (get k merged) as [old|] eqn:Eg.
    + destruct (upd && ne old v) eqn:Eu; injection Estep as <- <-; cbn [negb andb].
      * rewrite IHk, IHa, IHu, IHs.
        rewrite keys_set_present by (unfold mem; by rewrite Eg).
        cbn [length incr_updated added updated unchanged].
        split; [done|]. split; [apply Hlook; apply get_set_eq|]. repeat split; lia.
      * rewrite IHk, IHa, IHu, IHs.
        cbn [length incr_unchanged added updated unchanged].
        split; [done|]. split; [by apply Hlook|]. repeat split; lia.
    + injection Estep as <- <-. cbn [negb andb]. rewrite andb_false_r.
      rewrite IHk, IHa, IHu, IHs.
      cbn [length incr_added added updated unchanged].
      split; [rewrite set_absent by done; unfold keys; rewrite !map_app, <- app_assoc; done|].
      split; [apply Hlook; apply get_set_eq|].
      repeat split; lia.
Qed.

End MergeUpdate.

Lemma merge_fold_noop {V} (ne : V -> V -> bool) upd (filtered merged : dict V) st :
  (forall k v, In (k, v) filtered ->
     exists old, get k merged = Some old /\ upd && ne old v = false) ->
  fold_left (merge_step ne upd) filtered (merged, st)
  = (merged, {| added := added st; updated := updated st;
                unchanged := unchanged st + length filtered;
                total_upstream := total_upstream st |}).
Proof.
  revert st. induction filtered as [|[k v] filtered IH]; intros st Hall.
  - cbn. destruct st. cbn. do 2 f_equal. lia.
  - cbn [fold_left]. rewrite merge_step_eq.
    destruct (Hall k v) as (old & -> & ->); [by left|].
    rewrite IH by (intros k' v' Hin; apply Hall; by right).
    cbn. do 2 f_equal. lia.
Qed.

(** X4: additive merge with [update_existing] set. The keys of the result
    are the existing keys in their order followed by the new upstream
    keys, so no model is dropped or moved; a key of the upstream selection
    holds the upstream value when it is new or when the existing value
    differs from it, and keeps the existing value otherwise; every other
    key keeps its value. The three counters are the numbers of upstream
    entries that are new, that differ and that do not differ. *)
Theorem merge_additive_update_existing {V} (ne : V -> V -> bool)
    (existing filtered : dict V) :
  dict_wf filtered ->
  let r := merge_models ne existing filtered "additive" true in
  keys (fst r) = keys existing ++ keys (List.filter (is_new existing) filtered)
  /\ (forall k, get k (fst r)
        = match get k filtered, get k existing with
          | Some v, Some old => if ne old v then Some v else Some old
          | Some v, None => Some v
          | None, o => o
          end)
  /\ added (snd r) = length (List.filter (is_new existing) filtered)
  /\ updated (snd r) = length (List.filter (is_changed ne existing) filtered)
  /\ unchanged (snd r) = length (List.filter (is_same ne existing) filtered).
Proof.
  intros Hwf r. subst r. unfold merge_models.
  change (String.eqb "additive" "full") with false. cbn iota.
  pose proof (merge_fold_update ne true filtered existing
    {| added := 0; updated := 0; unchanged := 0; total_upstream := len filtered |}
    Hwf) as H.
  cbn zeta in H. destruct H as (Hk & Hg & Ha & Hu & Hs).
  split; [done|]. split; [done|]. split; [done|]. split; [exact Hu|].
  rewrite Hs. cbn [unchanged]. cbn [Nat.add]. f_equal. apply filter_ext.
  intros [k v]. unfold is_new, is_changed, is_same, mem. cbn [fst snd].
  by destruct (get k existing).
Qed.

(** An additive merge of dicts is a dict. *)
Lemma merge_additive_keeps_dict {V} (ne : V -> V -> bool)
    (existing filtered : dict V) (update_existing : bool) :
  dict_wf existing -> dict_wf filtered ->
  dict_wf (fst (merge_models ne existing filtered "additive" update_existing)).
Proof.
  intros Hex Hwf. unfold merge_models.
  change (String.eqb "additive" "full") with false. cbn iota.
  pose proof (merge_fold_update ne update_existing filtered existing
    {| added := 0; updated := 0; unchanged := 0; total_upstream := len filtered |}
    Hwf) as H.
  cbn zeta in H. destruct H as (Hk & _).
  unfold dict_wf. rewrite Hk. apply NoDup_app. split; [done|]. split.
  - intros k Hin Hfresh. apply list_elem_of_In in Hin, Hfresh.
    unfold keys in Hfresh. apply in_map_iff in Hfresh as ([k' v] & Hk' & Hf).
    simpl in Hk'. subst k'. apply filter_In in Hf as [_ Hnew].
    unfold is_new in Hnew. cbn [fst] in Hnew.
    apply mem_true_iff in Hin. by rewrite Hin in Hnew.
  - by apply (dict_wf_filter (is_new existing)).
Qed.

(** X5: merging the same upstream selection a second time is a no-op. If
    no upstream value differs from itself, an additive merge of [filtered]
    into the result of an additive merge of [filtered] returns that result
    unchanged and counts every upstream entry as unchanged, none as added
    or updated. *)
Theorem merge_additive_again_is_noop {V} (ne : V -> V -> bool)
    (existing filtered : dict V) (update_existing : bool) :
  dict_wf filtered ->
  (forall k v, In (k, v) filtered -> ne v v = false) ->
  let merged := fst (merge_models ne existing filtered "additive" update_existing) in
  merge_models ne merged filtered "additive" update_existing
  = (merged, {| added := 0; updated := 0; unchanged := len filtered;
                total_upstream := len filtered |}).
Proof.
  intros Hwf Hrefl merged. subst merged. unfold merge_models.
  change (String.eqb "additive" "full") with false. cbn iota.
  pose proof (merge_fold_update ne update_existing filtered existing
    {| added := 0; updated := 0; unchanged := 0; total_upstream := len filtered |}
    Hwf) as H.
  cbn zeta in H. destruct H as (_ & Hg & _).
  rewrite merge_fold_noop; [done|].
  intros k v Hin. rewrite Hg, (In_get_Some k v filtered Hwf Hin).
  destruct (get k existing) as [old|]; [destruct (update_existing && ne old v) eqn:E|].
  - exists v. by rewrite (Hrefl k v Hin), andb_false_r.
  - by exists old.
  - exists v. by rewrite (Hrefl k v Hin), andb_false_r.
Qed.

(** ** Aliases: what a run preserves, and runs without chaining *)

Lemma keys_set {V} (k : string) (v : V) (d : dict V) :
  keys (set k v d) = if mem k d then keys d else keys d ++ [k].
Proof.
  destruct (mem k d) eqn:E; [by apply keys_set_present|].
  unfold mem in E. destruct (get k d) eqn:Eg; [done|].
  rewrite set_absent by done. unfold keys. by rewrite map_app.
Qed.

Lemma dict_wf_set {V} (k : string) (v : V) (d : dict V) :
  dict_wf d -> dict_wf (set k v d).
Proof.
  unfold dict_wf. rewrite keys_set. destruct (mem k d) eqn:E; [done|].
  intros Hnd. apply NoDup_app. split; [done|]. split; [|apply NoDup_singleton].
  intros k' Hin ->%list_elem_of_singleton.
  apply list_elem_of_In, mem_true_iff in Hin. congruence.
Qed.

Lemma deref_app h extra l : l < length h -> deref (h ++ extra) l = deref h l.
Proof. intros Hl. unfold deref. by rewrite lookup_app_l. Qed.

(** The entry an alias key holds at the end of a run, from the state the
    loop had reached when it came to that alias. *)
Lemma apply_aliases_at data pre alias_key cfg post w :
  dict_wf (pre ++ (alias_key, cfg) :: post) ->
  store_wf (heap w) data ->
  let before := apply_aliases data pre w in
  let final := apply_aliases data (pre ++ (alias_key, cfg) :: post) w in
  match get (default "" (source cfg)) (fst before) with
  | None => get alias_key (fst final) = get alias_key data
  | Some l =>
      exists l', get alias_key (fst final) = Some l'
        /\ deref (heap (snd final)) l' = deref (heap (snd before)) l
  end.
Proof.
  intros Hnd Hwf before final.
  assert (Hkeys : ~ In alias_key (keys pre) /\ ~ In alias_key (keys post)).
  { unfold dict_wf, keys in Hnd. rewrite map_app in Hnd. simpl in Hnd.
    apply NoDup_app in Hnd as (_ & Hdisj & Hnd).
    inversion Hnd as [|? ? Hnot _]; subst. split.
    - intros Hin. apply (Hdisj alias_key); [by apply list_elem_of_In | left].
    - intros Hin. apply Hnot. by apply list_elem_of_In. }
  destruct Hkeys as [Hnpre Hnpost].
  destruct (apply_aliases_effect pre data w Hwf) as (Hwf1 & _ & _ & _ & Hother1 & _).
  subst before final. rewrite apply_aliases_app.
  destruct (apply_aliases data pre w) as [d1 w1]. cbn [fst snd] in *.
  unfold apply_aliases. cbn [fold_left].
  pose proof (apply_aliases_step_effect d1 w1 alias_key cfg) as Hstep.
  cbn zeta in Hstep. destruct Hstep as (_ & _ & Hcase).
  destruct (apply_aliases_effect [(alias_key, cfg)] d1 w1 Hwf1) as (Hwf2 & _).
  unfold apply_aliases in Hwf2. cbn [fold_left] in Hwf2.
  destruct (apply_aliases_step (d1, w1) (alias_key, cfg)) as [d2 w2].
  cbn [fst snd] in *.
  destruct (apply_aliases_effect post d2 w2 Hwf2) as (_ & [c Hc] & _ & _ & Hother3 & _).
  unfold apply_aliases in Hc, Hother3. rewrite (Hother3 alias_key Hnpost).
  destruct (get (default "" (source cfg)) d1) as [l|] eqn:Eg.
  - destruct Hcase as (-> & Hheap2 & _). exists (length (heap w1)).
    split; [apply get_set_eq|]. rewrite Hc, Hheap2, <- app_assoc.
    unfold deref at 1. rewrite lookup_app_r by done. by rewrite Nat.sub_diag.
  - injection Hcase as -> _. by apply Hother1.
Qed.

(** X6: a run of [apply_aliases] keeps the catalog sound. If its keys are
    distinct, its references point into the heap and no two keys share a
    record, the same holds afterwards; no key is removed, and the log has
    grown by exactly one line per alias. *)
Theorem apply_aliases_keeps_catalog_sound (data : dict loc)
    (aliases : dict alias_cfg) (w : world) :
  dict_wf data -> store_wf (heap w) data -> NoDup (map snd data) ->
  let r := apply_aliases data aliases w in
  dict_wf (fst r)
  /\ store_wf (heap (snd r)) (fst r)
  /\ NoDup (map snd (fst r))
  /\ (forall k, In k (keys data) -> In k (keys (fst r)))
  /\ length (log (snd r)) = length (log w) + length aliases.
Proof.
  intros Hd Hwf Hns r. subst r.
  split; [|split; [by apply apply_aliases_effect|split; [by apply apply_aliases_no_sharing|]]].
  - clear Hwf Hns. unfold apply_aliases. revert data w Hd.
    induction aliases as [|[a cfg] aliases IH]; intros data w Hd; [done|].
    cbn [fold_left]. unfold apply_aliases_step at 2, deepcopy.
    destruct (get (default "" (source cfg)) data); apply IH; [by apply dict_wf_set | done].
  - clear Hd Hwf Hns. unfold apply_aliases. revert data w.
    induction aliases as [|[a cfg] aliases IH]; intros data w; [split; [done | simpl; lia]|].
    cbn [fold_left length]. unfold apply_aliases_step at 2 4, deepcopy.
    destruct (get (default "" (source cfg)) data);
      match goal with
      | |- context [fold_left _ _ (?d, ?w')] => destruct (IH d w') as [IHk IHl]
      end; (split; [|rewrite IHl; simpl; rewrite length_app; simpl; lia]).
    + intros k Hin. apply IHk. rewrite keys_set.
      destruct (mem a data); [done | apply in_app_iff; by left].
    + done.
Qed.

(** X7: aliases without chaining. When no alias takes another alias key
    (or its own) as its source, the outcome does not depend on the order
    of the aliases: an alias whose source is in the catalog ends with the
    value the source had at the start, an alias whose source is missing
    keeps whatever it held, all other keys keep their values, and a second
    run changes no value of the catalog. *)
Theorem apply_aliases_unchained (data : dict loc) (aliases : dict alias_cfg)
    (w : world) :
  dict_wf aliases ->
  store_wf (heap w) data ->
  (forall a cfg, In (a, cfg) aliases -> ~ In (default "" (source cfg)) (keys aliases)) ->
  let r := apply_aliases data aliases w in
  let before := denote (heap w) data in
  let after := denote (heap (snd r)) (fst r) in
  let again := apply_aliases (fst r) aliases (snd r) in
  (forall a cfg, In (a, cfg) aliases ->
     get a after = match get (default "" (source cfg)) before with
                   | Some v => Some v
                   | None => get a before
                   end)
  /\ (forall k, ~ In k (keys aliases) -> get k after = get k before)
  /\ (forall k, get k (denote (heap (snd again)) (fst again)) = get k after).
Proof.
  assert (Hone : forall data w, dict_wf aliases -> store_wf (heap w) data ->
    (forall a cfg, In (a, cfg) aliases -> ~ In (default "" (source cfg)) (keys aliases)) ->
    let r := apply_aliases data aliases w in
    (forall a cfg, In (a, cfg) aliases ->
       get a (denote (heap (snd r)) (fst r))
       = match get (default "" (source cfg)) (denote (heap w) data) with
         | Some v => Some v
         | None => get a (denote (heap w) data)
         end)
    /\ (forall k, ~ In k (keys aliases) ->
          get k (denote (heap (snd r)) (fst r)) = get k (denote (heap w) data))).
  { clear data w. intros data w Hnd Hwf Hun r. subst r. split.
    - intros a cfg Hin. destruct (in_split _ _ Hin) as (pre & post & Hsplit).
      pose proof (apply_aliases_at data pre a cfg post w) as Hat.
      rewrite <- Hsplit in Hat. specialize (Hat Hnd Hwf). cbn zeta in Hat.
      destruct (apply_aliases_effect pre data w Hwf) as (_ & [c Hc] & _ & _ & Hother1 & _).
      rewrite Hother1 in Hat.
      2:{ intros Hk. apply (Hun a cfg Hin). rewrite Hsplit. unfold keys in *.
          rewrite map_app. apply in_app_iff. by left. }
      rewrite !get_denote.
      destruct (get (default "" (source cfg)) data) as [l|] eqn:Eg; simpl.
      + destruct Hat as (l' & -> & Hl'). simpl. f_equal. rewrite Hl', Hc.
        apply deref_app. by apply (store_wf_get _ data (default "" (source cfg))).
      + rewrite Hat. destruct (get a data) as [l|] eqn:Ea; simpl; [|done]. f_equal.
        destruct (apply_aliases_effect aliases data w Hwf) as (_ & [c' Hc'] & _).
        rewrite Hc'. apply deref_app. by apply (store_wf_get _ data a).
    - intros k Hk.
      destruct (apply_aliases_effect aliases data w Hwf) as (_ & [c Hc] & _ & _ & Hother & _).
      rewrite !get_denote, Hother by done.
      destruct (get k data) as [l|] eqn:Ek; simpl; [|done]. f_equal.
      rewrite Hc. apply deref_app. by apply (store_wf_get _ data k). }
  intros Hnd Hwf Hun. cbv zeta.
  destruct (Hone data w Hnd Hwf Hun) as [Halias Hother].
  split; [done|]. split; [done|]. intros k.
  destruct (apply_aliases_effect aliases data w Hwf) as (Hwf' & _).
  destruct (Hone _ _ Hnd Hwf' Hun) as [Halias2 Hother2].
  destruct (in_dec string_dec k (keys aliases)) as [Hin|Hnot]; [|by apply Hother2].
  unfold keys in Hin. apply in_map_iff in Hin as ([a cfg] & Hk & Hin). simpl in Hk. subst a.
  rewrite (Halias2 k cfg Hin).
  rewrite (Hother (default "" (source cfg))) by (by apply (Hun k cfg)).
  rewrite (Halias k cfg Hin).
  by destruct (get (default "" (source cfg)) (denote (heap w) data)).
Qed.

(** ** The filler: a source value that is not a number *)

Lemma Decimal_of_value_rejects :
  (forall b, Decimal_of_value (JBool b) = Raise InvalidOperation)
  /\ (forall items, Decimal_of_value (JList items) = Raise InvalidOperation)
  /\ (forall fields, Decimal_of_value (JObj fields) = Raise InvalidOperation).
Proof. split; [by intros [] | by split]. Qed.

(** Some record the loop has to fill cannot be scaled: the loop raises. *)
Lemma fill_loop_raises prefix ratio items count w key l value cost_5m e0 :
  In (key, l) items -> startswith key prefix = true ->
  fillable (deref (heap w) l) = Some (value, cost_5m) ->
  scale_cost cost_5m ratio = Raise e0 ->
  exists e w', fill_loop prefix ratio items count w = (Raise e, w')
    /\ files w' = files w.
Proof.
  intros Hin Hpre Hfill Hscale.
  destruct (fill_loop prefix ratio items count w) as [r w'] eqn:E.
  destruct (fill_loop_effect _ _ _ _ _ _ _ E) as (modified & Heff & Hok).
  destruct r as [n|e]; [|exists e, w'; split; [done | apply Heff]].
  exfalso. destruct (Hok n eq_refl) as [_ Hdone].
  specialize (Hdone key l Hin Hpre).
  destruct (in_dec Nat.eq_dec l modified) as [Hmod|Hnot].
  - destruct (fe_filled _ _ _ _ _ _ Heff l Hmod) as (value' & cost' & f & Hf & Hs & _).
    rewrite Hfill in Hf. injection Hf as <- <-. congruence.
  - rewrite (deref_eq _ _ _ (fe_frame _ _ _ _ _ _ Heff l Hnot)) in Hdone. congruence.
Qed.

(** X8: a source value is never skipped for not being a number. If the
    rule is set and some record under a matching key is due to be filled
    (a dict whose source field is set and whose target field is missing or
    null) but [Decimal(str(.))] rejects its source value, as it does for a
    boolean, a list or a dict, then the call raises instead of returning a
    count; it writes no file. *)
Theorem fill_raises_on_non_numeric_source (data : dict loc) (cfg : auto_fill_cfg)
    (w : world) key l value cost_5m :
  (model_prefix cfg, ratio cfg) <> (None, None) ->
  In (key, l) data ->
  startswith key (rule_prefix (Some cfg)) = true ->
  fillable (deref (heap w) l) = Some (value, cost_5m) ->
  (match cost_5m with
   | JBool _ | JList _ | JObj _ => True
   | _ => Decimal_of_value cost_5m = Raise InvalidOperation
   end) ->
  exists e w',
    fill_cache_1hr_pricing data (Some cfg) w = (Raise e, w')
    /\ files w' = files w.
Proof.
  intros Hset Hin Hpre Hfill Hbad.
  assert (Hdec : Decimal_of_value cost_5m = Raise InvalidOperation).
  { destruct Decimal_of_value_rejects as (Hb & Hl & Ho). by destruct cost_5m. }
  assert (Hrun : fill_cache_1hr_pricing data (Some cfg) w
                 = fill_loop (rule_prefix (Some cfg)) (rule_ratio (Some cfg)) data 0 w).
  { destruct cfg as [[p|] [r|]]; try reflexivity. by destruct Hset. }
  rewrite Hrun.
  apply (fill_loop_raises _ _ _ _ _ key l value cost_5m InvalidOperation); try done.
  unfold scale_cost. by rewrite Hdec.
Qed.

(** ** Output: what a write does *)

Lemma all_chars_app p s t : all_chars p (s +:+ t) = all_chars p s && all_chars p t.
Proof.
  induction s as [|c s IH]; [done|].
  change (String c s +:+ t) with (String c (s +:+ t)). cbn [all_chars].
  by rewrite IH, andb_assoc.
Qed.

Lemma length_string_app s t : String.length (s +:+ t) = String.length s + String.length t.
Proof.
  induction s as [|c s IH]; [done|].
  change (String c s +:+ t) with (String c (s +:+ t)). simpl. by rewrite IH.
Qed.

Lemma hex_digit_lower n : (0 <= n < 16)%Z -> is_lower_hex (hex_digit n) = true.
Proof.
  intros Hn. rewrite <- (Z2Nat.id n) by lia.
  assert (Hlt : Z.to_nat n < 16) by lia. revert Hlt.
  generalize (Z.to_nat n) as k. intros k Hk.
  do 16 (destruct k as [|k]; [reflexivity|]). lia.
Qed.

Lemma hex_word_shape x :
  String.length (hex_word x) = 8 /\ all_chars is_lower_hex (hex_word x) = true.
Proof.
  unfold hex_word. cbn [seq fold_right all_chars String.length].
  rewrite !hex_digit_lower by (apply Z.mod_pos_bound; lia). done.
Qed.

Lemma sha_round_length st kw : length st = 8 -> length (sha_round st kw) = 8.
Proof.
  intros Hst. do 9 (destruct st as [|? st]; try discriminate). reflexivity.
Qed.

Lemma sha_block_length st block : length st = 8 -> length (sha_block st block) = 8.
Proof.
  intros Hst. unfold sha_block. rewrite length_map, length_combine.
  assert (Hfold : forall kws st0, length st0 = 8 ->
            length (fold_left sha_round kws st0) = 8).
  { induction kws as [|kw kws IH]; intros st0 H0; [done|].
    cbn [fold_left]. apply IH. by apply sha_round_length. }
  rewrite Hfold by done. lia.
Qed.

Lemma sha256_words_length msg : length (sha256_words msg) = 8.
Proof.
  unfold sha256_words. generalize (chunks 64 (length (sha_pad msg)) (sha_pad msg)).
  assert (H0 : length sha_H0 = 8) by reflexivity. revert H0.
  generalize sha_H0 as st. intros st Hst blocks. revert st Hst.
  induction blocks as [|b blocks IH]; intros st Hst; [done|].
  cbn [fold_left]. apply IH. by apply sha_block_length.
Qed.

Lemma hex_words_shape ws :
  String.length (fold_right (fun x s => hex_word x +:+ s) EmptyString ws)
  = 8 * length ws
  /\ all_chars is_lower_hex
       (fold_right (fun x s => hex_word x +:+ s) EmptyString ws) = true.
Proof.
  induction ws as [|x ws [IHl IHc]]; [done|]. cbn [fold_right length].
  destruct (hex_word_shape x) as [Hl Hc].
  rewrite length_string_app, all_chars_app, Hl, Hc, IHl, IHc. split; [lia | done].
Qed.

Lemma compute_hash_length json_bytes : String.length (compute_hash json_bytes) = 64.
Proof.
  unfold compute_hash, sha256_hexdigest.
  destruct (hex_words_shape (sha256_words (bytes_of json_bytes))) as [Hl _].
  by rewrite Hl, sha256_words_length.
Qed.

(** X9: the digest [compute_hash] returns is always 64 characters long and
    made of the characters [0-9a-f] only, whatever the bytes hashed. *)
Theorem compute_hash_is_64_hex (json_bytes : string) :
  String.length (compute_hash json_bytes) = 64
  /\ all_chars is_lower_hex (compute_hash json_bytes) = true.
Proof.
  split; [apply compute_hash_length|].
  unfold compute_hash, sha256_hexdigest. apply hex_words_shape.
Qed.

Lemma load_written_hash hash_path h (w : world) :
  no_space h = true ->
  get hash_path (files w) = Some (encode_utf8 (h +:+ String newline "")) ->
  load_existing_hash hash_path w = Some h.
Proof.
  intros Hh Hget. unfold load_existing_hash.
  rewrite Hget, decode_encode_utf8. simpl. f_equal. by apply strip_no_space_newline.
Qed.

(** X10: what a write does. When the digest of the serialized catalog is
    not the old hash, [write_output] returns [(True, digest)], leaves the
    hash file holding the digest and a newline and the data file holding
    the serialization (if the two paths differ), touches no other file and
    no record, and logs the two lines. The two files then agree: hashing
    the data file gives what [load_existing_hash] reads back. *)
Theorem write_output_writes_both_files (data : dict loc)
    (json_path hash_path old_hash : string) (w : world) :
  compute_hash (serialize (heap w) data) <> old_hash ->
  let new_hash := compute_hash (serialize (heap w) data) in
  let r := write_output data json_path hash_path old_hash w in
  fst r = (true, new_hash)
  /\ get hash_path (files (snd r)) = Some (encode_utf8 (new_hash +:+ String newline ""))
  /\ (json_path <> hash_path ->
      get json_path (files (snd r)) = Some (serialize (heap w) data))
  /\ (forall p, p <> json_path -> p <> hash_path ->
        get p (files (snd r)) = get p (files w))
  /\ (json_path <> hash_path ->
      option_map compute_hash (get json_path (files (snd r)))
      = load_existing_hash hash_path (snd r))
  /\ heap (snd r) = heap w
  /\ log (snd r) = log w ++ [OutputWritten json_path (len data); HashWritten hash_path].
Proof.
  intros Hne new_hash r. subst new_hash r. unfold write_output.
  destruct (String.eqb_spec (compute_hash (serialize (heap w) data)) old_hash) as [|_];
    [done|].
  cbn [fst snd emit write_file files heap log].
  assert (Hhash : get hash_path
            (set hash_path
               (encode_utf8 (compute_hash (serialize (heap w) data) +:+ String newline ""))
               (set json_path (serialize (heap w) data) (files w)))
          = Some (encode_utf8 (compute_hash (serialize (heap w) data) +:+ String newline "")))
    by apply get_set_eq.
  assert (Hjson : json_path <> hash_path ->
            get json_path
              (set hash_path
                 (encode_utf8 (compute_hash (serialize (heap w) data) +:+ String newline ""))
                 (set json_path (serialize (heap w) data) (files w)))
            = Some (serialize (heap w) data)).
  { intros Hp. rewrite get_set_ne by done. apply get_set_eq. }
  split; [done|]. split; [done|]. split; [done|]. split.
  { intros p Hj Hh. by rewrite !get_set_ne. }
  split; [|split; [done | by rewrite <- app_assoc]].
  intros Hp. rewrite (Hjson Hp). simpl. symmetry.
  apply load_written_hash; [apply sha256_hexdigest_no_space | done].
Qed.

(** X11: the first run always writes. With no hash file,
    [load_existing_hash] returns the empty string; no digest is empty, so
    [write_output] called with it reports a change, creates the hash file,
    and the digest it returns is what the next [load_existing_hash] reads. *)
Theorem write_output_first_run (data : dict loc) (json_path hash_path : string)
    (w : world) :
  get hash_path (files w) = None ->
  load_existing_hash hash_path w = Some ""
  /\ (let r := write_output data json_path hash_path "" w in
      fst (fst r) = true
      /\ mem hash_path (files (snd r)) = true
      /\ mem json_path (files (snd r)) = true
      /\ load_existing_hash hash_path (snd r) = Some (snd (fst r))).
Proof.
  intros Hnone. split; [unfold load_existing_hash; by rewrite Hnone|].
  cbn zeta. unfold write_output.
  destruct (String.eqb_spec (compute_hash (serialize (heap w) data)) "") as [Hempty|_].
  { pose proof (compute_hash_length (serialize (heap w) data)) as Hlen.
    rewrite Hempty in Hlen. discriminate. }
  cbn [fst snd emit write_file files heap log].
  split; [done|]. split; [unfold mem; by rewrite get_set_eq|]. split.
  - unfold mem. destruct (String.eqb_spec json_path hash_path) as [->|Hp];
      [by rewrite get_set_eq | by rewrite get_set_ne, get_set_eq].
  - apply load_written_hash; [apply sha256_hexdigest_no_space | apply get_set_eq].
Qed.

(** ** Custom models *)

Lemma get_dict_update {V} (record fields : dict V) f :
  dict_wf fields ->
  get f (dict_update record fields)
  = match get f fields with Some v => Some v | None => get f record end.
Proof.
  unfold dict_update, dict_wf. revert record.
  induction fields as [|[k v] fields IH]; intros record Hnd; [done|].
  simpl in Hnd. inversion Hnd as [|? ? Hnot Hnd']; subst.
  cbn [fold_left fst snd get]. rewrite IH by done.
  destruct (String.eqb_spec f k) as [->|Hne].
  - assert (Hnone : get k fields = None).
    { apply get_None_keys. intros Hin. apply Hnot. by apply list_elem_of_In. }
    by rewrite Hnone, get_set_eq.
  - rewrite get_set_ne by done. done.
Qed.

Lemma get_loc_in (d : dict loc) k l : get k d = Some l -> l ∈ map snd d.
Proof.
  intros Hget. apply list_elem_of_In, in_map_iff. exists (k, l).
  split; [done | by apply get_Some_In].
Qed.

Lemma no_sharing_inj (d : dict loc) k k' l :
  NoDup (map snd d) -> get k d = Some l -> get k' d = Some l -> k = k'.
Proof.
  induction d as [|[k0 l0] d IH]; [done|]. simpl. intros Hnd.
  inversion Hnd as [|? ? Hnot Hnd']; subst.
  destruct (String.eqb_spec k k0) as [->|Hk]; destruct (String.eqb_spec k' k0) as [->|Hk'];
    try done.
  - intros [= ->] Hget. exfalso. apply Hnot. by apply (get_loc_in d k').
  - intros Hget [= ->]. exfalso. apply Hnot. by apply (get_loc_in d k).
  - by apply IH.
Qed.

Lemma no_sharing_In (d : dict loc) k k' l :
  NoDup (map snd d) -> In (k, l) d -> In (k', l) d -> k = k'.
Proof.
  induction d as [|[k0 l0] d IH]; [done|]. simpl. intros Hnd.
  inversion Hnd as [|? ? Hnot Hnd']; subst.
  assert (Hl0 : forall k1, ~ In (k1, l0) d).
  { intros k1 Hin. apply Hnot. apply list_elem_of_In, in_map_iff. by exists (k1, l0). }
  intros [Heq|Hin] [Heq'|Hin'].
  - congruence.
  - injection Heq as -> ->. by destruct (Hl0 k').
  - injection Heq' as -> ->. by destruct (Hl0 k).
  - by apply IH.
Qed.

Lemma set_loc_in (d : dict loc) k l x :
  x ∈ map snd (set k l d) -> x = l \/ x ∈ map snd d.
Proof.
  rewrite !list_elem_of_In, !in_map_iff. intros ([k' l'] & Hx & Hin). simpl in Hx. subst l'.
  apply In_set in Hin as [[= _ ->]|Hin]; [by left|]. right. by exists (k', x).
Qed.

Lemma apply_custom_models_step_eq data w evs key value :
  apply_custom_models_step (data, w, evs) (key, value)
  = match get key data with
    | Some l =>
        match deref (heap w) l, deref (heap w) value with
        | JObj record, JObj fields =>
            (data,
             set_heap (<[l := JObj (dict_update record fields)]> (heap w)) w,
             evs ++ [CustomMerged key])
        | _, _ => (set key value data, w, evs ++ [CustomInjected key])
        end
    | None => (set key value data, w, evs ++ [CustomInjected key])
    end.
Proof. reflexivity. Qed.

(** One custom model: either the record at the key is updated in place, or
    the key is set to the custom object and the heap is as before. *)
Lemma apply_custom_models_step_cases data w evs key value :
  let r := apply_custom_models_step (data, w, evs) (key, value) in
  let old := option_map (deref (heap w)) (get key data) in
  files (snd (fst r)) = files w
  /\ length (snd r) = S (length evs)
  /\ ((exists l, get key data = Some l
         /\ fst (fst r) = data
         /\ heap (snd (fst r)) !! l = Some (custom_value old (deref (heap w) value))
         /\ forall l', l' <> l -> heap (snd (fst r)) !! l' = heap w !! l')
      \/ (fst (fst r) = set key value data
          /\ heap (snd (fst r)) = heap w
          /\ custom_value old (deref (heap w) value) = deref (heap w) value)).
Proof.
  cbn zeta. rewrite apply_custom_models_step_eq.
  destruct (get key data) as [l|] eqn:Eg; cbn [option_map].
  2:{ cbn. rewrite length_app. simpl. split; [done|]. split; [lia|]. right.
      split; [done|]. split; [done|]. unfold custom_value. by destruct (deref (heap w) value). }
  destruct (deref (heap w) l) as [| | | | | |record] eqn:El;
    try (cbn; rewrite length_app; simpl; split; [done|]; split; [lia|]; right;
         split; [done|]; split; [done|]; unfold custom_value;
         by destruct (deref (heap w) value)).
  destruct (deref (heap w) value) as [| | | | | |fields] eqn:Ev;
    try (cbn; rewrite length_app; simpl; split; [done|]; split; [lia|]; right; done).
  cbn [fst snd set_heap heap files]. rewrite length_app. simpl.
  split; [done|]. split; [lia|]. left. exists l.
  split; [done|]. split; [done|]. split.
  - apply list_lookup_insert_eq. apply deref_obj_lookup in El.
    by apply lookup_lt_Some in El.
  - intros l' Hl'. by apply list_lookup_insert_ne.
Qed.

Lemma set_same {V} (k : string) (v : V) (d : dict V) :
  get k d = Some v -> set k v d = d.
Proof.
  induction d as [|[k0 v0] d IH]; [done|]. simpl.
  destruct (String.eqb_spec k k0) as [->|Hne].
  - by intros [= ->].
  - intros Hget. by rewrite IH.
Qed.

(** The loop, from any state: location by location. The custom objects
    are distinct, and one that the catalog already refers to sits at its
    own key (as after an earlier run). *)
Lemma apply_custom_models_fold_gen (custom data : dict loc) w evs :
  dict_wf custom ->
  NoDup (map snd data) -> NoDup (map snd custom) ->
  (forall k c, In (k, c) custom -> c ∈ map snd data -> get k data = Some c) ->
  let r := fold_left apply_custom_models_step custom (data, w, evs) in
  (forall key c, In (key, c) custom ->
     exists l', get key (fst (fst r)) = Some l'
       /\ deref (heap (snd (fst r))) l'
          = custom_value (option_map (deref (heap w)) (get key data)) (deref (heap w) c))
  /\ (forall k, ~ In k (keys custom) -> get k (fst (fst r)) = get k data)
  /\ (forall l, (forall key, In key (keys custom) -> get key data <> Some l) ->
        heap (snd (fst r)) !! l = heap w !! l)
  /\ files (snd (fst r)) = files w
  /\ length (snd r) = length evs + length custom
  /\ NoDup (map snd (fst (fst r)))
  /\ (forall l, l ∈ map snd (fst (fst r)) ->
        l ∈ map snd data
        \/ exists k, In (k, l) custom /\ get k (fst (fst r)) = Some l).
Proof.
  revert data w evs.
  induction custom as [|[k0 c0] custom IH]; intros data w evs Hwf Hdata Hcust Hown;
    cbn zeta.
  { cbn. repeat split; try done; try lia. intros l Hl. by left. }
  unfold dict_wf in Hwf. simpl in Hwf, Hcust.
  inversion Hwf as [|? ? Hk0 Hwf']; subst.
  apply NoDup_cons in Hcust as [Hc0 Hcust].
  assert (Hk0' : ~ In k0 (keys custom)) by (by rewrite <- list_elem_of_In).
  cbn [fold_left].
  pose proof (apply_custom_models_step_cases data w evs k0 c0) as Hstep.
  cbn zeta in Hstep.
  destruct (apply_custom_models_step (data, w, evs) (k0, c0)) as [[d1 w1] evs1].
  cbn [fst snd] in Hstep. destruct Hstep as (Hfiles1 & Hlen1 & Hcase).
  (* what the first step leaves for the keys and objects it does not concern *)
  assert (Hget1 : forall k, k <> k0 -> get k d1 = get k data).
  { intros k Hk. destruct Hcase as [(l & _ & -> & _)|(-> & _)]; [done|].
    by apply get_set_ne. }
  assert (Hheap1 : forall l, get k0 data <> Some l -> heap w1 !! l = heap w !! l).
  { intros l Hl. destruct Hcase as [(l0 & Hl0 & _ & _ & Hframe)|(_ & -> & _)]; [|done].
    apply Hframe. intros ->. by apply Hl. }
  assert (Hd1 : NoDup (map snd d1)).
  { destruct Hcase as [(l & _ & -> & _)|(-> & _)]; [done|].
    destruct (decide (c0 ∈ map snd data)) as [Hin|Hnot].
    - rewrite set_same; [done|]. apply (Hown k0 c0); [by left | done].
    - apply no_sharing_set; [done | by rewrite <- list_elem_of_In]. }
  assert (Hown1 : forall k c, In (k, c) custom -> c ∈ map snd d1 -> get k d1 = Some c).
  { intros k c Hin Hc.
    assert (Hk : k <> k0).
    { intros ->. apply Hk0'. unfold keys. apply in_map_iff. by exists (k0, c). }
    assert (Hcc0 : c <> c0).
    { intros ->. apply Hc0. apply list_elem_of_In, in_map_iff. by exists (k, c0). }
    rewrite Hget1 by done. apply Hown; [by right|].
    destruct Hcase as [(l & _ & -> & _)|(-> & _)]; [done|].
    by apply set_loc_in in Hc as [?|?]. }
  specialize (IH d1 w1 evs1 Hwf' Hd1 Hcust Hown1). cbn zeta in IH.
  destruct IH as (IHa & IHb & IHc & IHf & IHl & IHe & IHg).
  split; [|split; [|split; [|split; [|split; [|split]]]]].
  - intros key c [[= -> ->]|Hin].
    + rewrite (IHb key Hk0').
      destruct Hcase as [(l & Hl & -> & Hval & _)|(-> & Hheap & Hval)].
      * exists l. split; [done|]. rewrite Hl in *. cbn [option_map] in *.
        unfold deref at 1. rewrite IHc, Hval; [done|].
        intros key' Hkey' Hl'. apply Hk0'.
        by rewrite (no_sharing_inj data key key' l Hdata Hl Hl').
      * exists c. split; [apply get_set_eq|]. rewrite Hval.
        unfold deref at 1 2. rewrite IHc, Hheap; [done|].
        intros key' Hkey' Hl'. rewrite Hget1 in Hl' by (by intros ->).
        apply Hk0'.
        assert (Hck : get key data = Some c).
        { apply Hown; [by left | by apply (get_loc_in data key')]. }
        by rewrite (no_sharing_inj data key key' c Hdata Hck Hl').
    + assert (Hkey : key <> k0).
      { intros ->. apply Hk0'. unfold keys. apply in_map_iff. by exists (k0, c). }
      destruct (IHa key c Hin) as (l' & Hl' & Hval). exists l'. split; [done|].
      rewrite Hval, (Hget1 key Hkey). f_equal.
      * destruct (get key data) as [l|] eqn:El; [|done]. cbn [option_map]. f_equal.
        apply deref_eq, Hheap1. intros Hl0. apply Hkey.
        by apply (no_sharing_inj data key k0 l).
      * apply deref_eq, Hheap1. intros Hl0. apply Hkey.
        assert (Hck : get key data = Some c).
        { apply Hown; [by right | by apply (get_loc_in data k0)]. }
        by apply (no_sharing_inj data key k0 c).
  - intros k Hk. rewrite IHb by (intros ?; apply Hk; by right).
    apply Hget1. intros ->. apply Hk. by left.
  - intros l Hl. rewrite IHc.
    + apply Hheap1. apply Hl. by left.
    + intros key Hkey. rewrite Hget1 by (by intros ->). apply Hl. by right.
  - congruence.
  - rewrite IHl, Hlen1. simpl. lia.
  - done.
  - intros l Hl. destruct (IHg l Hl) as [Hl1|(k & Hin & Hg)].
    + destruct Hcase as [(l0 & _ & -> & _)|(-> & _)]; [by left|].
      apply set_loc_in in Hl1 as [->|Hl1]; [|by left].
      right. exists k0. split; [by left|]. rewrite (IHb k0 Hk0'). apply get_set_eq.
    + right. exists k. split; [by right | done].
Qed.

(** The loop on custom objects that the catalog does not refer to. *)
Lemma apply_custom_models_fold (custom data : dict loc) w evs :
  dict_wf custom ->
  NoDup (map snd data ++ map snd custom) ->
  let r := fold_left apply_custom_models_step custom (data, w, evs) in
  (forall key c, In (key, c) custom ->
     exists l', get key (fst (fst r)) = Some l'
       /\ deref (heap (snd (fst r))) l'
          = custom_value (option_map (deref (heap w)) (get key data)) (deref (heap w) c))
  /\ (forall k, ~ In k (keys custom) -> get k (fst (fst r)) = get k data)
  /\ (forall l, (forall key, In key (keys custom) -> get key data <> Some l) ->
        heap (snd (fst r)) !! l = heap w !! l)
  /\ files (snd (fst r)) = files w
  /\ length (snd r) = length evs + length custom.
Proof.
  intros Hwf Hnd. apply NoDup_app in Hnd as (Hdata & Hdisj & Hcust).
  destruct (apply_custom_models_fold_gen custom data w evs Hwf Hdata Hcust)
    as (Ha & Hb & Hc & Hf & Hl & _); [|done].
  intros k c Hin Hc. exfalso. apply (Hdisj c Hc).
  apply list_elem_of_In, in_map_iff. by exists (k, c).
Qed.

(** X12: custom models have the last word, by a shallow update. For a
    catalog whose records are not shared, and custom objects of their own,
    [apply_custom_models] leaves at every key of [custom] the custom value,
    except that when the catalog held a dict there and the custom value is
    a dict, the record keeps its fields and takes every field of the custom
    value whole (a nested dict is replaced, not merged). Keys outside
    [custom] keep their values; no file is touched and one line is logged
    per custom model. *)
Theorem apply_custom_models_precedence (data custom : dict loc) (w : world) :
  dict_wf custom ->
  NoDup (map snd data ++ map snd custom) ->
  let r := apply_custom_models data custom w in
  let before := denote (heap w) data in
  let after := denote (heap (snd (fst r))) (fst (fst r)) in
  (forall k, get k after
     = match get k (denote (heap w) custom) with
       | Some value => Some (custom_value (get k before) value)
       | None => get k before
       end)
  /\ (forall record fields,
        dict_wf fields ->
        exists merged,
          custom_value (Some (JObj record)) (JObj fields) = JObj merged
          /\ forall f, get f merged
               = match get f fields with Some v => Some v | None => get f record end)
  /\ files (snd (fst r)) = files w
  /\ length (snd r) = length custom.
Proof.
  intros Hwf Hnd. cbv zeta. unfold apply_custom_models.
  destruct (apply_custom_models_fold custom data w [] Hwf Hnd) as (Ha & Hb & Hc & Hf & Hl).
  split; [|split; [|split; [done | done]]].
  - intros k. rewrite !get_denote.
    destruct (get k custom) as [c|] eqn:Ec; cbn [option_map].
    + destruct (Ha k c (get_Some_In _ _ _ Ec)) as (l' & -> & Hval). cbn [option_map].
      by rewrite Hval.
    + apply get_None_keys in Ec. rewrite (Hb k Ec).
      destruct (get k data) as [l|] eqn:El; [|done]. cbn [option_map]. f_equal.
      apply deref_eq, Hc. intros key Hkey Hl'. apply Ec.
      apply NoDup_app in Hnd as (Hdata & _).
      by rewrite (no_sharing_inj data k key l Hdata El Hl').
  - intros record fields Hfields. exists (dict_update record fields).
    split; [done|]. intros f. by apply get_dict_update.
Qed.

Lemma dict_update_again {V} (d fields : dict V) :
  (forall k v, In (k, v) fields -> get k d = Some v) -> dict_update d fields = d.
Proof.
  unfold dict_update. induction fields as [|[k v] fields IH]; intros Hall; [done|].
  cbn [fold_left fst snd]. rewrite set_same by (apply Hall; by left).
  apply IH. intros k' v' Hin. apply Hall. by right.
Qed.

Lemma custom_value_again old value :
  (forall fields, value = JObj fields -> dict_wf fields) ->
  custom_value (Some (custom_value old value)) value = custom_value old value.
Proof.
  intros Hwf.
  destruct value as [| | | | | |fields]; try (by destruct old as [[]|]).
  specialize (Hwf fields eq_refl).
  assert (Hself : dict_update fields fields = fields).
  { apply dict_update_again. intros k v Hin. by apply In_get_Some. }
  destruct old as [[| | | | | |record]|]; cbn; f_equal; try exact Hself.
  apply dict_update_again. intros k v Hin.
  by rewrite get_dict_update, (In_get_Some k v fields Hwf Hin).
Qed.

(** X13: applying the custom models again changes nothing. After a run of
    [apply_custom_models] on a catalog whose records are not shared, with
    custom objects of their own whose dicts have distinct keys, a second
    run with the same custom models leaves every value of the catalog as
    the first run left it. *)
Theorem apply_custom_models_idempotent (data custom : dict loc) (w : world) :
  dict_wf custom ->
  NoDup (map snd data ++ map snd custom) ->
  (forall k c fields, In (k, c) custom -> deref (heap w) c = JObj fields ->
     dict_wf fields) ->
  let r1 := apply_custom_models data custom w in
  let r2 := apply_custom_models (fst (fst r1)) custom (snd (fst r1)) in
  forall k, get k (denote (heap (snd (fst r2))) (fst (fst r2)))
            = get k (denote (heap (snd (fst r1))) (fst (fst r1))).
Proof.
  intros Hwf Hnd Hfields. cbv zeta. unfold apply_custom_models.
  apply NoDup_app in Hnd as (Hdata & Hdisj & Hcust).
  assert (Hapart : forall k c, In (k, c) custom -> c ∉ map snd data).
  { intros k c Hin Hc. apply (Hdisj c Hc). apply list_elem_of_In, in_map_iff.
    by exists (k, c). }
  destruct (apply_custom_models_fold_gen custom data w [] Hwf Hdata Hcust)
    as (A1 & B1 & C1 & _ & _ & E1 & F1).
  { intros k c Hin Hc. by destruct (Hapart k c Hin). }
  destruct (fold_left apply_custom_models_step custom (data, w, [])) as [[d1 w1] evs1].
  cbn [fst snd] in *.
  assert (Hown1 : forall k c, In (k, c) custom -> c ∈ map snd d1 -> get k d1 = Some c).
  { intros k c Hin Hc. destruct (F1 c Hc) as [Hcd|(k' & Hin' & Hg)].
    - by destruct (Hapart k c Hin).
    - by rewrite (no_sharing_In custom k k' c Hcust Hin Hin'). }
  destruct (apply_custom_models_fold_gen custom d1 w1 [] Hwf E1 Hcust Hown1)
    as (A2 & B2 & C2 & _).
  destruct (fold_left apply_custom_models_step custom (d1, w1, [])) as [[d2 w2] evs2].
  cbn [fst snd] in *. intros k. rewrite !get_denote.
  destruct (in_dec string_dec k (keys custom)) as [Hin|Hnot].
  - unfold keys in Hin. apply in_map_iff in Hin as ([k' c] & Heq & Hin). simpl in Heq.
    subst k'. destruct (A1 k c Hin) as (l1 & Hl1 & Hv1).
    destruct (A2 k c Hin) as (l2 & Hl2 & Hv2).
    rewrite Hl2, Hl1. cbn [option_map]. f_equal.
    rewrite Hv2, Hl1. cbn [option_map]. rewrite Hv1.
    assert (Hc1 : deref (heap w1) c = deref (heap w) c).
    { apply deref_eq, C1. intros key Hkey Hg. apply (Hapart k c Hin).
      by apply (get_loc_in data key). }
    rewrite Hc1. apply custom_value_again. intros fields Hf.
    by apply (Hfields k c fields).
  - rewrite (B2 k Hnot). destruct (get k d1) as [l|] eqn:El; [|done].
    cbn [option_map]. f_equal. apply deref_eq, C2. intros key Hkey Hg. apply Hnot.
    by rewrite (no_sharing_inj d1 k key l E1 El Hg).
Qed.

(** ** Loading the configuration *)

Lemma missing_keys_dict required fields :
  missing_keys required (JObj fields)
  = Ok (List.filter (fun k => negb (mem k fields)) required).
Proof.
  induction required as [|k required IH]; [done|].
  cbn [missing_keys py_in bind List.filter]. rewrite IH. cbn [bind].
  by destruct (mem k fields).
Qed.

Lemma filter_nil_forallb {A} (p : A -> bool) (l : list A) :
  List.filter (fun x => negb (p x)) l = [] <-> forallb p l = true.
Proof.
  induction l as [|x l IH]; [done|]. simpl.
  destruct (p x); simpl; [exact IH | split; discriminate].
Qed.

Lemma missing_keys_none required fields :
  missing_keys required (JObj fields) = Ok []
  <-> forallb (fun k => mem k fields) required = true.
Proof.
  rewrite missing_keys_dict, <- filter_nil_forallb.
  split; [congruence | by intros ->].
Qed.

Lemma py_eq_str v s : py_eq v (JStr s) = true <-> v = JStr s.
Proof.
  destruct v as [| b | z | f | s' | items | fields];
    try (split; [discriminate | done]); try (destruct b; split; [discriminate | done]).
  simpl. rewrite String.eqb_eq. split; [by intros -> | by intros [= ->]].
Qed.

Lemma is_sync_mode_spec mode :
  is_sync_mode mode = true <-> mode = JStr "additive" \/ mode = JStr "full".
Proof. unfold is_sync_mode. by rewrite orb_true_iff, !py_eq_str. Qed.

Lemma valid_config_spec cfg :
  valid_config cfg = true
  <-> exists fields mode,
        cfg = JObj fields
        /\ missing_keys REQUIRED_CONFIG_KEYS cfg = Ok []
        /\ get "sync_mode" fields = Some mode
        /\ is_sync_mode mode = true.
Proof.
  split.
  - destruct cfg as [| | | | | |fields]; try discriminate. unfold valid_config.
    rewrite andb_true_iff. intros [Hall Hmode].
    destruct (get "sync_mode" fields) as [[| | | |mode| |]|] eqn:Eg; try discriminate.
    exists fields, (JStr mode). split; [done|]. split; [|split; [done|]].
    + by apply missing_keys_none.
    + apply is_sync_mode_spec. apply orb_true_iff in Hmode as [->%String.eqb_eq| ->%String.eqb_eq];
        [by left | by right].
  - intros (fields & mode & -> & Hmiss & Hget & Hmode). unfold valid_config.
    apply missing_keys_none in Hmiss. rewrite Hmiss, Hget.
    apply is_sync_mode_spec in Hmode as [-> | ->]; reflexivity.
Qed.

(** X14: [load_config] returns exactly the configurations that pass the
    checks. It returns [cfg] if and only if the file exists, [json.load]
    gives [cfg], and [cfg] is an object that has the five required keys
    and whose [sync_mode] is the string [additive] or [full]; it then logs
    no error. With no file it exits with code 1; whenever it exits, the
    code is 1 and exactly one error line was logged; and it never fails
    with a [KeyError]. *)
Theorem load_config_validates (json_load : string -> result json)
    (path : string) (fs : dict string) :
  (forall cfg errors,
     load_config json_load path fs = (Returns cfg, errors)
     <-> (exists content,
            get path fs = Some content
            /\ json_load content = Ok cfg
            /\ valid_config cfg = true)
         /\ errors = [])
  /\ (get path fs = None ->
      load_config json_load path fs = (Exits 1, [ConfigNotFound path]))
  /\ (forall code errors,
        load_config json_load path fs = (Exits code, errors) ->
        code = 1%Z /\ length errors = 1)
  /\ (forall key errors,
        load_config json_load path fs <> (RaisesKeyError key, errors)).
Proof.
  unfold load_config. destruct (get path fs) as [content|] eqn:Efile.
  2:{ split; [|split; [done|split]].
      - intros cfg errors. split; [discriminate | by intros [(? & ? & _) _]].
      - by intros code errors [= <- <-].
      - discriminate. }
  destruct (json_load content) as [cfg0|e] eqn:Eload.
  2:{ split; [|split; [done|split]]; try discriminate.
      intros cfg errors. split; [discriminate|].
      intros [(c & [= <-] & Hc & _) _]. congruence. }
  assert (Hiff : forall cfg, (exists content0, Some content = Some content0
                    /\ json_load content0 = Ok cfg /\ valid_config cfg = true)
                 <-> cfg = cfg0 /\ valid_config cfg0 = true).
  { intros cfg. split.
    - intros (c & [= <-] & Hc & Hv). rewrite Eload in Hc. injection Hc as ->. done.
    - intros [-> Hv]. by exists content. }
  destruct (missing_keys REQUIRED_CONFIG_KEYS cfg0) as [[|k missing]|e] eqn:Emiss.
  - destruct cfg0 as [| | | |s|items|fields]; try (cbn in Emiss; discriminate Emiss).
    1-2: (split; [|split; [done|split]]; try discriminate Emiss;
          [intros cfg errors; rewrite Hiff; split;
             [intros [=] | intros [[_ Hv] _]; cbn in Hv; discriminate Hv]
          | intros code errors [=]
          | intros key errors [=] ]).
    destruct (get "sync_mode" fields) as [mode|] eqn:Eg.
    + destruct (is_sync_mode mode) eqn:Emode.
      * split; [|split; [done|split]]; try discriminate.
        intros cfg errors. rewrite Hiff. split.
        -- intros [= <- <-]. split; [|done]. split; [done|].
           apply valid_config_spec. by exists fields, mode.
        -- by intros [[-> _] ->].
      * split; [|split; [done|split]]; try discriminate.
        -- intros cfg errors. rewrite Hiff. split; [discriminate|].
           intros [[_ Hv] _]. apply valid_config_spec in Hv
             as (fields' & mode' & [= <-] & _ & Hg & Hm). congruence.
        -- by intros code errors [= <- <-].
    + exfalso. apply missing_keys_none in Emiss.
      assert (Hmem : mem "sync_mode" fields = true).
      { rewrite forallb_forall in Emiss. apply Emiss. unfold REQUIRED_CONFIG_KEYS.
        simpl. tauto. }
      unfold mem in Hmem. by rewrite Eg in Hmem.
  - split; [|split; [done|split]]; try discriminate.
    + intros cfg errors. rewrite Hiff. split; [discriminate|].
      intros [[_ Hv] _]. apply valid_config_spec in Hv
        as (fields' & mode' & _ & Hm & _). congruence.
    + by intros code errors [= <- <-].
  - split; [|split; [done|split]]; try discriminate.
    intros cfg errors. rewrite Hiff. split; [discriminate|].
    intros [[_ Hv] _]. apply valid_config_spec in Hv
      as (fields' & mode' & _ & Hm & _). congruence.
Qed.

(** ** The data file is plain ASCII *)

Section AsciiOutput.

Local Abbreviation text s := (all_chars is_json_text s = true).

Lemma text_substring n m s : text s -> text (String.substring n m s).
Proof.
  revert n m. induction s as [|c s IH]; intros n m Hs; [by destruct n, m|].
  cbn [all_chars] in Hs. apply andb_true_iff in Hs as [Hc Hs].
  destruct n as [|n]; [destruct m as [|m]; [done|] | by apply IH].
  cbn [String.substring all_chars]. by rewrite Hc, IH.
Qed.

Lemma text_uint d : text (NilEmpty.string_of_uint d).
Proof. induction d; simpl; by rewrite ?IHd. Qed.

Lemma text_str_N n : text (str_N n).
Proof.
  unfold str_N, NilZero.string_of_uint.
  destruct (N.to_uint n) eqn:E; [done | rewrite <- E; apply text_uint..].
Qed.

Lemma text_str_int z : text (str_int z).
Proof.
  unfold str_int, NilZero.string_of_int.
  destruct (Z.to_int z) as [d|d]; unfold NilZero.string_of_uint.
  - destruct d eqn:E; [done | rewrite <- E; apply text_uint..].
  - cbn [all_chars]. destruct d eqn:E; [done | rewrite <- E; apply text_uint..].
Qed.

Lemma text_zeros n : text (zeros n).
Proof. induction n; [done | by simpl]. Qed.

Lemma text_newline_indent level : text (newline_indent level).
Proof.
  unfold newline_indent. cbn [all_chars]. induction (2 * level) as [|n IH]; [done | by simpl].
Qed.

Lemma text_format_short ds decpt : text ds -> text (format_short ds decpt).
Proof.
  intros Hds. unfold format_short.
  repeat match goal with
         | |- context [if ?b then _ else _] => destruct b
         end;
    rewrite ?all_chars_app, ?text_substring, ?text_zeros, ?text_str_N, ?Hds by done;
    reflexivity.
Qed.

Lemma text_floatstr f : text (floatstr f).
Proof.
  destruct f as [[]|[]| |s m e]; try reflexivity.
  unfold floatstr, float_repr. destruct (shortest_digits m e) as [c j].
  rewrite all_chars_app, text_format_short by apply text_str_N. by destruct s.
Qed.

Lemma hex_digit_text n : (0 <= n < 16)%Z -> is_json_text (hex_digit n) = true.
Proof.
  intros Hn. pose proof (hex_digit_lower n Hn) as Hhex.
  unfold is_lower_hex, is_json_text in *. cbv zeta in *.
  destruct (Nat.leb_spec 48 (nat_of_ascii (hex_digit n)));
    destruct (Nat.leb_spec (nat_of_ascii (hex_digit n)) 57);
    destruct (Nat.leb_spec 97 (nat_of_ascii (hex_digit n)));
    destruct (Nat.leb_spec (nat_of_ascii (hex_digit n)) 102); try discriminate;
    destruct (Nat.leb_spec 32 (nat_of_ascii (hex_digit n)));
    destruct (Nat.leb_spec (nat_of_ascii (hex_digit n)) 126); try lia;
    by rewrite ?orb_true_r.
Qed.

Lemma text_escape_char c : text (escape_char c).
Proof.
  unfold escape_char. cbv zeta. pose proof (nat_ascii_bounded c) as Hb.
  repeat match goal with
         | |- context [if (?n =? ?k)%nat then _ else _] => destruct (Nat.eqb_spec n k)
         end; try reflexivity.
  destruct (Nat.ltb_spec (nat_of_ascii c) 32) as [Hlo|Hlo];
    destruct (Nat.ltb_spec 126 (nat_of_ascii c)) as [Hhi|Hhi]; cbn [orb all_chars].
  1-3: rewrite !hex_digit_text; [done|..];
       (split; [lia|]); try (apply Nat2Z.inj_lt with (m := 16));
       first [apply Nat.mod_upper_bound; lia | apply Nat.Div0.div_lt_upper_bound; lia].
  unfold is_json_text. cbv zeta.
  destruct (Nat.leb_spec 32 (nat_of_ascii c)); [|lia].
  destruct (Nat.leb_spec (nat_of_ascii c) 126); [|lia]. by rewrite orb_true_r.
Qed.

Lemma text_encode_basestring s : text (encode_basestring_ascii s).
Proof.
  unfold encode_basestring_ascii. cbn [all_chars]. rewrite all_chars_app.
  assert (Hesc : text (escape s)).
  { induction s as [|c s IH]; [done|]. cbn [escape].
    by rewrite all_chars_app, text_escape_char, IH. }
  by rewrite Hesc.
Qed.

Lemma text_join sep parts : text sep -> Forall (fun p => text p) parts -> text (join sep parts).
Proof.
  intros Hsep Hparts. induction Hparts as [|p parts Hp _ IH]; [done|].
  destruct parts as [|q parts]; [done|].
  change (join sep (p :: q :: parts)) with (p +:+ sep +:+ join sep (q :: parts)).
  by rewrite !all_chars_app, Hp, Hsep, IH.
Qed.

Lemma text_dumps_at v : forall level, text (dumps_at level v).
Proof.
  induction v as [|[]|z|f|s|items IH|fields IH] using json_nested_ind; intros level;
    try reflexivity.
  - apply text_str_int.
  - apply text_floatstr.
  - apply text_encode_basestring.
  - rewrite dumps_at_list. destruct items as [|x items]; [done|].
    rewrite !all_chars_app, !text_newline_indent, text_join; [done | |].
    + by rewrite all_chars_app, text_newline_indent.
    + apply Forall_map. eapply Forall_impl; [exact IH|]. intros y Hy. apply Hy.
  - rewrite dumps_at_obj. destruct fields as [|kx fields]; [done|].
    rewrite !all_chars_app, !text_newline_indent, text_join; [done | |].
    + by rewrite all_chars_app, text_newline_indent.
    + apply Forall_map. rewrite sorted_items_perm. apply Forall_map.
      eapply Forall_impl; [exact IH|]. intros [k y] Hy. cbn [fst snd] in *.
      by rewrite !all_chars_app, text_encode_basestring, Hy.
Qed.

Lemma encode_utf8_text s : text s -> encode_utf8 s = s.
Proof.
  induction s as [|c s IH]; [done|]. cbn [all_chars encode_utf8].
  intros [Hc Hs]%andb_true_iff. rewrite (IH Hs).
  unfold is_json_text in Hc. cbv zeta in Hc.
  destruct (Nat.ltb_spec (nat_of_ascii c) 128) as [|Hge]; [done|].
  destruct (Nat.eqb_spec (nat_of_ascii c) 10); [lia|].
  destruct (Nat.leb_spec (nat_of_ascii c) 126); [lia|].
  by rewrite andb_false_r in Hc.
Qed.

End AsciiOutput.

(** X15: the data file is plain ASCII. Whatever the catalog holds, every
    byte [write_output] hashes and writes is a line feed or a printable
    ASCII character (code 32 to 126): [json.dumps] escapes everything
    else, so the UTF-8 encoding changes nothing and the text ends with the
    closing brace and one line feed. *)
Theorem serialize_is_ascii (h : list json) (data : dict loc) :
  all_chars is_json_text (serialize h data) = true
  /\ serialize h data = dumps (JObj (denote h data)) +:+ String newline "".
Proof.
  assert (Htext : all_chars is_json_text
                    (dumps (JObj (denote h data)) +:+ String newline "") = true).
  { rewrite all_chars_app. unfold dumps. by rewrite text_dumps_at. }
  unfold serialize. by rewrite encode_utf8_text.
Qed.

(** ** The run: what an additive sync leaves alone *)

Lemma apply_aliases_files aliases (data : dict loc) w :
  files (snd (apply_aliases data aliases w)) = files w.
Proof.
  unfold apply_aliases. revert data w.
  induction aliases as [|[a cfg] aliases IH]; intros data w; [done|].
  cbn [fold_left].
  pose proof (apply_aliases_step_effect data w a cfg) as Hstep. cbn zeta in Hstep.
  destruct Hstep as (Hfiles & _).
  destruct (apply_aliases_step (data, w) (a, cfg)) as [d1 w1]. cbn [snd] in Hfiles.
  by rewrite IH.
Qed.

Lemma apply_aliases_dict_wf aliases (data : dict loc) w :
  dict_wf data -> dict_wf (fst (apply_aliases data aliases w)).
Proof.
  unfold apply_aliases. revert data w.
  induction aliases as [|[a cfg] aliases IH]; intros data w Hd; [done|].
  cbn [fold_left]. unfold apply_aliases_step at 2, deepcopy.
  destruct (get (default "" (source cfg)) data); apply IH; [by apply dict_wf_set | done].
Qed.

Lemma apply_aliases_keys aliases (data : dict loc) w k :
  In k (keys data) -> In k (keys (fst (apply_aliases data aliases w))).
Proof.
  unfold apply_aliases. revert data w.
  induction aliases as [|[a cfg] aliases IH]; intros data w Hin; [done|].
  cbn [fold_left]. unfold apply_aliases_step at 2, deepcopy.
  destruct (get (default "" (source cfg)) data); apply IH; [|done].
  rewrite keys_set. destruct (mem a data); [done | apply in_app_iff; by left].
Qed.

(** Setting a key to an object taken from a list of objects the catalog
    does not share keeps the catalog and the rest of the list apart. *)
Lemma no_sharing_set_from (d : dict loc) k c (rest : list loc) :
  NoDup (map snd d ++ c :: rest) -> NoDup (map snd (set k c d) ++ rest).
Proof.
  intros Hnd. apply NoDup_app in Hnd as (Hd & Hdisj & Hrest).
  apply NoDup_cons in Hrest as [Hc Hrest].
  apply NoDup_app. split; [|split; [|done]].
  - apply no_sharing_set; [done|]. rewrite <- list_elem_of_In.
    intros Hin. apply (Hdisj c Hin). left.
  - intros x Hx Hin. apply set_loc_in in Hx as [->|Hx]; [done|].
    apply (Hdisj x Hx). by right.
Qed.

Lemma NoDup_drop_mid {A} (l1 l2 : list A) x : NoDup (l1 ++ x :: l2) -> NoDup (l1 ++ l2).
Proof.
  intros Hnd. apply NoDup_app in Hnd as (H1 & Hdisj & H2).
  apply NoDup_cons in H2 as [_ H2]. apply NoDup_app. split; [done|]. split; [|done].
  intros y Hy Hin. apply (Hdisj y Hy). by right.
Qed.

Lemma merge_fold_no_sharing (ne : loc -> loc -> bool) upd (filtered merged : dict loc)
    st (rest : list loc) :
  NoDup (map snd merged ++ map snd filtered ++ rest) ->
  NoDup (map snd (fst (fold_left (merge_step ne upd) filtered (merged, st))) ++ rest).
Proof.
  revert merged st. induction filtered as [|[k v] filtered IH]; intros merged st Hnd; [done|].
  cbn [fold_left]. rewrite merge_step_eq. simpl in Hnd.
  destruct (get k merged) as [old|]; [destruct (upd && ne old v)|]; apply IH;
    first [by apply no_sharing_set_from | by apply NoDup_drop_mid in Hnd].
Qed.

Lemma merge_fold_store_wf (ne : loc -> loc -> bool) upd h (filtered merged : dict loc) st :
  store_wf h merged -> store_wf h filtered ->
  store_wf h (fst (fold_left (merge_step ne upd) filtered (merged, st))).
Proof.
  revert merged st. induction filtered as [|[k v] filtered IH]; intros merged st Hm Hf; [done|].
  cbn [fold_left]. rewrite merge_step_eq.
  unfold store_wf in Hf. apply Forall_cons in Hf as [Hv Hf]. simpl in Hv.
  destruct (get k merged) as [old|]; [destruct (upd && ne old v)|]; apply IH;
    first [done | by apply store_wf_set].
Qed.

Lemma merge_fold_dict_wf {V} (ne : V -> V -> bool) upd (filtered merged : dict V) st :
  dict_wf merged -> dict_wf (fst (fold_left (merge_step ne upd) filtered (merged, st))).
Proof.
  revert merged st. induction filtered as [|[k v] filtered IH]; intros merged st Hm; [done|].
  cbn [fold_left]. rewrite merge_step_eq.
  destruct (get k merged) as [old|]; [destruct (upd && ne old v)|]; apply IH;
    first [done | by apply dict_wf_set].
Qed.

Lemma filter_locs (keep : string * loc -> bool) (upstream : dict loc) :
  sublist (map snd (List.filter keep upstream)) (map snd upstream).
Proof.
  induction upstream as [|kv upstream IH]; simpl; [constructor|].
  destruct (keep kv); simpl; [by apply sublist_skip | by apply sublist_cons].
Qed.

Lemma store_wf_filter h (keep : string * loc -> bool) (upstream : dict loc) :
  store_wf h upstream -> store_wf h (List.filter keep upstream).
Proof.
  unfold store_wf. rewrite !Forall_forall. intros Hwf kl Hin.
  apply Hwf. apply list_elem_of_In. apply list_elem_of_In in Hin.
  by apply filter_In in Hin as [].
Qed.

(** The steps of [build_catalog], one after the other. *)
Lemma build_catalog_steps config (existing upstream : dict loc) w :
  let filtered := filter_upstream upstream (cfg_filter config) in
  let m := merge_models (py_ne_at (heap w)) existing filtered (cfg_sync_mode config)
             (default false (cfg_update_existing config)) in
  let a := apply_aliases (fst m) (cfg_aliases config) w in
  let f := fill_cache_1hr_pricing (fst a) (cfg_cache_1hr_auto_fill config) (snd a) in
  let c := apply_custom_models (fst a) (cfg_custom_models config) (snd f) in
  build_catalog config existing upstream w
  = match fst f with
    | Raise e => (Raise e, snd f)
    | Ok n =>
        (Ok {| built_catalog := fst (fst c); built_stats := snd m;
               built_filled := n; built_custom_log := snd c |},
         snd (fst c))
    end.
Proof.
  cbv zeta. unfold build_catalog.
  destruct (merge_models _ existing _ _ _) as [merged stats]. cbn [fst snd].
  generalize (cfg_aliases config) as aliases. intros aliases.
  assert (Ha : match aliases with
               | [] => (merged, w)
               | a :: rest => apply_aliases merged (a :: rest) w
               end = apply_aliases merged aliases w)
    by (by destruct aliases).
  rewrite Ha. clear Ha.
  destruct (apply_aliases merged aliases w) as [d2 w2]. cbn [fst snd].
  destruct (fill_cache_1hr_pricing d2 (cfg_cache_1hr_auto_fill config) w2) as [[n|e] w3];
    cbn [fst snd]; [|done].
  generalize (cfg_custom_models config) as custom. intros custom.
  assert (Hc : match custom with
               | [] => (d2, w3, [])
               | c :: rest => apply_custom_models d2 (c :: rest) w3
               end = apply_custom_models d2 custom w3)
    by (by destruct custom).
  rewrite Hc. clear Hc.
  by destruct (apply_custom_models d2 custom w3) as [[d4 w4] evs].
Qed.

(** X16: an additive run keeps the models it has no reason to touch. When
    [sync_mode] is not [full] and steps 4 to 8 return, every key of the
    existing catalog is still in the catalog handed to the writer; and a
    model keeps its value exactly when nothing applies to it: its key is
    not in the upstream selection (or [update_existing] is off), is no
    alias and no custom model, and the auto-fill rule is absent, does not
    match the key, or finds nothing to fill in the record. The catalogs
    are dicts whose objects lie in the heap and are not shared. *)
Theorem build_catalog_additive_keeps_models (config : sync_config)
    (existing upstream : dict loc) (w : world) (b : built) (w' : world) :
  cfg_sync_mode config <> "full" ->
  dict_wf existing -> dict_wf upstream -> dict_wf (cfg_custom_models config) ->
  store_wf (heap w) existing -> store_wf (heap w) upstream ->
  store_wf (heap w) (cfg_custom_models config) ->
  NoDup (map snd existing ++ map snd upstream ++ map snd (cfg_custom_models config)) ->
  build_catalog config existing upstream w = (Ok b, w') ->
  forall k v,
    get k (denote (heap w) existing) = Some v ->
    In k (keys (built_catalog b))
    /\ (get k (filter_upstream upstream (cfg_filter config)) = None
          \/ default false (cfg_update_existing config) = false ->
        ~ In k (keys (cfg_aliases config)) ->
        ~ In k (keys (cfg_custom_models config)) ->
        cfg_cache_1hr_auto_fill config = None
          \/ startswith k (rule_prefix (cfg_cache_1hr_auto_fill config)) = false
          \/ fillable v = None ->
        get k (denote (heap w') (built_catalog b)) = Some v).
Proof.
  intros Hmode Hex Hup Hcu Hs1 Hs2 Hs3 Hnd Hrun k v Hk.
  rewrite build_catalog_steps in Hrun. cbv zeta in Hrun.
  (* 4. the upstream selection *)
  assert (Hfeq : filter_upstream upstream (cfg_filter config)
                 = List.filter (fun kv => filter_keeps (prefix_filters (cfg_filter config))
                     (default [] (exclude_patterns (cfg_filter config))) (fst kv)) upstream)
    by (by apply filter_upstream_filter).
  set (filtered := filter_upstream upstream (cfg_filter config)) in *.
  assert (Hfwf : dict_wf filtered) by (rewrite Hfeq; by apply dict_wf_filter).
  assert (Hfs : store_wf (heap w) filtered) by (rewrite Hfeq; by apply store_wf_filter).
  assert (Hfl : sublist (map snd filtered) (map snd upstream))
    by (rewrite Hfeq; apply filter_locs).
  (* 5. the merge *)
  set (upd := default false (cfg_update_existing config)) in *.
  set (st0 := {| added := 0; updated := 0; unchanged := 0;
                 total_upstream := len filtered |}).
  assert (Hm : merge_models (py_ne_at (heap w)) existing filtered (cfg_sync_mode config) upd
               = fold_left (merge_step (py_ne_at (heap w)) upd) filtered (existing, st0)).
  { unfold merge_models. by destruct (String.eqb_spec (cfg_sync_mode config) "full"). }
  rewrite Hm in Hrun. clear Hm.
  destruct (merge_fold_update (py_ne_at (heap w)) upd filtered existing st0 Hfwf)
    as (Mkeys & Mget & _).
  pose proof (merge_fold_dict_wf (py_ne_at (heap w)) upd filtered existing st0 Hex) as Mwf.
  pose proof (merge_fold_store_wf (py_ne_at (heap w)) upd (heap w) filtered existing st0
                Hs1 Hfs) as Mswf.
  assert (Mnd : NoDup (map snd (fst (fold_left (merge_step (py_ne_at (heap w)) upd)
                                       filtered (existing, st0)))
                       ++ map snd (cfg_custom_models config))).
  { apply merge_fold_no_sharing. eapply sublist_NoDup; [exact Hnd|].
    apply sublist_app; [done|]. by apply sublist_app. }
  destruct (fold_left (merge_step (py_ne_at (heap w)) upd) filtered (existing, st0))
    as [merged stats1]. cbn [fst snd] in *.
  apply NoDup_app in Mnd as (Mns & Mdisj & Cns).
  (* 6. the aliases *)
  destruct (apply_aliases_effect (cfg_aliases config) merged w Mswf)
    as (Awf & [copies Aheap] & _ & _ & Aother & Aown).
  pose proof (apply_aliases_no_sharing (cfg_aliases config) merged w Mswf Mns) as Ans.
  pose proof (apply_aliases_dict_wf (cfg_aliases config) merged w Mwf) as Adwf.
  pose proof (fun k => apply_aliases_keys (cfg_aliases config) merged w k) as Akeys.
  destruct (apply_aliases merged (cfg_aliases config) w) as [d2 w2]. cbn [fst snd] in *.
  (* 7. the filler *)
  destruct (fill_cache_1hr_pricing d2 (cfg_cache_1hr_auto_fill config) w2)
    as [[n|e] w3] eqn:Ef; cbn [fst snd] in Hrun; [|discriminate].
  destruct (fill_cache_effect _ _ _ _ _ Ef) as (modified & Feff & _).
  (* 8. the custom models *)
  assert (Cnd : NoDup (map snd d2 ++ map snd (cfg_custom_models config))).
  { apply NoDup_app. split; [done|]. split; [|done]. intros c Hc2 Hcc.
    apply list_elem_of_In, in_map_iff in Hc2 as ([k' c'] & Heq & Hin). simpl in Heq. subst c'.
    pose proof (In_get_Some k' c d2 Adwf Hin) as Hget.
    assert (Hlt : c < length (heap w)).
    { apply list_elem_of_In, in_map_iff in Hcc as ([kc c'] & Heq & Hinc).
      simpl in Heq. subst c'. unfold store_wf in Hs3. rewrite Forall_forall in Hs3.
      apply list_elem_of_In in Hinc. exact (Hs3 _ Hinc). }
    assert (Hvac : forall owner k0, get k0 merged = Some c -> k0 = owner).
    { intros owner k0 Hk0. exfalso. apply (Mdisj c); [by apply (get_loc_in merged k0) | done]. }
    pose proof (Aown c "" Hlt (Hvac "") k' Hget) as H1.
    pose proof (Aown c "a" Hlt (Hvac "a") k' Hget) as H2. congruence. }
  destruct (apply_custom_models_fold (cfg_custom_models config) d2 w3 [] Hcu Cnd)
    as (Ca & Cb & Cc & _).
  unfold apply_custom_models in Hrun.
  destruct (fold_left apply_custom_models_step (cfg_custom_models config) (d2, w3, []))
    as [[d4 w4] evs]. cbn [fst snd] in *. injection Hrun as <- <-. cbn [built_catalog].
  (* the model at [k] *)
  rewrite get_denote in Hk. destruct (get k existing) as [l|] eqn:El; [|discriminate].
  injection Hk as <-.
  assert (Hk2 : In k (keys d2)).
  { apply Akeys. rewrite Mkeys. apply in_app_iff. left.
    unfold keys. apply in_map_iff. exists (k, l). split; [done | by apply get_Some_In]. }
  split.
  - destruct (in_dec string_dec k (keys (cfg_custom_models config))) as [Hin|Hnot].
    + unfold keys in Hin. apply in_map_iff in Hin as ([k' c] & Heq & Hin). simpl in Heq.
      subst k'. destruct (Ca k c Hin) as (l' & Hl' & _).
      apply mem_true_iff. unfold mem. by rewrite Hl'.
    + apply mem_true_iff. unfold mem. rewrite (Cb k Hnot).
      apply mem_true_iff in Hk2. exact Hk2.
  - intros Hleft Hna Hnc Hrule.
    assert (Hg1 : get k merged = Some l).
    { rewrite Mget, El. destruct Hleft as [-> | ->]; [done|].
      by destruct (get k filtered). }
    assert (Hg2 : get k d2 = Some l) by (by rewrite Aother).
    assert (Hl : l < length (heap w)) by (by apply (store_wf_get _ existing k)).
    assert (Hh2 : deref (heap w2) l = deref (heap w) l)
      by (rewrite Aheap; by apply deref_app).
    assert (Hh3 : heap w3 !! l = heap w2 !! l).
    { destruct Hrule as [Hnone|Hrule].
      - rewrite Hnone in Ef. cbn in Ef. by injection Ef as _ <-.
      - apply (fe_frame _ _ _ _ _ _ Feff). intros Hmod.
        destruct (fe_key _ _ _ _ _ _ Feff l Hmod) as (key & Hin & Hpre).
        destruct (fe_filled _ _ _ _ _ _ Feff l Hmod) as (value & cost & f & Hfill & _).
        assert (key = k) as ->
          by (apply (no_sharing_In d2 key k l Ans Hin); by apply get_Some_In).
        destruct Hrule as [Hno|Hno]; [congruence|].
        rewrite Hh2 in Hfill. congruence. }
    assert (Hh4 : heap w4 !! l = heap w3 !! l).
    { apply Cc. intros key Hkey Hg. apply Hnc.
      by rewrite (no_sharing_inj d2 k key l Ans Hg2 Hg). }
    rewrite get_denote, (Cb k Hnc), Hg2. cbn [option_map]. f_equal.
    rewrite <- Hh2. apply deref_eq. by rewrite Hh4.
Qed.

Lemma apply_custom_models_files (data custom : dict loc) w :
  files (snd (fst (apply_custom_models data custom w))) = files w.
Proof.
  unfold apply_custom_models. generalize (@nil custom_event) as evs. revert data w.
  induction custom as [|[k c] custom IH]; intros data w evs; [done|].
  cbn [fold_left].
  pose proof (apply_custom_models_step_cases data w evs k c) as Hstep. cbn zeta in Hstep.
  destruct Hstep as (Hfiles & _).
  destruct (apply_custom_models_step (data, w, evs) (k, c)) as [[d1 w1] evs1].
  cbn [fst snd] in Hfiles. by rewrite IH.
Qed.

Lemma build_catalog_files config (existing upstream : dict loc) w r w' :
  build_catalog config existing upstream w = (r, w') -> files w' = files w.
Proof.
  rewrite build_catalog_steps. cbv zeta.
  set (m := merge_models _ existing _ _ _).
  pose proof (apply_aliases_files (cfg_aliases config) (fst m) w) as Ha.
  destruct (apply_aliases (fst m) (cfg_aliases config) w) as [d2 w2]. cbn [fst snd] in *.
  destruct (fill_cache_1hr_pricing d2 (cfg_cache_1hr_auto_fill config) w2)
    as [r3 w3] eqn:Ef.
  destruct (fill_cache_effect _ _ _ _ _ Ef) as (modified & Feff & _).
  pose proof (fe_files _ _ _ _ _ _ Feff) as Hf. cbn [fst snd].
  destruct r3 as [n|e].
  - pose proof (apply_custom_models_files d2 (cfg_custom_models config) w3) as Hc.
    intros [= _ <-]. congruence.
  - intros [= _ <-]. congruence.
Qed.

(** X17: the run writes files in its last step only. If the filler raises,
    the run raises and no file has changed. If the run returns, the hash
    it prints is the digest of the serialized catalog of steps 4 to 8,
    [CHANGED] is true exactly when that digest differs from the stored
    hash, no file has changed when it is false, and when it is true the
    hash file reads back as the printed hash. *)
Theorem main_steps_writes_last (config : sync_config) (existing upstream : dict loc)
    (output_path hash_path old_hash : string) (w : world) :
  let r := main_steps config existing upstream output_path hash_path old_hash w in
  (forall e w', r = (Raise e, w') ->
     files w' = files w
     /\ build_catalog config existing upstream w = (Raise e, w'))
  /\ (forall rep w', r = (Ok rep, w') ->
        exists b w1,
          build_catalog config existing upstream w = (Ok b, w1)
          /\ rep_hash rep = compute_hash (serialize (heap w1) (built_catalog b))
          /\ rep_changed rep = negb (String.eqb (rep_hash rep) old_hash)
          /\ rep_total rep = len (built_catalog b)
          /\ rep_stats rep = built_stats b
          /\ rep_filled rep = built_filled b
          /\ heap w' = heap w1
          /\ (rep_changed rep = false -> files w' = files w)
          /\ (rep_changed rep = true ->
              load_existing_hash hash_path w' = Some (rep_hash rep))).
Proof.
  cbv zeta. unfold main_steps.
  destruct (build_catalog config existing upstream w) as [[b|e] w1] eqn:Eb.
  2:{ split; [|discriminate]. intros e' w' [= <- <-].
      split; [by apply (build_catalog_files _ _ _ _ _ _ Eb) | done]. }
  split; [unfold write_output; by destruct (String.eqb _ old_hash)|].
  intros rep w' Hrep. exists b, w1. split; [done|].
  pose proof (build_catalog_files _ _ _ _ _ _ Eb) as Hfiles.
  unfold write_output in Hrep.
  destruct (String.eqb (compute_hash (serialize (heap w1) (built_catalog b))) old_hash)
    eqn:Eh; injection Hrep as <- <-;
    cbn [rep_hash rep_changed rep_total rep_stats rep_filled heap files emit write_file];
    rewrite Eh; repeat split; try done.
  intros _. apply load_written_hash; [apply sha256_hexdigest_no_space | apply get_set_eq].
Qed.

(** ** The run: where the keys of the output come from *)

Lemma filter_fold_keys_from {V} prefixes excludes (data filtered : dict V) k :
  In k (keys (fold_left (filter_step prefixes excludes) data filtered)) ->
  In k (keys filtered)
  \/ (In k (keys data) /\ filter_keeps prefixes excludes k = true).
Proof.
  revert filtered. induction data as [|[k0 v0] data IH]; intros filtered Hin; [by left|].
  cbn [fold_left] in Hin. rewrite filter_step_keeps in Hin.
  destruct (filter_keeps prefixes excludes k0) eqn:Ekeep.
  - apply IH in Hin as [Hin|[Hin Hk]]; [|right; split; [by right | done]].
    rewrite keys_set in Hin. destruct (mem k0 filtered); [by left|].
    apply in_app_iff in Hin as [Hin|[<-|[]]]; [by left|].
    right. split; [by left | done].
  - apply IH in Hin as [Hin|[Hin Hk]]; [by left|]. right. split; [by right | done].
Qed.

Lemma merge_fold_keys_from {V} (ne : V -> V -> bool) upd (filtered merged : dict V) st k :
  In k (keys (fst (fold_left (merge_step ne upd) filtered (merged, st)))) ->
  In k (keys merged) \/ In k (keys filtered).
Proof.
  revert merged st. induction filtered as [|[k0 v0] filtered IH]; intros merged st Hin;
    [by left|].
  cbn [fold_left] in Hin. rewrite merge_step_eq in Hin.
  assert (Hset : In k (keys (set k0 v0 merged)) -> In k (keys merged) \/ k0 = k).
  { rewrite keys_set. destruct (mem k0 merged); [by left|].
    intros [?|[<-|[]]]%in_app_iff; [by left | by right]. }
  destruct (get k0 merged) as [old|]; [destruct (upd && ne old v0)|];
    apply IH in Hin as [Hin|Hin]; try (right; by right); try (by left);
    apply Hset in Hin as [Hin|Hin]; [by left | right; by left | by left | right; by left].
Qed.

Lemma apply_aliases_keys_from aliases (data : dict loc) w k :
  In k (keys (fst (apply_aliases data aliases w))) ->
  In k (keys data) \/ In k (keys aliases).
Proof.
  unfold apply_aliases. revert data w.
  induction aliases as [|[a cfg] aliases IH]; intros data w Hin; [by left|].
  cbn [fold_left] in Hin. unfold apply_aliases_step at 2, deepcopy in Hin.
  destruct (get (default "" (source cfg)) data);
    apply IH in Hin as [Hin|Hin]; try (right; by right); [|by left].
  rewrite keys_set in Hin. destruct (mem a data); [by left|].
  apply in_app_iff in Hin as [Hin|[<-|[]]]; [by left | right; by left].
Qed.

Lemma apply_custom_models_keys_from (custom data : dict loc) w evs k :
  In k (keys (fst (fst (fold_left apply_custom_models_step custom (data, w, evs))))) ->
  In k (keys data) \/ In k (keys custom).
Proof.
  revert data w evs. induction custom as [|[k0 c0] custom IH]; intros data w evs Hin;
    [by left|].
  cbn [fold_left] in Hin.
  pose proof (apply_custom_models_step_cases data w evs k0 c0) as Hstep. cbn zeta in Hstep.
  destruct Hstep as (_ & _ & Hcase).
  destruct (apply_custom_models_step (data, w, evs) (k0, c0)) as [[d1 w1] evs1].
  cbn [fst snd] in Hcase.
  apply IH in Hin as [Hin|Hin]; [|right; by right].
  destruct Hcase as [(l & _ & -> & _)|(-> & _)]; [by left|].
  rewrite keys_set in Hin. destruct (mem k0 data); [by left|].
  apply in_app_iff in Hin as [Hin|[<-|[]]]; [by left | right; by left].
Qed.

(** X18: the run never invents a model. Every key of the catalog handed to
    the writer is a key of the existing catalog (and then the mode is not
    [full]), an upstream key that passes the filter, an alias key or a
    custom key. So an upstream model the filter rejects enters the output
    only if it was already there or is an alias or custom model, and in
    full mode an existing model that upstream no longer offers is dropped. *)
Theorem build_catalog_keys_provenance (config : sync_config)
    (existing upstream : dict loc) (w : world) (b : built) (w' : world) :
  build_catalog config existing upstream w = (Ok b, w') ->
  forall k, In k (keys (built_catalog b)) ->
    (cfg_sync_mode config <> "full" /\ In k (keys existing))
    \/ (In k (keys upstream)
        /\ filter_keeps (prefix_filters (cfg_filter config))
             (default [] (exclude_patterns (cfg_filter config))) k = true)
    \/ In k (keys (cfg_aliases config))
    \/ In k (keys (cfg_custom_models config)).
Proof.
  intros Hrun k Hin. rewrite build_catalog_steps in Hrun. cbv zeta in Hrun.
  destruct (fst (fill_cache_1hr_pricing _ _ _)) as [n|e]; [|discriminate].
  injection Hrun as <- _. cbn [built_catalog] in Hin.
  unfold apply_custom_models in Hin.
  apply apply_custom_models_keys_from in Hin as [Hin|Hin]; [|by do 3 right].
  apply apply_aliases_keys_from in Hin as [Hin|Hin]; [|right; right; by left].
  assert (Hfilt : forall k, In k (keys (filter_upstream upstream (cfg_filter config))) ->
            In k (keys upstream)
            /\ filter_keeps (prefix_filters (cfg_filter config))
                 (default [] (exclude_patterns (cfg_filter config))) k = true).
  { intros k0 Hk0. unfold filter_upstream in Hk0.
    by apply filter_fold_keys_from in Hk0 as [[]|Hk0]. }
  unfold merge_models in Hin.
  destruct (String.eqb_spec (cfg_sync_mode config) "full") as [Hfull|Hadd];
    cbn [fst] in Hin.
  - right. left. by apply Hfilt.
  - apply merge_fold_keys_from in Hin as [Hin|Hin]; [by left|].
    right. left. by apply Hfilt.
Qed.

(** ** The stored hash: whitespace around it *)

Lemma lstrip_spaces s : all_chars is_space s = true -> lstrip s = "".
Proof.
  induction s as [|c s IH]; [done|]. cbn [all_chars lstrip].
  intros [Hc Hs]%andb_true_iff. rewrite Hc. by apply IH.
Qed.

Lemma lstrip_app s t :
  lstrip (s +:+ t) = if all_chars is_space s then lstrip t else lstrip s +:+ t.
Proof.
  induction s as [|c s IH]; [done|].
  change (String c s +:+ t) with (String c (s +:+ t)). cbn [all_chars lstrip].
  destruct (is_space c); [exact IH | done].
Qed.

Lemma rstrip_spaces s : all_chars is_space s = true -> rstrip s = "".
Proof.
  induction s as [|c s IH]; [done|]. cbn [all_chars rstrip].
  intros [Hc Hs]%andb_true_iff. by rewrite (IH Hs), Hc.
Qed.

Lemma rstrip_app_spaces s post :
  all_chars is_space post = true -> rstrip (s +:+ post) = rstrip s.
Proof.
  intros Hpost. induction s as [|c s IH]; [by apply rstrip_spaces|].
  change (String c s +:+ post) with (String c (s +:+ post)). cbn [rstrip].
  by rewrite IH.
Qed.

Lemma strip_surrounded pre s post :
  all_chars is_space pre = true -> all_chars is_space post = true ->
  strip (pre +:+ s +:+ post) = strip s.
Proof.
  intros Hpre Hpost. unfold strip. rewrite lstrip_app, Hpre, lstrip_app.
  destruct (all_chars is_space s) eqn:Es.
  - by rewrite (lstrip_spaces post Hpost), (lstrip_spaces s Es).
  - by apply rstrip_app_spaces.
Qed.

(** X19: whitespace around the stored digest is ignored. If the hash file
    holds a text without whitespace, such as a digest, surrounded by any
    whitespace (spaces, tabs, CR, LF, blank lines), [load_existing_hash]
    returns that text alone. *)
Theorem load_existing_hash_ignores_whitespace (path : string) (w : world)
    (pre s post : string) :
  all_chars is_space pre = true ->
  all_chars is_space post = true ->
  no_space s = true ->
  get path (files w) = Some (encode_utf8 (pre +:+ s +:+ post)) ->
  load_existing_hash path w = Some s.
Proof.
  intros Hpre Hpost Hs Hfile.
  unfold load_existing_hash. rewrite Hfile, decode_encode_utf8. simpl. f_equal.
  rewrite strip_surrounded by done.
  rewrite <- (strip_no_space_newline s Hs) at 2.
  symmetry. apply (strip_surrounded "" s (String newline "")); reflexivity.
Qed.

(** ** Merge: records of identical content are not updates *)

Lemma SFeqb_refl (x : float) : x <> S754_nan -> SFeqb x x = true.
Proof.
  destruct x as [[]|[]| |[] m e]; try done; intros _;
    unfold SFeqb, SFcompare; by rewrite Z.compare_refl, Pos.compare_cont_refl.
Qed.

Lemma py_eq_list la lb :
  Forall2 (fun x y => py_eq x y = true) la lb -> py_eq (JList la) (JList lb) = true.
Proof.
  cbn [py_eq]. induction 1 as [|x y la lb Hxy _ IH]; [done|]. by rewrite Hxy, IH.
Qed.

Lemma py_eq_obj fa fb :
  length fa = length fb ->
  Forall (fun kv => exists v', get (fst kv) fb = Some v' /\ py_eq (snd kv) v' = true) fa ->
  py_eq (JObj fa) (JObj fb) = true.
Proof.
  intros Hlen Hall. cbn [py_eq]. rewrite Hlen, Nat.eqb_refl. cbn [andb]. clear Hlen.
  induction Hall as [|[k v] fa (v' & Hget & Hv) _ IH]; [done|].
  cbn [fst snd] in *. by rewrite Hget, Hv, IH.
Qed.

Lemma same_content_py_eq a : forall b,
  same_content a b = true -> nan_free a = true -> py_eq a b = true.
Proof.
  induction a as [|x|x|x|x|items IH|fields IH] using json_nested_ind; intros b Hsame Hnan;
    try (destruct b; done).
  - destruct b as [| | |y| | |]; try done. apply float_same_eq in Hsame as <-.
    apply SFeqb_refl. by intros ->.
  - destruct b as [| | | | |lb|]; try done.
    apply same_content_list in Hsame. apply py_eq_list.
    cbn [nan_free] in Hnan. rewrite forallb_forall in Hnan. rewrite Forall_forall in IH.
    induction Hsame as [|x y la lb Hxy _ IHl]; constructor.
    + apply IH; [by left | done | apply Hnan; by left].
    + apply IHl.
      * intros z Hz. apply IH. by right.
      * intros z Hz. apply Hnan. by right.
  - destruct b as [| | | | | |fb]; try done.
    apply same_content_obj in Hsame as [Hlen Hall]. apply py_eq_obj; [done|].
    cbn [nan_free] in Hnan. rewrite forallb_forall in Hnan.
    rewrite Forall_forall in IH, Hall. apply Forall_forall. intros kv Hin.
    destruct (Hall kv Hin) as (v' & Hget & Hv). exists v'. split; [done|].
    apply IH; [done | done |]. apply Hnan. by apply list_elem_of_In.
Qed.

(** X20: a record of identical content is not an update. If every entry of
    the upstream selection is in the catalog with the same content, in
    whatever field order and without NaN, then the additive merge with
    [update_existing] returns the existing catalog itself, with its own
    records, and counts every upstream entry as unchanged. *)
Theorem merge_update_skips_same_content (existing filtered : dict json) :
  (forall k v, In (k, v) filtered ->
     exists old, get k existing = Some old
       /\ same_content old v = true /\ nan_free old = true) ->
  merge_models py_ne existing filtered "additive" true
  = (existing, {| added := 0; updated := 0; unchanged := len filtered;
                  total_upstream := len filtered |}).
Proof.
  intros Hall. unfold merge_models.
  change (String.eqb "additive" "full") with false. cbn iota.
  rewrite merge_fold_noop; [done|].
  intros k v Hin. destruct (Hall k v Hin) as (old & Hget & Hsame & Hnan).
  exists old. split; [done|]. cbn [andb]. unfold py_ne.
  by rewrite (same_content_py_eq old v Hsame Hnan).
Qed.

(** ** The further properties at concrete inputs *)

Lemma filter_upstream_keeps_order_witness :
  dict_wf example_upstream
  /\ len (filter_upstream example_upstream example_config) <= len example_upstream.
Proof.
  assert (Hwf : dict_wf example_upstream) by (unfold dict_wf; solve_nodup).
  split; [exact Hwf|].
  exact (proj2 (proj2 (proj2 (filter_upstream_keeps_order example_upstream
                                example_config Hwf)))).
Defined.

Lemma filter_upstream_idempotent_witness :
  dict_wf example_upstream
  /\ filter_upstream (filter_upstream example_upstream example_config) example_config
     = filter_upstream example_upstream example_config.
Proof.
  assert (Hwf : dict_wf example_upstream) by (unfold dict_wf; solve_nodup).
  split; [exact Hwf|].
  exact (filter_upstream_idempotent example_upstream example_config Hwf).
Defined.

Lemma filter_upstream_empty_strings_witness :
  filter_upstream example_upstream
    {| prefix_filters := ["gpt-"]; exclude_patterns := Some [""] |} = []
  /\ filter_upstream example_upstream
       {| prefix_filters := [""]; exclude_patterns := None |} = example_upstream.
Proof.
  assert (Hwf : dict_wf example_upstream) by (unfold dict_wf; solve_nodup).
  split.
  - apply (proj1 (filter_upstream_empty_strings example_upstream
                    {| prefix_filters := ["gpt-"]; exclude_patterns := Some [""] |})).
    simpl. by left.
  - apply (proj2 (filter_upstream_empty_strings example_upstream
                    {| prefix_filters := [""]; exclude_patterns := None |}));
      [exact Hwf | reflexivity | right; simpl; by left].
Defined.

Lemma merge_additive_update_existing_witness :
  dict_wf example_upstream
  /\ updated (snd (merge_models py_ne example_existing example_upstream "additive" true))
     = length (List.filter (is_changed py_ne example_existing) example_upstream).
Proof.
  assert (Hwf : dict_wf example_upstream) by (unfold dict_wf; solve_nodup).
  split; [exact Hwf|].
  exact (proj1 (proj2 (proj2 (proj2 (merge_additive_update_existing py_ne
                                        example_existing example_upstream Hwf))))).
Defined.

Lemma merge_additive_again_is_noop_witness :
  dict_wf example_upstream
  /\ (forall k v, In (k, v) example_upstream -> py_ne v v = false)
  /\ merge_models py_ne
       (fst (merge_models py_ne example_existing example_upstream "additive" true))
       example_upstream "additive" true
     = (fst (merge_models py_ne example_existing example_upstream "additive" true),
        {| added := 0; updated := 0; unchanged := 3; total_upstream := 3 |}).
Proof.
  assert (Hwf : dict_wf example_upstream) by (unfold dict_wf; solve_nodup).
  assert (Hrefl : forall k v, In (k, v) example_upstream -> py_ne v v = false).
  { intros k v [Heq|[Heq|[Heq|[]]]]; injection Heq as _ <-; reflexivity. }
  split; [exact Hwf|]. split; [exact Hrefl|].
  exact (merge_additive_again_is_noop py_ne example_existing example_upstream true
           Hwf Hrefl).
Defined.

Lemma apply_aliases_keeps_catalog_sound_witness :
  dict_wf alias_catalog
  /\ store_wf (heap alias_world) alias_catalog
  /\ NoDup (map snd alias_catalog)
  /\ NoDup (map snd (fst (apply_aliases alias_catalog alias_mapping alias_world))).
Proof.
  assert (Hd : dict_wf alias_catalog) by (unfold dict_wf; solve_nodup).
  assert (Hwf : store_wf (heap alias_world) alias_catalog).
  { unfold store_wf. repeat constructor; simpl; lia. }
  assert (Hns : NoDup (map snd alias_catalog)) by solve_nodup.
  split; [exact Hd|]. split; [exact Hwf|]. split; [exact Hns|].
  exact (proj1 (proj2 (proj2 (apply_aliases_keeps_catalog_sound alias_catalog
                                alias_mapping alias_world Hd Hwf Hns)))).
Defined.

Lemma apply_aliases_unchained_witness :
  dict_wf alias_mapping
  /\ store_wf (heap alias_world) alias_catalog
  /\ (forall a cfg, In (a, cfg) alias_mapping ->
        ~ In (default "" (source cfg)) (keys alias_mapping))
  /\ (let r := apply_aliases alias_catalog alias_mapping alias_world in
      forall k, ~ In k (keys alias_mapping) ->
        get k (denote (heap (snd r)) (fst r))
        = get k (denote (heap alias_world) alias_catalog)).
Proof.
  assert (Hd : dict_wf alias_mapping) by (unfold dict_wf; solve_nodup).
  assert (Hwf : store_wf (heap alias_world) alias_catalog).
  { unfold store_wf. repeat constructor; simpl; lia. }
  assert (Hun : forall a cfg, In (a, cfg) alias_mapping ->
                  ~ In (default "" (source cfg)) (keys alias_mapping)).
  { intros a cfg [Heq|[Heq|[]]]; injection Heq as _ <-; simpl;
      intros [H|[H|[]]]; discriminate H. }
  split; [exact Hd|]. split; [exact Hwf|]. split; [exact Hun|].
  exact (proj1 (proj2 (apply_aliases_unchained alias_catalog alias_mapping alias_world
                          Hd Hwf Hun))).
Defined.

Lemma fill_raises_on_non_numeric_source_witness :
  fillable (deref (heap bad_cost_world) 0) = Some ([(source_field, JBool true)], JBool true)
  /\ exists e w',
       fill_cache_1hr_pricing example_catalog
         (Some {| model_prefix := Some "claude-"; ratio := Some (JFloat float_1_6) |})
         bad_cost_world = (Raise e, w')
       /\ files w' = files bad_cost_world.
Proof.
  split; [reflexivity|].
  apply (fill_raises_on_non_numeric_source example_catalog
           {| model_prefix := Some "claude-"; ratio := Some (JFloat float_1_6) |}
           bad_cost_world "claude-x" 0 [(source_field, JBool true)] (JBool true)).
  - discriminate.
  - simpl. by left.
  - reflexivity.
  - reflexivity.
  - exact I.
Defined.

Lemma write_output_writes_both_files_witness :
  compute_hash (serialize (heap writer_world) writer_catalog) <> ""
  /\ fst (write_output writer_catalog "prices.json" "prices.sha256" "" writer_world)
     = (true, compute_hash (serialize (heap writer_world) writer_catalog)).
Proof.
  assert (Hne : compute_hash (serialize (heap writer_world) writer_catalog) <> "").
  { intros H. vm_compute in H. discriminate H. }
  split; [exact Hne|].
  exact (proj1 (write_output_writes_both_files writer_catalog "prices.json"
                  "prices.sha256" "" writer_world Hne)).
Defined.

Lemma write_output_first_run_witness :
  get "prices.sha256" (files writer_world) = None
  /\ load_existing_hash "prices.sha256" writer_world = Some "".
Proof.
  split; [reflexivity|].
  exact (proj1 (write_output_first_run writer_catalog "prices.json" "prices.sha256"
                  writer_world eq_refl)).
Defined.

Lemma apply_custom_models_precedence_witness :
  dict_wf custom_models
  /\ NoDup (map snd custom_catalog ++ map snd custom_models)
  /\ (let r := apply_custom_models custom_catalog custom_models custom_world in
      forall k, get k (denote (heap (snd (fst r))) (fst (fst r)))
        = match get k (denote (heap custom_world) custom_models) with
          | Some value =>
              Some (custom_value (get k (denote (heap custom_world) custom_catalog)) value)
          | None => get k (denote (heap custom_world) custom_catalog)
          end).
Proof.
  assert (Hd : dict_wf custom_models) by (unfold dict_wf; solve_nodup).
  assert (Hns : NoDup (map snd custom_catalog ++ map snd custom_models)) by solve_nodup.
  split; [exact Hd|]. split; [exact Hns|].
  exact (proj1 (apply_custom_models_precedence custom_catalog custom_models
                  custom_world Hd Hns)).
Defined.

Lemma load_config_validates_witness :
  valid_config config_json = true
  /\ load_config (fun _ => Ok config_json) "config.json" [("config.json", "{}")]
     = (Returns config_json, []).
Proof.
  split; [reflexivity|].
  apply (proj1 (load_config_validates (fun _ => Ok config_json) "config.json"
                  [("config.json", "{}")])).
  split; [|reflexivity]. exists "{}". repeat split; reflexivity.
Defined.

Lemma build_catalog_additive_keeps_models_witness :
  exists b w',
    build_catalog run_config run_existing run_upstream run_world = (Ok b, w')
    /\ In "old-model" (keys (built_catalog b))
    /\ get "old-model" (denote (heap w') (built_catalog b)) = Some (JObj [("cost", JInt 1)]).
Proof.
  assert (Hrun : { bw | build_catalog run_config run_existing run_upstream run_world
                        = (Ok (fst bw), snd bw) }).
  { eexists (_, _). vm_compute. reflexivity. }
  destruct Hrun as [[b w'] Hrun]. cbn [fst snd] in Hrun.
  exists b, w'. split; [exact Hrun|].
  assert (Hmode : cfg_sync_mode run_config <> "full") by discriminate.
  assert (Hex : dict_wf run_existing) by (unfold dict_wf; solve_nodup).
  assert (Hup : dict_wf run_upstream) by (unfold dict_wf; solve_nodup).
  assert (Hcu : dict_wf (cfg_custom_models run_config)) by (unfold dict_wf; solve_nodup).
  assert (Hs1 : store_wf (heap run_world) run_existing)
    by (unfold store_wf; repeat constructor; simpl; lia).
  assert (Hs2 : store_wf (heap run_world) run_upstream)
    by (unfold store_wf; repeat constructor; simpl; lia).
  assert (Hs3 : store_wf (heap run_world) (cfg_custom_models run_config))
    by (unfold store_wf; repeat constructor; simpl; lia).
  assert (Hnd : NoDup (map snd run_existing ++ map snd run_upstream
                       ++ map snd (cfg_custom_models run_config))) by solve_nodup.
  destruct (build_catalog_additive_keeps_models run_config run_existing run_upstream
              run_world b w' Hmode Hex Hup Hcu Hs1 Hs2 Hs3 Hnd Hrun
              "old-model" (JObj [("cost", JInt 1)]) eq_refl) as [Hin Hkeep].
  split; [exact Hin|]. apply Hkeep.
  - left. reflexivity.
  - simpl. intros [H|[]]. discriminate H.
  - simpl. intros [H|[]]. discriminate H.
  - right. left. reflexivity.
Defined.

Lemma build_catalog_keys_provenance_witness :
  exists b w',
    build_catalog run_config run_existing run_upstream run_world = (Ok b, w')
    /\ forall k, In k (keys (built_catalog b)) ->
         (cfg_sync_mode run_config <> "full" /\ In k (keys run_existing))
         \/ (In k (keys run_upstream)
             /\ filter_keeps (prefix_filters (cfg_filter run_config))
                  (default [] (exclude_patterns (cfg_filter run_config))) k = true)
         \/ In k (keys (cfg_aliases run_config))
         \/ In k (keys (cfg_custom_models run_config)).
Proof.
  assert (Hrun : { bw | build_catalog run_config run_existing run_upstream run_world
                        = (Ok (fst bw), snd bw) }).
  { eexists (_, _). vm_compute. reflexivity. }
  destruct Hrun as [[b w'] Hrun]. cbn [fst snd] in Hrun.
  exists b, w'. split; [exact Hrun|].
  exact (build_catalog_keys_provenance run_config run_existing run_upstream run_world
           b w' Hrun).
Defined.

Lemma load_existing_hash_ignores_whitespace_witness :
  no_space writer_digest = true
  /\ load_existing_hash "prices.sha256" padded_hash_world = Some writer_digest.
Proof.
  split; [reflexivity|].
  apply (load_existing_hash_ignores_whitespace "prices.sha256" padded_hash_world
           " " writer_digest (String carriage_return (String newline "")));
    reflexivity.
Defined.

Lemma apply_custom_models_idempotent_witness :
  dict_wf custom_models
  /\ NoDup (map snd custom_catalog ++ map snd custom_models)
  /\ (forall k c fields, In (k, c) custom_models ->
        deref (heap custom_world) c = JObj fields -> dict_wf fields)
  /\ (let r1 := apply_custom_models custom_catalog custom_models custom_world in
      let r2 := apply_custom_models (fst (fst r1)) custom_models (snd (fst r1)) in
      forall k, get k (denote (heap (snd (fst r2))) (fst (fst r2)))
                = get k (denote (heap (snd (fst r1))) (fst (fst r1)))).
Proof.
  assert (Hd : dict_wf custom_models) by (unfold dict_wf; solve_nodup).
  assert (Hns : NoDup (map snd custom_catalog ++ map snd custom_models)) by solve_nodup.
  assert (Hf : forall k c fields, In (k, c) custom_models ->
                 deref (heap custom_world) c = JObj fields -> dict_wf fields).
  { intros k c fields [Heq|[Heq|[]]]; injection Heq as _ <-; intros [= <-];
      unfold dict_wf; solve_nodup. }
  split; [exact Hd|]. split; [exact Hns|]. split; [exact Hf|].
  exact (apply_custom_models_idempotent custom_catalog custom_models custom_world
           Hd Hns Hf).
Defined.

Lemma merge_update_skips_same_content_witness :
  reorder_existing <> reorder_upstream
  /\ merge_models py_ne reorder_existing reorder_upstream "additive" true
     = (reorder_existing,
        {| added := 0; updated := 0; unchanged := 1; total_upstream := 1 |}).
Proof.
  split; [discriminate|].
  apply (merge_update_skips_same_content reorder_existing reorder_upstream).
  intros k v [Heq|[]]. injection Heq as <- <-.
  eexists. repeat split; reflexivity.
Defined.
